(** * J-Liciaga/algorithms: a verification development

    Shallow embeddings of the puzzle solutions (JavaScript) and of the
    notebook routines (Python / numpy) of the repository, with the properties
    the specification states about them.

    Conventions.
    - JavaScript numbers that hold integers are modelled as [Z]; where a sum
      can leave the safe integers (minTimeToVisitAllPoints) the rounding of
      binary64 is part of the model.
    - Python / numpy floats are modelled as exact rationals [Qc]; rounding is
      not part of the model.  Where only the data flow of a numeric routine
      matters, the arithmetic is taken abstractly as section variables.
    - A numpy array is a list (a matrix is a list of rows).  Reads outside an
      array and divisions by zero are explicit outcomes of the [result] type.
    - The rational reading is exact up to rounding as long as no intermediate
      value leaves the range of binary64.  Where a property depends on that
      range, the routine is also run on the kernel's binary64 numbers (the
      modules whose names end in 64), and the theorems about the rational
      reading carry the range as a hypothesis.
*)

From Stdlib Require Import ZArith QArith Qcanon Lia List String.
From Stdlib Require Uint63 Floats.
From stdpp Require Import base tactics option list numbers strings gmap.
Import ListNotations.

Local Open Scope Z_scope.

(* ===================================================================== *)
(** * Outcomes of fallible code                                           *)
(* ===================================================================== *)

Module Outcome.

(** A run ends with a value or with an error of type [E] (an exception, or
    an outcome that the model of the values does not cover). *)
Inductive result (E A : Type) : Type :=
| Ok (a : A)
| Err (e : E).
Arguments Ok {E A} a.
Arguments Err {E A} e.

#[export] Instance result_ret {E} : MRet (result E) := fun A a => Ok a.
#[export] Instance result_bind {E} : MBind (result E) := fun A B f m =>
  match m with
  | Ok a => f a
  | Err e => Err e
  end.

(** A loop over a list that stops at the first error. *)
Fixpoint foldM {E A B} (f : B -> A -> result E B) (l : list A) (b : B)
  : result E B :=
  match l with
  | [] => Ok b
  | a :: l' => b' ← f b a; foldM f l' b'
  end.

(** A map over a list that stops at the first error. *)
Fixpoint mapM_r {E A B} (f : A -> result E B) (l : list A) : result E (list B) :=
  match l with
  | [] => Ok []
  | a :: l' => b ← f a; bs ← mapM_r f l'; Ok (b :: bs)
  end.

(** [holds allowed P r]: the run [r] ends with a value that satisfies [P],
    or with an error among the [allowed] ones. *)
Definition holds {E A} (allowed : E -> Prop) (P : A -> Prop) (r : result E A)
  : Prop :=
  match r with
  | Ok a => P a
  | Err e => allowed e
  end.

(** No error is allowed. *)
Definition never {E} : E -> Prop := fun _ => False.

End Outcome.
Export Outcome.

(* ===================================================================== *)
(** * minTimeToVisitAllPoints (unnamed/part_002)                          *)
(* ===================================================================== *)

Module MinTime.

Abbreviation point := (Z * Z)%type.

(** A JavaScript number (binary64) whose value is an integer, an infinity
    or NaN.  The coordinates of the points are integers. *)
Inductive number : Type :=
| Num (z : Z)
| PInf
| NInf
| NaN.

(** The integer nearest to [z] among the binary64 numbers, were the exponent
    unbounded: an integer below 2^53 in absolute value is a number; beyond,
    the 53 leading bits are kept, rounding to the nearest, and to the even
    mantissa when [z] is halfway. *)
Definition round_even (z : Z) : Z :=
  let a := Z.abs z in
  if a <? 2 ^ 53 then z
  else
    let ulp := 2 ^ (Z.log2 a - 52) in
    let q := a / ulp in
    let r := a mod ulp in
    let q' := if 2 * r <? ulp then q
              else if ulp <? 2 * r then q + 1
              else if Z.even q then q else q + 1 in
    Z.sgn z * (q' * ulp).

(** The number that the exact integer result [z] of an operation is stored
    as: rounded, and an infinity from 2^1024 on. *)
Definition js_number (z : Z) : number :=
  let r := round_even z in
  if 2 ^ 1024 <=? Z.abs r then (if 0 <? r then PInf else NInf) else Num r.

(** [x - y] and [x + y]. *)
Definition js_sub (x y : number) : number :=
  match x, y with
  | Num a, Num b => js_number (a - b)
  | NaN, _ | _, NaN => NaN
  | PInf, PInf | NInf, NInf => NaN
  | PInf, _ | _, NInf => PInf
  | NInf, _ | _, PInf => NInf
  end.

Definition js_add (x y : number) : number :=
  match x, y with
  | Num a, Num b => js_number (a + b)
  | NaN, _ | _, NaN => NaN
  | PInf, NInf | NInf, PInf => NaN
  | PInf, _ | _, PInf => PInf
  | NInf, _ | _, NInf => NInf
  end.

(** [Math.abs(x)] and [Math.max(x, y)]. *)
Definition Math_abs (x : number) : number :=
  match x with
  | Num a => Num (Z.abs a)
  | PInf | NInf => PInf
  | NaN => NaN
  end.

Definition Math_max (x y : number) : number :=
  match x, y with
  | NaN, _ | _, NaN => NaN
  | PInf, _ | _, PInf => PInf
  | NInf, v | v, NInf => v
  | Num a, Num b => Num (Z.max a b)
  end.

(** One pass of the loop body for index [i]:
    [[x1, y1] = points[i - 1]; [x2, y2] = points[i];]
    [totalTime += Math.max(Math.abs(x2 - x1), Math.abs(y2 - y1))].
    Destructuring [undefined] throws a TypeError: [None]. *)
Definition loop_body (points : list point) (totalTime : option number) (i : nat)
  : option number :=
  match totalTime, points !! (i - 1)%nat, points !! i with
  | Some acc, Some (x1, y1), Some (x2, y2) =>
      let dx := Math_abs (js_sub (Num x2) (Num x1)) in
      let dy := Math_abs (js_sub (Num y2) (Num y1)) in
      Some (js_add acc (Math_max dx dy))
  | _, _, _ => None
  end.

(** [for (let i = 1; i < points.length; i++) ...; return totalTime]. *)
Definition minTimeToVisitAllPoints (points : list point) : option number :=
  fold_left (loop_body points) (seq 1 (length points - 1)) (Some (Num 0)).

(** ** The specification side *)

(** Chebyshev distance between two points. *)
Definition cheb (p q : point) : Z :=
  Z.max (Z.abs (fst q - fst p)) (Z.abs (snd q - snd p)).

(** The sum over consecutive pairs. *)
Fixpoint path_time (points : list point) : Z :=
  match points with
  | p :: (q :: _) as rest => cheb p q + path_time rest
  | _ => 0
  end.

(** What one second allows: a move of one unit horizontally, vertically or
    diagonally. *)
Definition move (p q : point) : Prop :=
  p <> q /\ Z.abs (fst q - fst p) <= 1 /\ Z.abs (snd q - snd p) <= 1.

(** [walk p q n]: [q] is reached from [p] in [n] seconds. *)
Inductive walk : point -> point -> nat -> Prop :=
| walk_here p : walk p p 0
| walk_move p q r n : move p q -> walk q r n -> walk p r (S n).

(** [tour ps n]: the points of [ps] are visited in the given order, starting
    on the first one, in [n] seconds in total. *)
Inductive tour : list point -> nat -> Prop :=
| tour_nil : tour [] 0
| tour_one p : tour [p] 0
| tour_leg p q ps n k :
    walk p q n -> tour (q :: ps) k -> tour (p :: q :: ps) (n + k).

(** One step towards the target: each coordinate moves by its sign. *)
Definition towards (p q : point) : point :=
  (fst p + Z.sgn (fst q - fst p), snd p + Z.sgn (snd q - snd p)).

(** An integer that is a JavaScript number as it stands. *)
Definition is_number (z : Z) : Prop := js_number z = Num z.

(** Points a caller can pass whose route stays among the safe integers:
    every coordinate is a number and the sum over consecutive pairs is at
    most 2^53. *)
Definition safe (points : list point) : Prop :=
  Forall (fun p => is_number (fst p) /\ is_number (snd p)) points /\
  path_time points <= 2 ^ 53.

End MinTime.

(* ===================================================================== *)
(** * orangesRotting (unnamed/part_000)                                   *)
(* ===================================================================== *)

Module Oranges.

(** What a call evaluates to: a number, or [undefined] when the function
    body ends without a [return]. *)
Inductive jsval : Type :=
| JNum (z : Z)
| JUndefined.

(** A grid is an array of rows; [None] stands for [null]. *)
Abbreviation grid := (list (list Z)).

(** Queue entries [[row, col, minute]]. *)
Abbreviation entry := (nat * nat * Z)%type.

(** [grid[r][c]], [None] when it is [undefined]. *)
Definition cell (g : grid) (r c : nat) : option Z :=
  match g !! r with
  | Some row => row !! c
  | None => None
  end.

(** The body of the inner gathering loop:
    [if (grid[r][c] === 2) queue.push([r, c, 0]);]
    [else if (grid[r][c] === 1) freshCount++;] *)
Definition gather_cell (g : grid) (r : nat) (st : list entry * Z) (c : nat)
  : list entry * Z :=
  let '(queue, freshCount) := st in
  match cell g r c with
  | Some v =>
      if v =? 2 then (queue ++ [(r, c, 0)], freshCount)
      else if v =? 1 then (queue, freshCount + 1)
      else st
  | None => st
  end.

Definition gather_row (g : grid) (cols : nat) (st : list entry * Z) (r : nat)
  : list entry * Z :=
  fold_left (gather_cell g r) (seq 0 cols) st.

Definition gather (g : grid) (rows cols : nat) : list entry * Z :=
  fold_left (gather_row g cols) (seq 0 rows) ([], 0).

Definition directions : list (Z * Z) := [(1, 0); (-1, 0); (0, 1); (0, -1)].

(** The body of [for (const [dx, dy] of directions)]: it computes [newRow]
    and [newCol] and does nothing with them. *)
Definition visit_direction (row col : Z) (u : unit) (d : Z * Z) : unit :=
  let '(dx, dy) := d in
  let newRow := row + dx in
  let newCol := col + dy in
  u.

(** [while (queue.length > 0) { const [row, col, minute] = queue.shift(); ... }]
    and the end of the function body, which is reached without a [return].
    The second component counts the iterations of the [while] loop. *)
Fixpoint drain (queue : list entry) (shifts : nat) : jsval * nat :=
  match queue with
  | [] => (JUndefined, shifts)
  | (row, col, minute) :: queue' =>
      let _ := fold_left (visit_direction (Z.of_nat row) (Z.of_nat col))
                         directions tt in
      drain queue' (S shifts)
  end.

(** [grid[0].length]. *)
Definition columns (g : grid) : nat :=
  match g !! 0%nat with
  | Some row0 => length row0
  | None => 0%nat
  end.

(** The function, together with the number of iterations of its [while]
    loop. *)
Definition orangesRotting_run (grid : option grid) : jsval * nat :=
  match grid with
  | None => (JNum (-1), 0%nat)
  | Some g =>
      if (length g =? 0)%nat then (JNum (-1), 0%nat)
      else
        let rows := length g in
        let cols := columns g in
        let '(queue, freshCount) := gather g rows cols in
        if freshCount =? 0 then (JNum 0, 0%nat)
        else drain queue 0
  end.

Definition orangesRotting (grid : option grid) : jsval :=
  fst (orangesRotting_run grid).

Definition example_grid : grid := [[2; 1; 1]; [1; 1; 0]; [0; 1; 1]].

(** A grid without a cell equal to 1. *)
Definition no_fresh (g : grid) : Prop :=
  forall r c, cell g r c <> Some 1.

End Oranges.

(* ===================================================================== *)
(** * spiralMatrixc (leetcode/spiral-matrix.js)                           *)
(* ===================================================================== *)

Module Spiral.

(** Outcomes of a run besides a value. [OutOfFuel] belongs to the model only:
    the loops are run with a bound on their number of iterations. *)
Inductive error : Type :=
| TypeError
| OutOfFuel.

Abbreviation result := (Outcome.result error).

(** A JavaScript array as the map from its integer property keys to their
    values; the matrix is an array of arrays. *)
Abbreviation row := (gmap Z Z).
Abbreviation matrix := (gmap Z (gmap Z Z)).

(** The integers [a, a + 1, ..., a + len - 1]. *)
Definition zrange (a : Z) (len : nat) : list Z :=
  map (fun i => a + Z.of_nat i) (seq 0 len).

(** An array of length [n] whose elements are all [x]: [Array(n).fill(0)],
    and [Array.from({ length: n }, () => ...)] when the callback returns an
    array equal to [x] at every call (a new one each time: rows are not
    shared). *)
Definition filled {A} (n : Z) (x : A) : gmap Z A :=
  list_to_map (map (fun i => (i, x)) (zrange 0 (Z.to_nat n))).

(** [Array.from({ length: n }, () => Array(n).fill(0))]. *)
Definition zeros (n : Z) : matrix := filled n (filled n 0).

Record state : Type := mkState {
  mat : matrix;
  top : Z;
  bottom : Z;
  left : Z;
  right : Z;
  current : Z
}.

(** [matrix[r][c] = current++].  When [matrix[r]] is undefined the assignment
    throws a TypeError; otherwise the property [c] of the row is set, whether
    or not it existed. *)
Definition put (r c : Z) (st : state) : result state :=
  match mat st !! r with
  | Some rw =>
      Ok (mkState (<[r := <[c := current st]> rw]> (mat st))
                  (top st) (bottom st) (left st) (right st) (current st + 1))
  | None => Err TypeError
  end.

(** [for (let i = init; cond(i); i = update(i)) body(i)] over a state. *)
Fixpoint for_loop (fuel : nat) (cond : Z -> state -> bool)
    (update : Z -> Z) (body : Z -> state -> result state)
    (i : Z) (st : state) : result state :=
  match fuel with
  | O => Err OutOfFuel
  | S fuel' =>
      if cond i st then
        st' ← body i st;
        for_loop fuel' cond update body (update i) st'
      else Ok st
  end.

Definition set_top (v : Z) (st : state) : state :=
  mkState (mat st) v (bottom st) (left st) (right st) (current st).
Definition set_bottom (v : Z) (st : state) : state :=
  mkState (mat st) (top st) v (left st) (right st) (current st).
Definition set_left (v : Z) (st : state) : state :=
  mkState (mat st) (top st) (bottom st) v (right st) (current st).
Definition set_right (v : Z) (st : state) : state :=
  mkState (mat st) (top st) (bottom st) (left st) v (current st).

(** The body of the [while] loop. *)
Definition round (fuel : nat) (max : Z) (st : state) : result state :=
  (* fill from left to right on the top row *)
  st ← for_loop fuel (fun col st => (col <=? right st) && (current st <=? max))
          Z.succ (fun col st => put (top st) col st) (left st) st;
  let st := set_top (top st + 1) st in
  (* fill from top to bottom on the right column *)
  st ← for_loop fuel (fun row st => (row <=? bottom st) && (current st <=? max))
          Z.succ (fun row st => put row (right st) st) (top st) st;
  let st := set_right (right st - 1) st in
  (* fill from right to left on the bottom row *)
  st ← for_loop fuel (fun col st => (col >=? left st) && (current st <=? max))
          Z.pred (fun col st => put (bottom st) col st) (right st) st;
  let st := set_bottom (bottom st - 1) st in
  (* fill from bottom to top on the left column *)
  st ← for_loop fuel (fun row st => (row >=? top st) && (current st <=? max))
          Z.pred (fun row st => put row (left st) st) (bottom st) st;
  Ok (set_left (left st + 1) st).

(** [while (current <= max) { ... }]; the inner loops get [inner] fuel. *)
Fixpoint while_loop (fuel inner : nat) (max : Z) (st : state) : result state :=
  match fuel with
  | O => Err OutOfFuel
  | S fuel' =>
      if current st <=? max then
        st' ← round inner max st;
        while_loop fuel' inner max st'
      else Ok st
  end.

(** The function with an explicit bound on the iterations of each loop. *)
Definition spiralMatrixc_fuel (fuel : nat) (n : Z) : result matrix :=
  let max := n * n in
  st ← while_loop fuel fuel max
          (mkState (zeros n) 0 (n - 1) 0 (n - 1) 1);
  Ok (mat st).

(** Every iteration of every loop but the last passes the test
    [current <= max] and, in the inner loops, increments [current], which
    starts at 1: [max + 1] iterations are enough whenever the loops end. *)
Definition spiralMatrixc (n : Z) : result matrix :=
  spiralMatrixc_fuel (S (Z.to_nat (n * n))) n.

(** Reading an array back as a list: [a[0], ..., a[n-1]], [None] if one of
    them is missing. *)
Definition to_list {A} (n : Z) (a : gmap Z A) : option (list A) :=
  mapM (fun i => a !! i) (zrange 0 (Z.to_nat n)).

Definition to_rows (n : Z) (m : matrix) : option (list (list Z)) :=
  rows ← to_list n m; mapM (to_list n) rows.

(** ** The specification side *)

Definition zrange_down (a : Z) (len : nat) : list Z :=
  map (fun i => a - Z.of_nat i) (seq 0 len).

(** The cells of ring [l] of an [n] x [n] square (ring 0 is the border),
    clockwise from the ring's top-left corner: the top edge rightwards, the
    right edge downwards, the bottom edge leftwards, the left edge upwards. *)
Definition ring (n l : Z) : list (Z * Z) :=
  let side := n - 2 * l in
  map (fun c => (l, c)) (zrange l (Z.to_nat side)) ++
  map (fun r => (r, n - 1 - l)) (zrange (l + 1) (Z.to_nat (side - 1))) ++
  map (fun c => (n - 1 - l, c)) (zrange_down (n - 2 - l) (Z.to_nat (side - 1))) ++
  map (fun r => (r, l)) (zrange_down (n - 2 - l) (Z.to_nat (side - 2))).

(** The clockwise spiral from the top-left corner: the rings from the
    outermost to the innermost. *)
Definition spiral_cells (n : Z) : list (Z * Z) :=
  concat (map (fun l => ring n (Z.of_nat l)) (seq 0 (Z.to_nat ((n + 1) / 2)))).

(** Writing consecutive values along a list of cells, starting from [v]. *)
Definition write_cell (acc : matrix * Z) (p : Z * Z) : matrix * Z :=
  let '(m, v) := acc in
  (match m !! fst p with
   | Some rw => <[fst p := <[snd p := v]> rw]> m
   | None => m
   end, v + 1).

Definition write_cells (cells : list (Z * Z)) (acc : matrix * Z) : matrix * Z :=
  fold_left write_cell cells acc.

(** An [n] x [n] array of arrays: rows [0..n-1], and in each row the
    properties [0..n-1], and nothing else. *)
Definition is_square (n : Z) (m : matrix) : Prop :=
  (forall r, is_Some (m !! r) <-> 0 <= r < n) /\
  (forall r rw c, m !! r = Some rw -> (is_Some (rw !! c) <-> 0 <= c < n)).

(** Walks on the grid.  A step is a pair (rows, columns); rows grow
    downwards. *)
Definition go_right : Z * Z := (0, 1).
Definition go_down : Z * Z := (1, 0).
Definition go_left : Z * Z := (0, -1).
Definition go_up : Z * Z := (-1, 0).

Definition advance (p d : Z * Z) : Z * Z := (fst p + fst d, snd p + snd d).

(** The cells visited by the steps [ds] made from [p] ([p] itself is not
    listed), and the cell the walk ends on. *)
Fixpoint trace (p : Z * Z) (ds : list (Z * Z)) : list (Z * Z) :=
  match ds with
  | [] => []
  | d :: ds' => advance p d :: trace (advance p d) ds'
  end.

Definition endpos (p : Z * Z) (ds : list (Z * Z)) : Z * Z :=
  fold_left advance ds p.

(** A quarter turn clockwise: right, down, left, up, right. *)
Definition clockwise (d : Z * Z) : Z * Z := (snd d, - fst d).

(** After a step [d], the next one goes straight on or turns clockwise. *)
Definition turn (d d' : Z * Z) : Prop := d' = d \/ d' = clockwise d.

Fixpoint turns (d : Z * Z) (ds : list (Z * Z)) : Prop :=
  match ds with
  | [] => True
  | d' :: ds' => turn d d' /\ turns d' ds'
  end.

(** The steps around ring [l], entered from the cell left of its top-left
    corner, and the steps of the whole spiral. *)
Definition ring_steps (n l : Z) : list (Z * Z) :=
  let side := n - 2 * l in
  replicate (Z.to_nat side) go_right ++
  replicate (Z.to_nat (side - 1)) go_down ++
  replicate (Z.to_nat (side - 1)) go_left ++
  replicate (Z.to_nat (side - 2)) go_up.

Definition spiral_steps (n : Z) : list (Z * Z) :=
  concat (map (fun l => ring_steps n (Z.of_nat l)) (seq 0 (Z.to_nat ((n + 1) / 2)))).

(** The ring a cell lies on: its distance to the nearest side. *)
Definition layer (n : Z) (p : Z * Z) : Z :=
  Z.min (Z.min (fst p) (snd p)) (Z.min (n - 1 - fst p) (n - 1 - snd p)).

(** [m[r][c]]. *)
Definition at_cell (m : matrix) (p : Z * Z) : option Z :=
  rw ← m !! fst p; rw !! snd p.

(** All cells of the square, row by row. *)
Definition all_cells (n : Z) : list (Z * Z) :=
  r ← zrange 0 (Z.to_nat n); c ← zrange 0 (Z.to_nat n); [(r, c)].

End Spiral.

(* ===================================================================== *)
(** * RiskManager.size_position (unnamed/part_001)                        *)
(* ===================================================================== *)

Module Risk.
Local Open Scope Qc_scope.

Record RiskManager : Type := mkRiskManager {
  max_position : Qc;
  vol_target : Qc;
  stop_loss : Qc
}.

(** [RiskManager()] with the default arguments [1.0], [0.02], [-0.05]. *)
Definition default_manager : RiskManager :=
  mkRiskManager 1 (Q2Qc (2 # 100)) (Q2Qc (-5 # 100)).

(** The literal [1e-8]. *)
Definition eps : Qc := Q2Qc (1 # 100000000).

(** [x / y]; [None] is the ZeroDivisionError of a zero divisor. *)
Definition py_div (x y : Qc) : option Qc :=
  if decide (y = 0) then None else Some (x / y).

(** [min(a, b)]: the first argument unless the second is smaller. *)
Definition py_min (a b : Qc) : Qc :=
  if decide (b < a) then b else a.

(** [size = min(self.vol_target / (realized_vol + 1e-8), self.max_position)]. *)
Definition size_position (self : RiskManager) (realized_vol : Qc) : option Qc :=
  q ← py_div (vol_target self) (realized_vol + eps);
  Some (py_min q (max_position self)).

End Risk.

(* ===================================================================== *)
(** * black_scholes (finance/black-scholes-model.ipynb)                   *)
(* ===================================================================== *)

Module BlackScholes.

(** What a call produces: a price, or the NameError of reading a global name
    that is not bound. *)
Inductive outcome (num : Type) : Type :=
| Value (v : num)
| NameError.
Arguments Value {num} v.
Arguments NameError {num}.

Section Pricing.

(** The float arithmetic and the numpy / scipy functions the cell calls. *)
Variable num : Type.
Variables add sub mul div pow : num -> num -> num.
Variable neg : num -> num.
Variables np_log np_sqrt np_exp : num -> num.
Variable norm_cdf : num -> num -> num -> num.
Variables lit_0_5 lit_2 lit_0_0 lit_1_0 : num.

(** [def black_scholes(S, X, T, r, sigma, option_type="call")].  The body
    never reads [X]: it reads the name [K], which is not a parameter and so
    is looked up among the globals of the notebook ([K_global]). *)
Definition black_scholes (K_global : option num)
    (S X T r sigma : num) (option_type : string) : outcome num :=
  match K_global with
  | None => NameError
  | Some K =>
      let d1 := div (add (np_log (div S K))
                         (mul (add r (mul lit_0_5 (pow sigma lit_2))) T))
                    (mul sigma (np_sqrt T)) in
      let d2 := sub d1 (mul sigma (np_sqrt T)) in
      if String.eqb option_type "call" then
        Value (sub (mul S (norm_cdf d1 lit_0_0 lit_1_0))
                   (mul (mul K (np_exp (mul (neg r) T)))
                        (norm_cdf d2 lit_0_0 lit_1_0)))
      else
        Value (sub (mul (mul K (np_exp (mul (neg r) T)))
                        (norm_cdf (neg d2) lit_0_0 lit_1_0))
                   (mul S (norm_cdf (neg d1) lit_0_0 lit_1_0)))
  end.

(** The closed form the specification states, for strike [strike]. *)
Definition closed_form (S strike T r sigma : num) (option_type : string) : num :=
  let d1 := div (add (np_log (div S strike))
                     (mul (add r (mul lit_0_5 (pow sigma lit_2))) T))
                (mul sigma (np_sqrt T)) in
  let d2 := sub d1 (mul sigma (np_sqrt T)) in
  if String.eqb option_type "call" then
    sub (mul S (norm_cdf d1 lit_0_0 lit_1_0))
        (mul (mul strike (np_exp (mul (neg r) T))) (norm_cdf d2 lit_0_0 lit_1_0))
  else
    sub (mul (mul strike (np_exp (mul (neg r) T)))
             (norm_cdf (neg d2) lit_0_0 lit_1_0))
        (mul S (norm_cdf (neg d1) lit_0_0 lit_1_0)).

End Pricing.

End BlackScholes.

(* ===================================================================== *)
(** * monte_carlo_option (finance/monte-carlo-simulation.ipynb)           *)
(* ===================================================================== *)

Module MonteCarlo.

(** Computations over numpy's global random generator. *)
Definition State (S A : Type) : Type := S -> A * S.

Definition st_ret {S A} (a : A) : State S A := fun s => (a, s).
Definition st_bind {S A B} (m : State S A) (f : A -> State S B) : State S B :=
  fun s => let '(a, s') := m s in f a s'.

Section Simulation.

Variable num : Type.
Variables add sub mul pow : num -> num -> num.
Variable neg : num -> num.
Variables np_sqrt : num -> num.
Variable fmax : num -> num -> num.
Variable np_mean : list num -> num.
Variable np_exp : num -> num.
Variables lit_0_5 lit_2 lit_0 : num.

(** [np.exp], [np.maximum] and the scalar operators act on an array element
    by element.  The generator: [np.random.seed] replaces its state by one
    determined by the seed, [np.random.standard_normal(k)] draws [k] numbers
    from it. *)
Variable rng : Type.
Variable seed_state : Z -> rng.
Variable draw_standard_normal : nat -> rng -> list num * rng.

Definition np_random_seed (seed : Z) : State rng unit :=
  fun _ => (tt, seed_state seed).

Definition np_random_standard_normal (k : nat) : State rng (list num) :=
  draw_standard_normal k.

Definition monte_carlo_option (S K T r sigma : num) (num_simulations : nat)
    (option_type : string) : State rng num :=
  st_bind (np_random_seed 42) (fun _ =>
  st_bind (np_random_standard_normal num_simulations) (fun Z =>
    let drift := mul (sub r (mul lit_0_5 (pow sigma lit_2))) T in
    let S_T :=
      map (fun z => mul S (np_exp (add drift (mul (mul sigma (np_sqrt T)) z)))) Z in
    let option_payoff :=
      if String.eqb option_type "call"
      then map (fun s => fmax (sub s K) lit_0) S_T
      else map (fun s => fmax (sub K s) lit_0) S_T in
    st_ret (mul (np_exp (mul (neg r) T)) (np_mean option_payoff)))).

End Simulation.

End MonteCarlo.

(* ===================================================================== *)
(** * Markov-chain notebook (unnamed/part_001): numpy arrays              *)
(* ===================================================================== *)

Module Numpy.
Local Open Scope Qc_scope.

(** The ways the array code can fail.  [ZeroDivisor] stands for a division
    by zero: numpy then stores nan or inf, which are no rationals. *)
Inductive error : Type :=
| IndexError
| ValueError
| ZeroDivisor.

Abbreviation result := (Outcome.result error).

Abbreviation array1 := (list Qc).
Abbreviation array2 := (list (list Qc)).
Abbreviation array3 := (list (list (list Qc))).

(** [np.zeros((r, c))], [np.full((r, c), x)]. *)
Definition full2 (r c : nat) (x : Qc) : array2 := replicate r (replicate c x).

(** [a[i]] for an index [i >= 0]. *)
Definition index {A} (a : list A) (i : nat) : result A :=
  match a !! i with
  | Some x => Ok x
  | None => Err IndexError
  end.

(** [a[-1]]. *)
Definition index_last {A} (a : list A) : result A :=
  match last a with
  | Some x => Ok x
  | None => Err IndexError
  end.

(** [m[i, j]]. *)
Definition index2 (m : array2) (i j : nat) : result Qc :=
  row ← index m i; index row j.

(** [m[:, j]]. *)
Definition column (m : array2) (j : nat) : result array1 :=
  mapM_r (fun row => index row j) m.

(** [a[i] = x] for a scalar cell or a whole sub-array of the right shape. *)
Definition setitem {A} (a : list A) (i : nat) (x : A) : result (list A) :=
  if decide (i < length a)%nat then Ok (<[i := x]> a) else Err IndexError.

(** [m[i] = v] and [m[i, :] = v]: the row is replaced by [v], which must have
    its length or length one. *)
Definition setrow (m : array2) (i : nat) (v : array1) : result array2 :=
  row ← index m i;
  if decide (length v = length row) then setitem m i v
  else match v with
       | [x] => setitem m i (replicate (length row) x)
       | _ => Err ValueError
       end.

(** [m[i, j] = x]. *)
Definition setitem2 (m : array2) (i j : nat) (x : Qc) : result array2 :=
  row ← index m i; row' ← setitem row j x; setitem m i row'.

(** [t[i, j, :] = v]. *)
Definition setrow3 (t : array3) (i j : nat) (v : array1) : result array3 :=
  m ← index t i; m' ← setrow m j v; setitem t i m'.

(** [m[:, j] = v]: [v] has one entry per row of [m], or a single entry. *)
Fixpoint setcolumn_rows (m : array2) (j : nat) (v : array1) : result array2 :=
  match m, v with
  | [], _ => Ok []
  | row :: m', x :: v' =>
      row' ← setitem row j x; rest ← setcolumn_rows m' j v'; Ok (row' :: rest)
  | _ :: _, [] => Err ValueError
  end.

Definition setcolumn (m : array2) (j : nat) (v : array1) : result array2 :=
  if decide (length v = length m) then setcolumn_rows m j v
  else match v with
       | [x] => setcolumn_rows m j (replicate (length m) x)
       | _ => Err ValueError
       end.

(** [a * b] for two one-dimensional arrays: element by element, an array of
    length one being broadcast. *)
Definition vmul (a b : array1) : result array1 :=
  if decide (length a = length b) then Ok (zip_with Qcmult a b)
  else match a, b with
       | [x], _ => Ok (map (Qcmult x) b)
       | _, [y] => Ok (map (fun x => x * y) a)
       | _, _ => Err ValueError
       end.

(** [x * a] for a scalar [x]. *)
Definition smul (x : Qc) (a : array1) : array1 := map (Qcmult x) a.

(** [a / s] for a scalar [s]. *)
Definition vdiv (a : array1) (s : Qc) : result array1 :=
  if decide (s = 0) then Err ZeroDivisor else Ok (map (fun x => x / s) a).

(** [np.sum(a)]. *)
Definition np_sum (a : array1) : Qc := foldr Qcplus 0 a.

(** [np.sum(m, axis=1)]. *)
Definition sum_axis1 (m : array2) : array1 := map np_sum m.

(** [np.sum(m, axis=0)] for a matrix with [c] columns. *)
Definition sum_axis0 (c : nat) (m : array2) : array1 :=
  foldr (zip_with Qcplus) (replicate c 0) m.

(** [np.sum(t, axis=0)] for an array of [r] x [c] matrices. *)
Definition sum3_axis0 (r c : nat) (t : array3) : array2 :=
  foldr (zip_with (zip_with Qcplus)) (full2 r c 0) t.

(** [np.sum(t, axis=2)]. *)
Definition sum3_axis2 (t : array3) : array2 := map sum_axis1 t.

(** The number of columns of a matrix with at least one row. *)
Definition ncols (m : array2) : nat :=
  match m with
  | [] => 0%nat
  | row :: _ => length row
  end.

(** [np.dot(a, b)] for two one-dimensional arrays. *)
Definition dot (a b : array1) : result Qc :=
  if decide (length a = length b) then Ok (np_sum (zip_with Qcmult a b))
  else Err ValueError.

(** [np.dot(a, m)] for a one-dimensional [a] and a matrix [m]. *)
Definition dot_vm (a : array1) (m : array2) : result array1 :=
  if decide (length a = length m) then
    mapM_r (fun j => c ← column m j; dot a c) (seq 0 (ncols m))
  else Err ValueError.

(** [m / s[:, None]] and [m /= np.sum(m, axis=1, keepdims=True)]: every row
    is divided by its own divisor. *)
Fixpoint div_rows (m : array2) (s : array1) : result array2 :=
  match m, s with
  | [], _ => Ok []
  | row :: m', d :: s' =>
      row' ← vdiv row d; rest ← div_rows m' s'; Ok (row' :: rest)
  | _ :: _, [] => Err ValueError
  end.

(** [a[mask]] for a boolean mask with one entry per row. *)
Definition select_rows (a : array2) (mask : list bool) : result array2 :=
  if decide (length mask = length a)
  then Ok (map snd (filter (fun p => fst p = true) (zip mask a)))
  else Err IndexError.

(** Entries read as numbers, 0 outside the array (specification side). *)
Definition at1 (a : array1) (i : nat) : Qc := default 0 (a !! i).

Definition entry (m : array2) (i j : nat) : Qc :=
  match m !! i with
  | Some row => at1 row j
  | None => 0
  end.

(** The sum of [f i] over [0 <= i < n]. *)
Definition sum_n (n : nat) (f : nat -> Qc) : Qc := np_sum (map f (seq 0 n)).

(** The shape of a matrix and of an array of matrices. *)
Definition shape (r c : nat) (m : array2) : Prop :=
  length m = r /\ Forall (fun row => length row = c) m.

Definition shape3 (n r c : nat) (t : array3) : Prop :=
  length t = n /\ Forall (shape r c) t.

(** The sum of all entries of a matrix. *)
Definition total (m : array2) : Qc := np_sum (sum_axis1 m).

(** The sum of row [i] of a matrix, 0 outside of it. *)
Definition row_sum (m : array2) (i : nat) : Qc :=
  match m !! i with
  | Some row => np_sum row
  | None => 0
  end.

(** The only error a division can produce. *)
Definition zero_div (e : error) : Prop := e = ZeroDivisor.

End Numpy.

(* ===================================================================== *)
(** * estimate_transition_matrix (unnamed/part_001)                       *)
(* ===================================================================== *)

Module Transition.
Import Numpy.
Local Open Scope Qc_scope.

(** [matrix[current_state, next_state] += 1]. *)
Definition count_pair (matrix : array2) (p : nat * nat) : result array2 :=
  let '(current_state, next_state) := p in
  x ← index2 matrix current_state next_state;
  setitem2 matrix current_state next_state (x + 1).

Definition estimate_transition_matrix (states : list nat) (num_states : nat)
  : result array2 :=
  let matrix := full2 num_states num_states 0 in
  (* zip(states[:-1], states[1:]) *)
  matrix ← foldM count_pair (zip (removelast states) (tail states)) matrix;
  let row_sums := sum_axis1 matrix in
  div_rows matrix row_sums.

End Transition.

(* ===================================================================== *)
(** * HiddenMarkovModel (unnamed/part_001)                                *)
(* ===================================================================== *)

Module HMM.
Import Numpy.
Local Open Scope Qc_scope.

Record HiddenMarkovModel : Type := mkHMM {
  num_hidden_states : nat;
  num_observation_bins : nat;
  transition_probs : array2;
  emission_probs : array2;
  initial_probs : array1
}.

Definition Qc_of_nat (n : nat) : Qc := Q2Qc (inject_Z (Z.of_nat n)).

(** [__init__]: [1/num_hidden_states] and [1/num_observation_bins] raise
    ZeroDivisionError when the count is 0. *)
Definition init (num_hidden_states num_observation_bins : nat)
  : result HiddenMarkovModel :=
  if decide (num_hidden_states = 0%nat) then Err ZeroDivisor
  else if decide (num_observation_bins = 0%nat) then Err ZeroDivisor
  else Ok (mkHMM num_hidden_states num_observation_bins
             (full2 num_hidden_states num_hidden_states
                (1 / Qc_of_nat num_hidden_states))
             (full2 num_hidden_states num_observation_bins
                (1 / Qc_of_nat num_observation_bins))
             (replicate num_hidden_states (1 / Qc_of_nat num_hidden_states))).

(** [alpha[t, j] = np.sum(alpha[t-1] * self.transition_probs[:, j])
                   * self.emission_probs[j, observations[t]]]. *)
Definition forward_cell (self : HiddenMarkovModel) (observations : list nat)
    (t : nat) (alpha : array2) (j : nat) : result array2 :=
  prev ← index alpha (t - 1);
  a_j ← column (transition_probs self) j;
  p ← vmul prev a_j;
  o ← index observations t;
  b ← index2 (emission_probs self) j o;
  setitem2 alpha t j (np_sum p * b).

Definition forward_row (self : HiddenMarkovModel) (observations : list nat)
    (alpha : array2) (t : nat) : result array2 :=
  foldM (forward_cell self observations t)
        (seq 0 (num_hidden_states self)) alpha.

Definition forward (self : HiddenMarkovModel) (observations : list nat)
  : result array2 :=
  let T := length observations in
  let alpha := full2 T (num_hidden_states self) 0 in
  o ← index observations 0;
  b ← column (emission_probs self) o;
  row0 ← vmul (initial_probs self) b;
  alpha ← setrow alpha 0 row0;
  foldM (forward_row self observations) (seq 1 (T - 1)) alpha.

(** [beta[t, i] = np.sum(self.transition_probs[i, :]
       * self.emission_probs[:, observations[t+1]] * beta[t+1, :])]. *)
Definition backward_cell (self : HiddenMarkovModel) (observations : list nat)
    (t : nat) (beta : array2) (i : nat) : result array2 :=
  a_i ← index (transition_probs self) i;
  o ← index observations (t + 1);
  b ← column (emission_probs self) o;
  p ← vmul a_i b;
  next ← index beta (t + 1);
  q ← vmul p next;
  setitem2 beta t i (np_sum q).

Definition backward_row (self : HiddenMarkovModel) (observations : list nat)
    (beta : array2) (t : nat) : result array2 :=
  foldM (backward_cell self observations t)
        (seq 0 (num_hidden_states self)) beta.

Definition backward (self : HiddenMarkovModel) (observations : list nat)
  : result array2 :=
  let T := length observations in
  let beta := full2 T (num_hidden_states self) 0 in
  (* beta[-1] = np.ones(...) *)
  beta ← (if decide (T = 0%nat) then Err IndexError
          else setrow beta (T - 1) (replicate (num_hidden_states self) 1));
  (* for t in reversed(range(T-1)) *)
  foldM (backward_row self observations) (rev (seq 0 (T - 1))) beta.

(** [denom] of the Baum-Welch loop at time [t]. *)
Definition xi_denom (self : HiddenMarkovModel) (observations : list nat)
    (alpha beta : array2) (t : nat) : result Qc :=
  a_t ← index alpha t;
  aA ← dot_vm a_t (transition_probs self);
  o ← index observations (t + 1);
  b ← column (emission_probs self) o;
  aAb ← vmul aA b;
  next ← index beta (t + 1);
  dot aAb next.

(** [numer = alpha[t, i] * self.transition_probs[i, :]
       * self.emission_probs[:, observations[t+1]] * beta[t+1, :];
     xi[t, i, :] = numer / denom]. *)
Definition xi_cell (self : HiddenMarkovModel) (observations : list nat)
    (alpha beta : array2) (t : nat) (denom : Qc) (xi : array3) (i : nat)
  : result array3 :=
  a_ti ← index2 alpha t i;
  a_i ← index (transition_probs self) i;
  o ← index observations (t + 1);
  b ← column (emission_probs self) o;
  p ← vmul (smul a_ti a_i) b;
  next ← index beta (t + 1);
  numer ← vmul p next;
  q ← vdiv numer denom;
  setrow3 xi t i q.

Definition xi_row (self : HiddenMarkovModel) (observations : list nat)
    (alpha beta : array2) (xi : array3) (t : nat) : result array3 :=
  denom ← xi_denom self observations alpha beta t;
  foldM (xi_cell self observations alpha beta t denom)
        (seq 0 (num_hidden_states self)) xi.

(** [mask = observations == l;
     self.emission_probs[:, l] = np.sum(gamma[mask], axis=0)]. *)
Definition emission_column (self : HiddenMarkovModel) (observations : list nat)
    (gamma : array2) (emission : array2) (l : nat) : result array2 :=
  let mask := map (fun o => Nat.eqb o l) observations in
  selected ← select_rows gamma mask;
  setcolumn emission l (sum_axis0 (ncols gamma) selected).

(** One pass of the body of the training loop. *)
Definition baum_welch_step (self : HiddenMarkovModel) (observations : list nat)
  : result HiddenMarkovModel :=
  let T := length observations in
  let N := num_hidden_states self in
  alpha ← forward self observations;
  beta ← backward self observations;
  let xi := replicate (T - 1) (full2 N N 0) in
  xi ← foldM (xi_row self observations alpha beta) (seq 0 (T - 1)) xi;
  let gamma := sum3_axis2 xi in
  initial ← index gamma 0;
  let transition := sum3_axis0 N N xi in
  transition ← div_rows transition (sum_axis1 transition);
  last_xi ← index_last xi;
  let gamma := gamma ++ [sum_axis0 N last_xi] in
  emission ← foldM (emission_column self observations gamma)
                   (seq 0 (num_observation_bins self)) (emission_probs self);
  emission ← div_rows emission (sum_axis1 emission);
  Ok (mkHMM N (num_observation_bins self) transition emission initial).

(** [baum_welch_train(observations, n_iter)]: the model after the loop. *)
Definition baum_welch_train (self : HiddenMarkovModel) (observations : list nat)
    (n_iter : nat) : result HiddenMarkovModel :=
  foldM (fun self _ => baum_welch_step self observations) (seq 0 n_iter) self.

(** ** The specification side *)

(** The arrays of a model have the shapes [__init__] gives them. *)
Definition well_shaped (self : HiddenMarkovModel) : Prop :=
  shape (num_hidden_states self) (num_hidden_states self) (transition_probs self) /\
  shape (num_hidden_states self) (num_observation_bins self) (emission_probs self) /\
  length (initial_probs self) = num_hidden_states self.

(** The probability invariants: every row of the two matrices and the
    initial distribution sum to 1. *)
Definition stochastic (self : HiddenMarkovModel) : Prop :=
  Forall (fun row => np_sum row = 1) (transition_probs self) /\
  Forall (fun row => np_sum row = 1) (emission_probs self) /\
  np_sum (initial_probs self) = 1.

(** Entries of the model, 0 outside the arrays. *)
Definition A (self : HiddenMarkovModel) (i j : nat) : Qc :=
  entry (transition_probs self) i j.
Definition B (self : HiddenMarkovModel) (j o : nat) : Qc :=
  entry (emission_probs self) j o.
Definition pi (self : HiddenMarkovModel) (j : nat) : Qc :=
  at1 (initial_probs self) j.

(** The textbook forward variables; [obs t] is the observation at time [t]. *)
Fixpoint forward_var (self : HiddenMarkovModel) (obs : nat -> nat)
    (t j : nat) : Qc :=
  match t with
  | O => pi self j * B self j (obs 0%nat)
  | S t' =>
      sum_n (num_hidden_states self)
            (fun i => forward_var self obs t' i * A self i j)
      * B self j (obs t)
  end.

(** The rows of [alpha] below [t] hold the forward variables. *)
Definition filled_below (self : HiddenMarkovModel) (observations : list nat)
    (t : nat) (alpha : array2) : Prop :=
  shape (length observations) (num_hidden_states self) alpha /\
  forall s j, (s < t)%nat -> (j < num_hidden_states self)%nat ->
    entry alpha s j
    = forward_var self (fun t => nth t observations 0%nat) s j.

(** The probability of a run through hidden states together with the
    observations made on the way; the run is listed backwards, its state at
    time [t] first and its state at time 0 last. *)
Fixpoint run_prob (self : HiddenMarkovModel) (obs : nat -> nat)
    (t : nat) (run : list nat) : Qc :=
  match t, run with
  | O, [j] => pi self j * B self j (obs 0%nat)
  | S t', j :: ((i :: _) as run') =>
      run_prob self obs t' run' * A self i j * B self j (obs t)
  | _, _ => 0
  end.

(** All lists of [t] hidden states. *)
Fixpoint runs (n t : nat) : list (list nat) :=
  match t with
  | O => [[]]
  | S t' => i ← seq 0 n; map (cons i) (runs n t')
  end.

(** The joint probability of the observations up to time [t] and of hidden
    state [j] at time [t]: the sum over the runs that end in [j]. *)
Definition joint_prob (self : HiddenMarkovModel) (obs : nat -> nat)
    (t j : nat) : Qc :=
  np_sum (map (fun run => run_prob self obs t (j :: run))
              (runs (num_hidden_states self) t)).

(** A model with two hidden states and two observation bins. *)
Definition example_model : HiddenMarkovModel :=
  mkHMM 2 2
    [[Q2Qc (1 # 2); Q2Qc (1 # 2)]; [Q2Qc (1 # 3); Q2Qc (2 # 3)]]
    [[Q2Qc (1 # 4); Q2Qc (3 # 4)]; [Q2Qc (1 # 2); Q2Qc (1 # 2)]]
    [Q2Qc (1 # 3); Q2Qc (2 # 3)].

End HMM.

(* ===================================================================== *)
(** * Transition counts of a state sequence                               *)
(* ===================================================================== *)

Module Counts.

(** The consecutive pairs [zip(states[:-1], states[1:])]. *)
Definition pairs (states : list nat) : list (nat * nat) :=
  zip (removelast states) (tail states).

(** How many times state [j] follows state [i] in the sequence. *)
Definition transitions (i j : nat) (states : list nat) : nat :=
  length (filter (fun p => p = (i, j)) (pairs states)).

(** How many transitions leave state [i]. *)
Definition departures (i : nat) (states : list nat) : nat :=
  length (filter (fun p => p.1 = i) (pairs states)).

End Counts.

(* ===================================================================== *)
(** * sliding_transition_matrices (unnamed/part_001)                      *)
(* ===================================================================== *)

Module Sliding.
Import Numpy Transition.

(** One element of the returned list.  Where a row sum is zero numpy stores
    nan in the matrix and the loop goes on: such a matrix is appended like
    any other.  An exception of the indexing ends the call. *)
Inductive window_matrix : Type :=
| Matrix (m : array2)
| NanRows.

Definition appended (r : result array2) : result window_matrix :=
  match r with
  | Ok matrix => Ok (Matrix matrix)
  | Err ZeroDivisor => Ok NanRows
  | Err e => Err e
  end.

(** [states[start:start+window_size]]. *)
Definition window (states : list nat) (start window_size : nat) : list nat :=
  take window_size (drop start states).

Definition sliding_body (states : list nat) (num_states window_size : nat)
    (matrices : list window_matrix) (start : nat)
  : result (list window_matrix) :=
  let window := window states start window_size in
  matrix ← appended (estimate_transition_matrix window num_states);
  Ok (matrices ++ [matrix]).

Definition sliding_transition_matrices (states : list nat)
    (num_states window_size : nat) : result (list window_matrix) :=
  foldM (sliding_body states num_states window_size)
        (seq 0 (length states - window_size)) [].

End Sliding.

(* ===================================================================== *)
(** * simulate_markov_chain (unnamed/part_001)                            *)
(* ===================================================================== *)

Module Simulate.
Import Numpy.
Local Open Scope Qc_scope.

Section Chain.

(** numpy's generator and [np.random.choice(a=a, p=p)], which draws an index
    from the generator or raises. *)
Variable rng : Type.
Variable np_random_choice : nat -> array1 -> rng -> result (nat * rng).

(** One pass of the loop body, on (states, current_state, generator). *)
Definition simulate_step (transition_matrix : array2)
    (st : list nat * nat * rng) (_ : nat) : result (list nat * nat * rng) :=
  let '(states, current_state, g) := st in
  p ← index transition_matrix current_state;
  drawn ← np_random_choice (length transition_matrix) p g;
  let '(next_state, g') := drawn in
  Ok (states ++ [next_state], next_state, g').

Definition simulate_markov_chain (transition_matrix : array2)
    (start_state n_steps : nat) (g : rng) : result (list nat * rng) :=
  st ← foldM (simulate_step transition_matrix) (seq 0 n_steps)
             ([], start_state, g);
  let '(states, _, g') := st in
  Ok (states, g').

End Chain.

(** A generator whose uniform samples are all 0: the inverse of the
    cumulative distribution then picks the first index of nonzero
    probability.  Its state counts the draws. *)
Fixpoint first_nonzero (p : array1) : option nat :=
  match p with
  | [] => None
  | x :: p' => if decide (x = 0) then S <$> first_nonzero p' else Some 0%nat
  end.

Definition choice_at_zero (a : nat) (p : array1) (draws : nat)
  : result (nat * nat) :=
  if decide (length p = a) then
    match first_nonzero p with
    | Some k => Ok (k, S draws)
    | None => Err ValueError
    end
  else Err ValueError.

End Simulate.

(* ===================================================================== *)
(** * MarkovTradingStrategy (unnamed/part_001)                            *)
(* ===================================================================== *)

Module Strategy.
Import Numpy HMM.
Local Open Scope Qc_scope.

(** The exceptions of the arrays, and the KeyError of a label that a pandas
    Series does not have. *)
Inductive error : Type :=
| Raised (e : Numpy.error)
| KeyError.

Definition raised {A} (r : Numpy.result A) : Outcome.result error A :=
  match r with
  | Ok a => Ok a
  | Err e => Err (Raised e)
  end.

(** [np.argmax(a)]: the first index of the largest entry; an empty array
    raises ValueError. *)
Fixpoint argmax_from (best : nat) (best_value : Qc) (i : nat) (a : array1)
  : nat :=
  match a with
  | [] => best
  | x :: a' =>
      if decide (best_value < x) then argmax_from i x (S i) a'
      else argmax_from best best_value (S i) a'
  end.

Definition np_argmax (a : array1) : Numpy.result nat :=
  match a with
  | [] => Err ValueError
  | x :: a' => Ok (argmax_from 0 x 1 a')
  end.

(** [state_mean_returns] is the Series of [groupby('State').mean()]: the mean
    return of each state label. *)
Record MarkovTradingStrategy : Type := mkStrategy {
  transition_matrix : array2;
  hmm_model : HiddenMarkovModel;
  state_mean_returns : gmap nat Qc
}.

Definition predict_next_state (self : MarkovTradingStrategy)
    (current_state : nat) : Outcome.result error nat :=
  raised (next_probs ← index (transition_matrix self) current_state;
          np_argmax next_probs).

Definition infer_current_hidden_state (self : MarkovTradingStrategy)
    (observations : list nat) : Outcome.result error nat :=
  raised (alpha ← forward (hmm_model self) observations;
          last_row ← index_last alpha;
          np_argmax last_row).

Definition decide_action (self : MarkovTradingStrategy) (predicted_state : nat)
  : Outcome.result error string :=
  match state_mean_returns self !! predicted_state with
  | None => Err KeyError
  | Some mean_return =>
      if decide (0 < mean_return) then Ok "BUY"%string
      else if decide (mean_return < 0) then Ok "SELL"%string
      else Ok "HOLD"%string
  end.

(** The dictionary [live_forecast] returns. *)
Record forecast : Type := mkForecast {
  inferred_hidden_state : nat;
  predicted_next_state : nat;
  action : string
}.

Definition live_forecast (self : MarkovTradingStrategy) (current_state : nat)
    (observations : list nat) : Outcome.result error forecast :=
  inferred_hidden ← infer_current_hidden_state self observations;
  predicted_state ← predict_next_state self current_state;
  action ← decide_action self predicted_state;
  Ok (mkForecast inferred_hidden predicted_state action).

End Strategy.

(* ===================================================================== *)
(** * numpy functions of the option pricers over the rationals            *)
(* ===================================================================== *)

Module NumpyQc.
Import Numpy HMM.
Local Open Scope Qc_scope.

(** [np.maximum(x, y)] on one element. *)
Definition np_maximum (x y : Qc) : Qc := if decide (x < y) then y else x.

(** [np.mean(a)] of a non-empty array. *)
Definition np_mean (a : list Qc) : Qc := np_sum a / Qc_of_nat (length a).

End NumpyQc.

(* ===================================================================== *)
(** * The cells orangesRotting reads                                      *)
(* ===================================================================== *)

Module OrangeCells.
Import Oranges.

(** The positions the gathering loops visit, in their order: the rows of the
    grid, and in each row the columns below the length of the first row. *)
Definition scanned (g : grid) : list (nat * nat) :=
  r ← seq 0 (length g); c ← seq 0 (columns g); [(r, c)].

(** The visited positions whose cell is [v]. *)
Definition holding (v : Z) (g : grid) : list (nat * nat) :=
  filter (fun p => cell g p.1 p.2 = Some v) (scanned g).

End OrangeCells.

(* ===================================================================== *)
(** * Exceptions of the array routines                                    *)
(* ===================================================================== *)

Module Raises.
Import Numpy.

(** The error of an index outside an array. *)
Definition index_error (e : Numpy.error) : Prop := e = IndexError.

End Raises.

(* ===================================================================== *)
(** * Models whose parameters are probabilities                           *)
(* ===================================================================== *)

Module Probability.
Import Numpy HMM.
Local Open Scope Qc_scope.

(** No entry of the model is negative. *)
Definition nonnegative (self : HiddenMarkovModel) : Prop :=
  Forall (Forall (fun x => 0 <= x)) (transition_probs self) /\
  Forall (Forall (fun x => 0 <= x)) (emission_probs self) /\
  Forall (fun x => 0 <= x) (initial_probs self).

End Probability.

(* ===================================================================== *)
(** * The same routines on binary64 numbers                               *)
(* ===================================================================== *)

(** Python's [float] and numpy's [float64] are IEEE 754 binary64 numbers, the
    kernel's primitive [float]s.  The modules below run the float routines on
    them, operation by operation: what the rational reading above cannot
    express (rounding, underflow to zero, infinities and nan) is computed
    here. *)

Module Numpy64.
Import Numpy PrimFloat.
Local Open Scope float_scope.

Abbreviation farray1 := (list float).
Abbreviation farray2 := (list (list float)).
Abbreviation farray3 := (list (list (list float))).

(** [float(n)] for a count [n]. *)
Definition of_nat (n : nat) : float := of_uint63 (Uint63.of_Z (Z.of_nat n)).

Definition full2 (r c : nat) (x : float) : farray2 := replicate r (replicate c x).

(** [m[i, j]] and [m[:, j]]. *)
Definition index2 (m : farray2) (i j : nat) : result float :=
  row ← index m i; index row j.

Definition column (m : farray2) (j : nat) : result farray1 :=
  mapM_r (fun row => index row j) m.

(** [m[i] = v], [m[i, j] = x], [t[i, j, :] = v] and [m[:, j] = v], with the
    broadcasting of a one-element [v]. *)
Definition setrow (m : farray2) (i : nat) (v : farray1) : result farray2 :=
  row ← index m i;
  if decide (length v = length row) then setitem m i v
  else match v with
       | [x] => setitem m i (replicate (length row) x)
       | _ => Err ValueError
       end.

Definition setitem2 (m : farray2) (i j : nat) (x : float) : result farray2 :=
  row ← index m i; row' ← setitem row j x; setitem m i row'.

Definition setrow3 (t : farray3) (i j : nat) (v : farray1) : result farray3 :=
  m ← index t i; m' ← setrow m j v; setitem t i m'.

Fixpoint setcolumn_rows (m : farray2) (j : nat) (v : farray1) : result farray2 :=
  match m, v with
  | [], _ => Ok []
  | row :: m', x :: v' =>
      row' ← setitem row j x; rest ← setcolumn_rows m' j v'; Ok (row' :: rest)
  | _ :: _, [] => Err ValueError
  end.

Definition setcolumn (m : farray2) (j : nat) (v : farray1) : result farray2 :=
  if decide (length v = length m) then setcolumn_rows m j v
  else match v with
       | [x] => setcolumn_rows m j (replicate (length m) x)
       | _ => Err ValueError
       end.

(** [a * b] element by element, [x * a] and [a / s] for a scalar: a division
    by zero stores inf or nan and goes on. *)
Definition vmul (a b : farray1) : result farray1 :=
  if decide (length a = length b) then Ok (zip_with mul a b)
  else match a, b with
       | [x], _ => Ok (map (mul x) b)
       | _, [y] => Ok (map (fun x => x * y) a)
       | _, _ => Err ValueError
       end.

Definition smul (x : float) (a : farray1) : farray1 := map (mul x) a.

Definition vdiv (a : farray1) (s : float) : farray1 := map (fun x => x / s) a.

(** [np.sum(a)] of a one-dimensional array, in numpy's order: in index order
    for fewer than eight elements; up to 128 elements with eight running
    sums that are combined in pairs, the elements left over added last;
    beyond, the array is split in two halves summed separately. *)
Definition sum_from (start : float) (a : farray1) : float :=
  fold_left add a start.

Fixpoint sum_blocks (r : farray1) (a : farray1) (blocks : nat) : farray1 * farray1 :=
  match blocks with
  | O => (r, a)
  | S blocks' => sum_blocks (zip_with add r (take 8 a)) (drop 8 a) blocks'
  end.

Definition sum_unrolled (a : farray1) : float :=
  let '(r, rest) := sum_blocks (take 8 a) (drop 8 a) (length a / 8 - 1) in
  match r with
  | [r0; r1; r2; r3; r4; r5; r6; r7] =>
      sum_from (((r0 + r1) + (r2 + r3)) + ((r4 + r5) + (r6 + r7))) rest
  | _ => sum_from 0 a
  end.

Fixpoint pairwise_sum (depth : nat) (a : farray1) : float :=
  let n := length a in
  if decide (n < 8)%nat then sum_from 0 a
  else if decide (n <= 128)%nat then sum_unrolled a
  else match depth with
       | O => sum_unrolled a
       | S depth' =>
           let n2 := (n / 2 - (n / 2) mod 8)%nat in
           pairwise_sum depth' (take n2 a) + pairwise_sum depth' (drop n2 a)
       end.

Definition np_sum (a : farray1) : float := 0 + pairwise_sum (length a) a.

(** [np.sum(m, axis=1)]. *)
Definition sum_axis1 (m : farray2) : farray1 := map np_sum m.

(** [np.sum(m, axis=0)], [np.sum(t, axis=0)]: the slices are added one after
    the other, element by element. *)
Definition sum_axis0 (c : nat) (m : farray2) : farray1 :=
  fold_left (zip_with add) m (replicate c 0).

Definition sum3_axis0 (r c : nat) (t : farray3) : farray2 :=
  fold_left (zip_with (zip_with add)) t (full2 r c 0).

(** [np.sum(t, axis=2)]. *)
Definition sum3_axis2 (t : farray3) : farray2 := map sum_axis1 t.

Definition ncols (m : farray2) : nat :=
  match m with
  | [] => 0%nat
  | row :: _ => length row
  end.

(** [np.dot(a, b)] and [np.dot(a, m)]: the products are added in index
    order. *)
Definition dot (a b : farray1) : result float :=
  if decide (length a = length b) then Ok (sum_from 0 (zip_with mul a b))
  else Err ValueError.

Definition dot_vm (a : farray1) (m : farray2) : result farray1 :=
  if decide (length a = length m) then
    mapM_r (fun j => c ← column m j; dot a c) (seq 0 (ncols m))
  else Err ValueError.

(** [m /= np.sum(m, axis=1, keepdims=True)]. *)
Fixpoint div_rows (m : farray2) (s : farray1) : result farray2 :=
  match m, s with
  | [], _ => Ok []
  | row :: m', d :: s' =>
      rest ← div_rows m' s'; Ok (vdiv row d :: rest)
  | _ :: _, [] => Err ValueError
  end.

(** [a[mask]]. *)
Definition select_rows (a : farray2) (mask : list bool) : result farray2 :=
  if decide (length mask = length a)
  then Ok (map snd (filter (fun p => fst p = true) (zip mask a)))
  else Err IndexError.

End Numpy64.

Module HMM64.
Import Numpy Numpy64 PrimFloat.
Local Open Scope float_scope.

Record HiddenMarkovModel : Type := mkHMM {
  num_hidden_states : nat;
  num_observation_bins : nat;
  transition_probs : farray2;
  emission_probs : farray2;
  initial_probs : farray1
}.

(** [__init__]. *)
Definition init (num_hidden_states num_observation_bins : nat)
  : result HiddenMarkovModel :=
  if decide (num_hidden_states = 0%nat) then Err ZeroDivisor
  else if decide (num_observation_bins = 0%nat) then Err ZeroDivisor
  else Ok (mkHMM num_hidden_states num_observation_bins
             (full2 num_hidden_states num_hidden_states
                (1 / of_nat num_hidden_states))
             (full2 num_hidden_states num_observation_bins
                (1 / of_nat num_observation_bins))
             (replicate num_hidden_states (1 / of_nat num_hidden_states))).

Definition forward_cell (self : HiddenMarkovModel) (observations : list nat)
    (t : nat) (alpha : farray2) (j : nat) : result farray2 :=
  prev ← index alpha (t - 1);
  a_j ← column (transition_probs self) j;
  p ← vmul prev a_j;
  o ← index observations t;
  b ← index2 (emission_probs self) j o;
  setitem2 alpha t j (np_sum p * b).

Definition forward_row (self : HiddenMarkovModel) (observations : list nat)
    (alpha : farray2) (t : nat) : result farray2 :=
  foldM (forward_cell self observations t)
        (seq 0 (num_hidden_states self)) alpha.

Definition forward (self : HiddenMarkovModel) (observations : list nat)
  : result farray2 :=
  let T := length observations in
  let alpha := full2 T (num_hidden_states self) 0 in
  o ← index observations 0;
  b ← column (emission_probs self) o;
  row0 ← vmul (initial_probs self) b;
  alpha ← setrow alpha 0 row0;
  foldM (forward_row self observations) (seq 1 (T - 1)) alpha.

Definition backward_cell (self : HiddenMarkovModel) (observations : list nat)
    (t : nat) (beta : farray2) (i : nat) : result farray2 :=
  a_i ← index (transition_probs self) i;
  o ← index observations (t + 1);
  b ← column (emission_probs self) o;
  p ← vmul a_i b;
  next ← index beta (t + 1);
  q ← vmul p next;
  setitem2 beta t i (np_sum q).

Definition backward_row (self : HiddenMarkovModel) (observations : list nat)
    (beta : farray2) (t : nat) : result farray2 :=
  foldM (backward_cell self observations t)
        (seq 0 (num_hidden_states self)) beta.

Definition backward (self : HiddenMarkovModel) (observations : list nat)
  : result farray2 :=
  let T := length observations in
  let beta := full2 T (num_hidden_states self) 0 in
  beta ← (if decide (T = 0%nat) then Err IndexError
          else setrow beta (T - 1) (replicate (num_hidden_states self) 1));
  foldM (backward_row self observations) (rev (seq 0 (T - 1))) beta.

Definition xi_denom (self : HiddenMarkovModel) (observations : list nat)
    (alpha beta : farray2) (t : nat) : result float :=
  a_t ← index alpha t;
  aA ← dot_vm a_t (transition_probs self);
  o ← index observations (t + 1);
  b ← column (emission_probs self) o;
  aAb ← vmul aA b;
  next ← index beta (t + 1);
  dot aAb next.

Definition xi_cell (self : HiddenMarkovModel) (observations : list nat)
    (alpha beta : farray2) (t : nat) (denom : float) (xi : farray3) (i : nat)
  : result farray3 :=
  a_ti ← index2 alpha t i;
  a_i ← index (transition_probs self) i;
  o ← index observations (t + 1);
  b ← column (emission_probs self) o;
  p ← vmul (smul a_ti a_i) b;
  next ← index beta (t + 1);
  numer ← vmul p next;
  setrow3 xi t i (vdiv numer denom).

Definition xi_row (self : HiddenMarkovModel) (observations : list nat)
    (alpha beta : farray2) (xi : farray3) (t : nat) : result farray3 :=
  denom ← xi_denom self observations alpha beta t;
  foldM (xi_cell self observations alpha beta t denom)
        (seq 0 (num_hidden_states self)) xi.

Definition emission_column (self : HiddenMarkovModel) (observations : list nat)
    (gamma : farray2) (emission : farray2) (l : nat) : result farray2 :=
  let mask := map (fun o => Nat.eqb o l) observations in
  selected ← select_rows gamma mask;
  setcolumn emission l (sum_axis0 (ncols gamma) selected).

(** One pass of the body of the training loop, with the divisors it divides
    by: the denominators [denom], the row sums of the transition counts and
    the row sums of the emission counts. *)
Definition baum_welch_step_divisors (self : HiddenMarkovModel)
    (observations : list nat) : result (HiddenMarkovModel * farray1) :=
  let T := length observations in
  let N := num_hidden_states self in
  alpha ← forward self observations;
  beta ← backward self observations;
  denoms ← mapM_r (xi_denom self observations alpha beta) (seq 0 (T - 1));
  let xi := replicate (T - 1) (full2 N N 0) in
  xi ← foldM (xi_row self observations alpha beta) (seq 0 (T - 1)) xi;
  let gamma := sum3_axis2 xi in
  initial ← index gamma 0;
  let transition := sum3_axis0 N N xi in
  let transition_sums := sum_axis1 transition in
  transition ← div_rows transition transition_sums;
  last_xi ← index_last xi;
  let gamma := gamma ++ [sum_axis0 N last_xi] in
  emission ← foldM (emission_column self observations gamma)
                   (seq 0 (num_observation_bins self)) (emission_probs self);
  let emission_sums := sum_axis1 emission in
  emission ← div_rows emission emission_sums;
  Ok (mkHMM N (num_observation_bins self) transition emission initial,
      denoms ++ transition_sums ++ emission_sums).

Definition baum_welch_step (self : HiddenMarkovModel) (observations : list nat)
  : result HiddenMarkovModel :=
  r ← baum_welch_step_divisors self observations; Ok (fst r).

Definition baum_welch_train (self : HiddenMarkovModel) (observations : list nat)
    (n_iter : nat) : result HiddenMarkovModel :=
  foldM (fun self _ => baum_welch_step self observations) (seq 0 n_iter) self.

End HMM64.

Module Risk64.
Import PrimFloat.
Local Open Scope float_scope.
#[local] Set Warnings "-inexact-float".

Record RiskManager : Type := mkRiskManager {
  max_position : float;
  vol_target : float;
  stop_loss : float
}.

Definition default_manager : RiskManager := mkRiskManager 1 0.02 (-0.05).

(** [x / y] on Python floats; [None] is the ZeroDivisionError of a zero
    divisor. *)
Definition py_div (x y : float) : option float :=
  if y =? 0 then None else Some (x / y).

(** [min(a, b)]: the first argument unless the second is smaller. *)
Definition py_min (a b : float) : float := if b <? a then b else a.

Definition size_position (self : RiskManager) (realized_vol : float)
  : option float :=
  q ← py_div (vol_target self) (realized_vol + 1e-8);
  Some (py_min q (max_position self)).

End Risk64.

(* ===================================================================== *)
(** * JavaScript numbers as binary64 numbers                              *)
(* ===================================================================== *)

Module Number64.
Import MinTime PrimFloat.
Local Open Scope float_scope.

(** The binary64 number of an integer below 2^63 in absolute value. *)
Definition of_Z (z : Z) : float :=
  if (z <? 0)%Z then - of_uint63 (Uint63.of_Z (- z))
  else of_uint63 (Uint63.of_Z z).

Definition of_number (x : number) : float :=
  match x with
  | Num z => of_Z z
  | PInf => infinity
  | NInf => neg_infinity
  | NaN => nan
  end.

(** [Math.max(x, y)] on numbers that are not nan. *)
Definition Math_max (x y : float) : float := if x <? y then y else x.

(** The loop of minTimeToVisitAllPoints on binary64 numbers. *)
Definition loop_body (points : list (float * float)) (totalTime : option float)
    (i : nat) : option float :=
  match totalTime, points !! (i - 1)%nat, points !! i with
  | Some acc, Some (x1, y1), Some (x2, y2) =>
      let dx := abs (x2 - x1) in
      let dy := abs (y2 - y1) in
      Some (acc + Math_max dx dy)
  | _, _, _ => None
  end.

Definition minTimeToVisitAllPoints (points : list (float * float))
  : option float :=
  fold_left (loop_body points) (seq 1 (length points - 1)) (Some 0).

End Number64.

(* ===================================================================== *)
(** * The divisors of the training loop                                   *)
(* ===================================================================== *)

Module Divisors.
Import Numpy HMM.
Local Open Scope Qc_scope.

(** The numbers one pass of the training loop divides by, in the order of
    the pass: the denominators [denom] of the times 0 .. T-2, the row sums
    of the transition counts, the row sums of the emission counts. *)
Definition step_divisors (self : HiddenMarkovModel) (observations : list nat)
  : result (list Qc) :=
  let T := length observations in
  let N := num_hidden_states self in
  alpha ← forward self observations;
  beta ← backward self observations;
  denoms ← mapM_r (xi_denom self observations alpha beta) (seq 0 (T - 1));
  let xi := replicate (T - 1) (full2 N N 0) in
  xi ← foldM (xi_row self observations alpha beta) (seq 0 (T - 1)) xi;
  let gamma := sum3_axis2 xi in
  let transition := sum3_axis0 N N xi in
  last_xi ← index_last xi;
  let gamma := gamma ++ [sum_axis0 N last_xi] in
  emission ← foldM (emission_column self observations gamma)
                   (seq 0 (num_observation_bins self)) (emission_probs self);
  Ok (denoms ++ sum_axis1 transition ++ sum_axis1 emission).

(** A bound far above the smallest binary64 numbers: a divisor of at least
    2^-500 is not zero and does not underflow, and neither do the numerators
    that make it up. *)
Definition smallest : Qc := Q2Qc (1 # 2 ^ 500).

(** Every divisor of each of the first [n_iter] passes is at least
    [smallest]. *)
Definition normal_range (self : HiddenMarkovModel) (observations : list nat)
    (n_iter : nat) : Prop :=
  forall k self_k,
    (k < n_iter)%nat ->
    baum_welch_train self observations k = Ok self_k ->
    exists divisors,
      step_divisors self_k observations = Ok divisors /\
      Forall (fun d => smallest <= d) divisors.

End Divisors.

(* ===================================================================== *)
(** * The range of binary64 in the rational reading                       *)
(* ===================================================================== *)

Module Range64.
Local Open Scope Qc_scope.

(** The smallest positive normal binary64 number, 2^-1022: a quotient of at
    least this size does not underflow to zero. *)
Definition smallest_normal : Qc := Q2Qc (1 # 2 ^ 1022).

End Range64.

(* ===================================================================== *)
(** * Rational arithmetic with an undefined result                        *)
(* ===================================================================== *)

Module Partial.
Local Open Scope Qc_scope.

(** A number, or [None] where the rational reading stops: after a division
    by zero (Python raises ZeroDivisionError when it divides one of its own
    numbers by zero, numpy goes on with inf or nan), a logarithm of a number
    that is not positive or a square root of a negative number (numpy goes
    on with nan or -inf).  Every operation passes [None] on. *)
Definition lift1 (f : Qc -> Qc) (x : option Qc) : option Qc := f <$> x.

Definition lift2 (f : Qc -> Qc -> Qc) (x y : option Qc) : option Qc :=
  match x, y with
  | Some a, Some b => Some (f a b)
  | _, _ => None
  end.

Definition lift3 (f : Qc -> Qc -> Qc -> Qc) (x y z : option Qc) : option Qc :=
  match x, y, z with
  | Some a, Some b, Some c => Some (f a b c)
  | _, _, _ => None
  end.

(** [x / y]. *)
Definition div (x y : option Qc) : option Qc :=
  match x, y with
  | Some a, Some b => if decide (b = 0) then None else Some (a / b)
  | _, _ => None
  end.

(** [np.log(x)] for a logarithm [f], and [np.sqrt(x)] for a root [f]. *)
Definition on_positive (f : Qc -> Qc) (x : option Qc) : option Qc :=
  match x with
  | Some a => if decide (0 < a) then Some (f a) else None
  | None => None
  end.

Definition on_nonnegative (f : Qc -> Qc) (x : option Qc) : option Qc :=
  match x with
  | Some a => if decide (0 <= a) then Some (f a) else None
  | None => None
  end.

End Partial.

(* ===================================================================== *)
(** * Properties                                                          *)
(* ===================================================================== *)

Section MinTimeProofs.
Import MinTime.

Lemma cheb_nonneg p q : 0 <= cheb p q.
Proof. unfold cheb. lia. Qed.

Lemma cheb_triangle p q r : cheb p r <= cheb p q + cheb q r.
Proof. unfold cheb. destruct p, q, r; simpl. lia. Qed.

Lemma cheb_zero p q : cheb p q = 0 -> p = q.
Proof.
  unfold cheb. destruct p as [a b], q as [c d]; simpl. intros H.
  f_equal; lia.
Qed.

Lemma path_time_nonneg ps : 0 <= path_time ps.
Proof.
  induction ps as [|p [|q ps] IH]; simpl in *; try lia.
  pose proof (cheb_nonneg p q). lia.
Qed.

(** Within the safe integers the arithmetic is exact. *)
Lemma js_number_exact z : Z.abs z <= 2 ^ 53 -> js_number z = Num z.
Proof.
  intros Hz.
  assert (Hround : round_even z = z).
  { unfold round_even. destruct (Z.ltb_spec (Z.abs z) (2 ^ 53)) as [_|Hge];
      [reflexivity|].
    assert (z = 2 ^ 53 \/ z = - 2 ^ 53) as [-> | ->] by lia;
      vm_compute; reflexivity. }
  unfold js_number. rewrite Hround.
  assert (Hlt : 2 ^ 53 < 2 ^ 1024) by (vm_compute; reflexivity).
  destruct (Z.leb_spec (2 ^ 1024) (Z.abs z)) as [Hbig|_]; [lia|reflexivity].
Qed.

Lemma cheb_le_path_time p q rest : cheb p q <= path_time (p :: q :: rest).
Proof.
  change (path_time (p :: q :: rest)) with (cheb p q + path_time (q :: rest)).
  pose proof (path_time_nonneg (q :: rest)). lia.
Qed.

(** The index loop, started in the middle of the array. *)
Lemma loop_from rest : forall pre p acc,
  0 <= acc -> acc + path_time (p :: rest) <= 2 ^ 53 ->
  fold_left (loop_body (pre ++ p :: rest))
            (seq (S (length pre)) (length rest)) (Some (Num acc))
  = Some (Num (acc + path_time (p :: rest))).
Proof.
  induction rest as [|q rest IH]; intros pre p acc Hacc Hsafe.
  - simpl. do 2 f_equal. lia.
  - cbn [length seq fold_left].
    assert (Hp : (pre ++ p :: q :: rest) !! length pre = Some p)
      by (rewrite lookup_app_r, Nat.sub_diag by lia; reflexivity).
    assert (Hq : (pre ++ p :: q :: rest) !! S (length pre) = Some q).
    { rewrite lookup_app_r by lia.
      replace (S (length pre) - length pre)%nat with 1%nat by lia.
      reflexivity. }
    unfold loop_body at 2.
    replace (S (length pre) - 1)%nat with (length pre) by lia.
    rewrite Hp, Hq. destruct p as [x1 y1], q as [x2 y2].
    pose proof (cheb_nonneg (x1, y1) (x2, y2)) as Hc0.
    pose proof (path_time_nonneg ((x2, y2) :: rest)) as Hr0.
    change (path_time ((x1, y1) :: (x2, y2) :: rest))
      with (cheb (x1, y1) (x2, y2) + path_time ((x2, y2) :: rest)) in Hsafe |- *.
    assert (Hdx : Z.abs (x2 - x1) <= 2 ^ 53) by (unfold cheb in *; simpl in *; lia).
    assert (Hdy : Z.abs (y2 - y1) <= 2 ^ 53) by (unfold cheb in *; simpl in *; lia).
    cbn [js_sub]. rewrite (js_number_exact _ Hdx), (js_number_exact _ Hdy).
    cbn [Math_abs Math_max js_add].
    change (Z.max (Z.abs (x2 - x1)) (Z.abs (y2 - y1)))
      with (cheb (x1, y1) (x2, y2)).
    rewrite js_number_exact by lia.
    specialize (IH (pre ++ [(x1, y1)]) (x2, y2)
                  (acc + cheb (x1, y1) (x2, y2)) ltac:(lia) ltac:(lia)).
    rewrite <- app_assoc, length_app in IH. cbn [length app] in IH.
    replace (length pre + 1)%nat with (S (length pre)) in IH by lia.
    rewrite IH. do 2 f_equal. lia.
Qed.

Lemma minTime_path_time ps :
  path_time ps <= 2 ^ 53 ->
  minTimeToVisitAllPoints ps = Some (Num (path_time ps)).
Proof.
  intros Hsafe. unfold minTimeToVisitAllPoints.
  destruct ps as [|p rest]; [reflexivity|].
  cbn [length]. replace (S (length rest) - 1)%nat with (length rest) by lia.
  apply (loop_from rest [] p 0); lia.
Qed.

Lemma move_cheb p q : move p q -> cheb p q = 1.
Proof.
  unfold move, cheb. destruct p as [a b], q as [c d]; simpl.
  intros (Hne & Hx & Hy).
  assert (a <> c \/ b <> d).
  { destruct (Z.eq_dec a c); [right|left; assumption].
    intros ->. apply Hne. congruence. }
  lia.
Qed.

Lemma walk_lower p q n : walk p q n -> cheb p q <= Z.of_nat n.
Proof.
  induction 1 as [p|p q r n Hm _ IH].
  - unfold cheb. lia.
  - pose proof (cheb_triangle p q r). rewrite (move_cheb _ _ Hm) in *. lia.
Qed.

Lemma towards_move p q : p <> q -> move p (towards p q).
Proof.
  unfold move, towards. destruct p as [a b], q as [c d]; simpl. intros Hne.
  assert (a <> c \/ b <> d).
  { destruct (Z.eq_dec a c); [right|left; assumption].
    intros ->. apply Hne. congruence. }
  split; [|lia]. intros [= H1 H2]. lia.
Qed.

Lemma towards_cheb p q : p <> q -> cheb (towards p q) q = cheb p q - 1.
Proof.
  unfold cheb, towards. destruct p as [a b], q as [c d]; simpl. intros Hne.
  assert (a <> c \/ b <> d).
  { destruct (Z.eq_dec a c); [right|left; assumption].
    intros ->. apply Hne. congruence. }
  lia.
Qed.

Lemma walk_exists_n n : forall p q, cheb p q = Z.of_nat n -> walk p q n.
Proof.
  induction n as [|n IH]; intros p q H.
  - rewrite (cheb_zero p q) by lia. constructor.
  - assert (Hne : p <> q) by (intros ->; unfold cheb in H; lia).
    apply (walk_move p (towards p q)); [apply towards_move; assumption|].
    apply IH. rewrite towards_cheb by assumption. lia.
Qed.

Lemma walk_exists p q : walk p q (Z.to_nat (cheb p q)).
Proof. apply walk_exists_n. pose proof (cheb_nonneg p q). lia. Qed.

Lemma tour_lower ps n : tour ps n -> path_time ps <= Z.of_nat n.
Proof.
  induction 1 as [|p|p q ps n k Hw _ IH]; simpl in *; try lia.
  apply walk_lower in Hw. lia.
Qed.

Lemma tour_exists ps : tour ps (Z.to_nat (path_time ps)).
Proof.
  induction ps as [|p [|q ps] IH]; try constructor.
  change (path_time (p :: q :: ps)) with (cheb p q + path_time (q :: ps)).
  pose proof (cheb_nonneg p q). pose proof (path_time_nonneg (q :: ps)).
  rewrite Z2Nat.inj_add by lia.
  constructor; [apply walk_exists | exact IH].
Qed.

(** C4 (amended).  For every list of points that are JavaScript numbers with
    integer values and whose sum over consecutive pairs of
    max(|x2-x1|, |y2-y1|) is at most 2^53, minTimeToVisitAllPoints returns
    that sum; the sum is the time of some tour of the points in order and a
    lower bound on the time of every such tour, when a second allows one
    horizontal, vertical or diagonal unit move; and the function returns 7
    on [[1,1],[3,4],[-1,0]]. *)
Theorem minTimeToVisitAllPoints_correct :
  (forall points : list point,
     safe points ->
     minTimeToVisitAllPoints points = Some (Num (path_time points)) /\
     tour points (Z.to_nat (path_time points)) /\
     (forall n, tour points n -> path_time points <= Z.of_nat n)) /\
  minTimeToVisitAllPoints [(1, 1); (3, 4); (-1, 0)] = Some (Num 7).
Proof.
  split; [|reflexivity].
  intros points [_ Hsafe]. split; [apply minTime_path_time, Hsafe|].
  split; [apply tour_exists|]. intros n. apply tour_lower.
Qed.

Lemma minTimeToVisitAllPoints_correct_witness :
  minTimeToVisitAllPoints [(0, 0); (1, 1); (1, 3)]
  = Some (Num (path_time [(0, 0); (1, 1); (1, 3)])) /\
  path_time [(0, 0); (1, 1); (1, 3)] <= Z.of_nat 3.
Proof.
  assert (Hsafe : safe [(0, 0); (1, 1); (1, 3)]).
  { split; [repeat constructor|vm_compute; discriminate]. }
  destruct (proj1 minTimeToVisitAllPoints_correct [(0, 0); (1, 1); (1, 3)] Hsafe)
    as (Hrun & _ & Hlow).
  split; [exact Hrun|]. apply Hlow.
  apply (tour_leg (0, 0) (1, 1) [(1, 3)] 1 2).
  - apply (walk_move _ (1, 1)); [|apply walk_here].
    split; [discriminate|simpl; lia].
  - apply (tour_leg (1, 1) (1, 3) [] 2 0); [|apply tour_one].
    apply (walk_move _ (1, 2)); [split; [discriminate|simpl; lia]|].
    apply (walk_move _ (1, 3)); [split; [discriminate|simpl; lia]|].
    apply walk_here.
Defined.

(** C4 (the claim as stated fails).  The points (0,0), (2^53,0), (2^53,1)
    are JavaScript numbers with integer values; the sum over consecutive
    pairs is 2^53 + 1, which is not a binary64 number: the addition rounds
    and the function returns 2^53. *)
Lemma minTimeToVisitAllPoints_rounds :
  Forall (fun p => is_number (fst p) /\ is_number (snd p))
    [(0, 0); (9007199254740992, 0); (9007199254740992, 1)] /\
  path_time [(0, 0); (9007199254740992, 0); (9007199254740992, 1)]
  = 9007199254740993 /\
  minTimeToVisitAllPoints [(0, 0); (9007199254740992, 0); (9007199254740992, 1)]
  = Some (Num 9007199254740992) /\
  minTimeToVisitAllPoints [(0, 0); (9007199254740992, 0); (9007199254740992, 1)]
  <> Some (Num (path_time [(0, 0); (9007199254740992, 0);
                           (9007199254740992, 1)])).
Proof.
  split; [repeat constructor|]. split; [reflexivity|].
  split; [vm_compute; reflexivity|]. vm_compute. discriminate.
Qed.

End MinTimeProofs.

Section OrangesProofs.
Import Oranges.

Lemma drain_undefined queue : forall k, fst (drain queue k) = JUndefined.
Proof.
  induction queue as [|[[row col] minute] queue IH]; intros k; simpl.
  - reflexivity.
  - apply IH.
Qed.

Lemma drain_shifts queue : forall k, snd (drain queue k) = (k + length queue)%nat.
Proof.
  induction queue as [|[[row col] minute] queue IH]; intros k; simpl.
  - lia.
  - rewrite IH. lia.
Qed.

Lemma gather_cell_no_fresh g r queue c :
  no_fresh g -> snd (gather_cell g r (queue, 0) c) = 0.
Proof.
  intros H. unfold gather_cell. specialize (H r c).
  destruct (cell g r c) as [v|]; [|reflexivity].
  destruct (Z.eqb_spec v 2); [reflexivity|].
  destruct (Z.eqb_spec v 1); [congruence|reflexivity].
Qed.

Lemma gather_row_no_fresh g cols r :
  no_fresh g -> forall queue, snd (gather_row g cols (queue, 0) r) = 0.
Proof.
  intros H. unfold gather_row. generalize (seq 0 cols) as cs.
  induction cs as [|c cs IH]; intros queue; [reflexivity|].
  cbn [fold_left].
  pose proof (gather_cell_no_fresh g r queue c H) as Hc.
  destruct (gather_cell g r (queue, 0) c) as [queue' f]. simpl in Hc. subst f.
  apply IH.
Qed.

Lemma gather_no_fresh g rows cols :
  no_fresh g -> snd (gather g rows cols) = 0.
Proof.
  intros H. unfold gather. generalize (@nil entry) as queue.
  generalize (seq 0 rows) as rs.
  induction rs as [|r rs IH]; intros queue; [reflexivity|].
  cbn [fold_left].
  pose proof (gather_row_no_fresh g cols r H queue) as Hr.
  destruct (gather_row g cols (queue, 0) r) as [queue' f]. simpl in Hr. subst f.
  apply IH.
Qed.

(** C9. orangesRotting returns -1 for a null grid and for a grid with zero
    rows, and returns 0 for every non-empty grid with no cell equal to 1,
    however many cells equal 2; in each case the while loop of the simulation
    runs zero times. *)
Theorem orangesRotting_edge_cases :
  orangesRotting_run None = (JNum (-1), 0%nat) /\
  orangesRotting_run (Some []) = (JNum (-1), 0%nat) /\
  (forall g : grid, g <> [] -> no_fresh g ->
     orangesRotting_run (Some g) = (JNum 0, 0%nat)).
Proof.
  split; [reflexivity|]. split; [reflexivity|].
  intros g Hne Hnf. unfold orangesRotting_run.
  destruct g as [|row0 g']; [congruence|].
  cbn [length Nat.eqb].
  pose proof (gather_no_fresh (row0 :: g') (S (length g'))
                (columns (row0 :: g')) Hnf) as H.
  destruct (gather _ _ _) as [queue f]. simpl in H. subst f. reflexivity.
Qed.

Lemma orangesRotting_edge_cases_witness :
  orangesRotting_run (Some [[2; 0]; [0; 2]]) = (JNum 0, 0%nat).
Proof.
  apply orangesRotting_edge_cases.
  - discriminate.
  - intros r c.
    destruct r as [|[|r]]; destruct c as [|[|c]]; vm_compute; discriminate.
Defined.

(** C6 (evaluation of the code).  On [[2,1,1],[1,1,0],[0,1,1]] the function
    counts six fresh oranges, empties its queue without rotting any orange and
    ends without a return statement: the call evaluates to undefined, not 4.
    The same happens on every grid on which a fresh orange is counted. *)
Theorem orangesRotting_example_undefined :
  orangesRotting (Some example_grid) = JUndefined /\
  (forall g : grid,
     g <> [] ->
     snd (gather g (length g) (columns g)) <> 0 ->
     orangesRotting (Some g) = JUndefined).
Proof.
  split; [reflexivity|].
  intros g Hne Hf. unfold orangesRotting, orangesRotting_run.
  destruct g as [|row0 g']; [congruence|].
  cbn [length Nat.eqb].
  destruct (gather _ _ _) as [queue f]. simpl in Hf.
  destruct (Z.eqb_spec f 0); [congruence|]. apply drain_undefined.
Qed.

Lemma orangesRotting_example_undefined_witness :
  orangesRotting (Some [[1]]) = JUndefined.
Proof.
  apply orangesRotting_example_undefined.
  - discriminate.
  - vm_compute. discriminate.
Defined.

End OrangesProofs.

Section SpiralProofs.
Import Spiral.

(** ** Ranges *)

Lemma elem_of_zrange a len x :
  x ∈ zrange a len <-> a <= x < a + Z.of_nat len.
Proof.
  unfold zrange. rewrite list_elem_of_fmap. split.
  - intros (i & -> & Hi). apply elem_of_seq in Hi. lia.
  - intros H. exists (Z.to_nat (x - a)). split; [lia|].
    apply elem_of_seq. lia.
Qed.

Lemma elem_of_zrange_down a len x :
  x ∈ zrange_down a len <-> a - Z.of_nat len < x <= a.
Proof.
  unfold zrange_down. rewrite list_elem_of_fmap. split.
  - intros (i & -> & Hi). apply elem_of_seq in Hi. lia.
  - intros H. exists (Z.to_nat (a - x)). split; [lia|].
    apply elem_of_seq. lia.
Qed.

Lemma NoDup_zrange a len : NoDup (zrange a len).
Proof.
  unfold zrange. apply NoDup_fmap_2; [|apply NoDup_seq].
  intros i j H. lia.
Qed.

Lemma NoDup_zrange_down a len : NoDup (zrange_down a len).
Proof.
  unfold zrange_down. apply NoDup_fmap_2; [|apply NoDup_seq].
  intros i j H. lia.
Qed.

Lemma length_zrange a len : length (zrange a len) = len.
Proof. unfold zrange. rewrite length_map, length_seq. reflexivity. Qed.

Lemma zrange_S a len : zrange a (S len) = a :: zrange (a + 1) len.
Proof.
  unfold zrange. cbn [seq map]. f_equal; [lia|].
  rewrite <- seq_shift, map_map. apply map_ext. intros i. lia.
Qed.

Lemma zrange_down_S a len : zrange_down a (S len) = a :: zrange_down (a - 1) len.
Proof.
  unfold zrange_down. cbn [seq map]. f_equal; [lia|].
  rewrite <- seq_shift, map_map. apply map_ext. intros i. lia.
Qed.

(** ** The initial matrix *)

Lemma lookup_filled {A} n (x : A) i :
  filled n x !! i = if decide (0 <= i < n) then Some x else None.
Proof.
  unfold filled.
  assert (H : forall l : list Z,
             (list_to_map (map (fun i => (i, x)) l) : gmap Z A) !! i
             = if decide (i ∈ l) then Some x else None).
  { induction l as [|j l IH].
    - rewrite decide_False by apply not_elem_of_nil. apply lookup_empty.
    - cbn [map list_to_map foldr uncurry curry fst snd]. destruct (decide (j = i)) as [->|Hne].
      + rewrite lookup_insert_eq. rewrite decide_True by left. reflexivity.
      + rewrite lookup_insert_ne by assumption. rewrite IH.
        apply decide_ext. rewrite elem_of_cons. intuition congruence. }
  rewrite H. repeat case_decide; try reflexivity.
  - rewrite elem_of_zrange in *. lia.
  - rewrite elem_of_zrange in *. lia.
Qed.

Lemma is_Some_filled {A} n (x : A) i :
  is_Some (filled n x !! i) <-> 0 <= i < n.
Proof.
  rewrite lookup_filled. case_decide as H.
  - split; [intros _; exact H | intros _; eexists; reflexivity].
  - split; [intros [? [=]] | intros H'; contradiction].
Qed.

Lemma zeros_square n : is_square n (zeros n).
Proof.
  unfold is_square, zeros. split.
  - intros r. apply is_Some_filled.
  - intros r rw c. rewrite lookup_filled. case_decide; [|discriminate].
    intros [= <-]. apply is_Some_filled.
Qed.

(** ** Writing along a list of cells *)

Lemma write_cell_rows m v p r :
  is_Some ((write_cell (m, v) p).1 !! r) <-> is_Some (m !! r).
Proof.
  unfold write_cell. cbn [fst snd].
  destruct (m !! p.1) as [rw|] eqn:E; [|reflexivity].
  destruct (decide (p.1 = r)) as [<-|Hne].
  - rewrite lookup_insert_eq, E. split; intros _; eexists; reflexivity.
  - rewrite lookup_insert_ne by assumption. reflexivity.
Qed.

Lemma write_cell_snd m v p : (write_cell (m, v) p).2 = v + 1.
Proof. reflexivity. Qed.

Lemma write_cells_cons p cells acc :
  write_cells (p :: cells) acc = write_cells cells (write_cell acc p).
Proof. reflexivity. Qed.

Lemma write_cells_app cs1 cs2 acc :
  write_cells (cs1 ++ cs2) acc = write_cells cs2 (write_cells cs1 acc).
Proof. unfold write_cells. apply fold_left_app. Qed.

Lemma write_cells_snd cells : forall m v,
  (write_cells cells (m, v)).2 = v + Z.of_nat (length cells).
Proof.
  induction cells as [|p cells IH]; intros m v.
  - simpl. lia.
  - rewrite write_cells_cons. unfold write_cell at 1.
    rewrite IH. cbn [length]. lia.
Qed.

Lemma write_cells_rows cells r : forall m v,
  is_Some ((write_cells cells (m, v)).1 !! r) <-> is_Some (m !! r).
Proof.
  induction cells as [|p cells IH]; intros m v; [reflexivity|].
  rewrite write_cells_cons.
  destruct (write_cell (m, v) p) as [m' v'] eqn:E.
  rewrite IH. replace m' with (write_cell (m, v) p).1 by (rewrite E; reflexivity).
  apply write_cell_rows.
Qed.

(** ** The inner loops *)

(** A [for] loop whose test is a test on the index together with
    [current <= max] and whose body writes one cell: it writes [len] cells
    when the test on the index holds [len] times and [current] stays within
    [max]. *)
Lemma for_loop_fill max cond upd body (s : Z) (g : Z -> bool) (cell : Z -> Z * Z)
    t b l r :
  (forall i, upd i = i + s) ->
  (forall i m cur,
     cond i (mkState m t b l r cur) = g i && (cur <=? max)) ->
  (forall i m cur,
     body i (mkState m t b l r cur)
     = put (cell i).1 (cell i).2 (mkState m t b l r cur)) ->
  forall (len fuel : nat) i m cur,
    (len < fuel)%nat ->
    (forall j, (j < len)%nat ->
       g (i + s * Z.of_nat j) = true /\
       is_Some (m !! (cell (i + s * Z.of_nat j)).1)) ->
    g (i + s * Z.of_nat len) = false ->
    cur + Z.of_nat len <= max + 1 ->
    let acc := write_cells
                 (map (fun j => cell (i + s * Z.of_nat j)) (seq 0 len)) (m, cur) in
    for_loop fuel cond upd body i (mkState m t b l r cur)
    = Ok (mkState acc.1 t b l r acc.2).
Proof.
  intros Hupd Hcond Hbody.
  induction len as [|len IH]; intros fuel i m cur Hfuel Hin Hout Hmax.
  - destruct fuel as [|fuel]; [lia|]. cbn [for_loop].
    rewrite Hcond. replace (i + s * Z.of_nat 0) with i in Hout by lia.
    rewrite Hout. reflexivity.
  - destruct fuel as [|fuel]; [lia|]. cbn [for_loop].
    rewrite Hcond.
    destruct (Hin 0%nat ltac:(lia)) as [Hg [rw Hrw]].
    replace (i + s * Z.of_nat 0) with i in Hg, Hrw by lia.
    rewrite Hg. replace (cur <=? max) with true by (symmetry; apply Z.leb_le; lia).
    cbn [andb]. rewrite Hbody. unfold put. cbn [mat current top bottom left right].
    rewrite Hrw. cbn [mbind result_bind].
    rewrite Hupd.
    cbn zeta in IH |- *.
    rewrite IH.
    + cbn [seq map]. rewrite write_cells_cons.
      replace (i + s * Z.of_nat 0) with i by lia.
      unfold write_cell. rewrite Hrw.
      rewrite <- seq_shift, map_map.
      rewrite (map_ext (fun j => cell (i + s * Z.of_nat (S j)))
                       (fun j => cell (i + s + s * Z.of_nat j)));
        [reflexivity|].
      intros j. f_equal. lia.
    + lia.
    + intros j Hj. destruct (Hin (S j) ltac:(lia)) as [Hg' Hr'].
      replace (i + s + s * Z.of_nat j) with (i + s * Z.of_nat (S j)) by lia.
      split; [exact Hg'|].
      apply (write_cell_rows m cur (cell i) _) in Hr'.
      unfold write_cell in Hr'. rewrite Hrw in Hr'. exact Hr'.
    + replace (i + s + s * Z.of_nat len) with (i + s * Z.of_nat (S len)) by lia.
      exact Hout.
    + lia.
Qed.

Lemma map_zrange {A} (f : Z -> A) a len :
  map f (zrange a len) = map (fun j => f (a + 1 * Z.of_nat j)) (seq 0 len).
Proof.
  unfold zrange. rewrite map_map. apply map_ext. intros j.
  apply f_equal. lia.
Qed.

Lemma map_zrange_down {A} (f : Z -> A) a len :
  map f (zrange_down a len) = map (fun j => f (a + -1 * Z.of_nat j)) (seq 0 len).
Proof.
  unfold zrange_down. rewrite map_map. apply map_ext. intros j.
  apply f_equal. lia.
Qed.

Lemma length_ring n l :
  0 < n - 2 * l ->
  Z.of_nat (length (ring n l))
  = if decide (n - 2 * l = 1) then 1 else 4 * (n - 2 * l - 1).
Proof.
  intros H. unfold ring. rewrite !length_app, !length_map.
  rewrite !length_zrange.
  unfold zrange_down. rewrite !length_map, !length_seq.
  case_decide; lia.
Qed.

(** ** One round of the while loop fills one ring *)

Lemma round_ring n l m cur fuel :
  0 <= l -> 0 < n - 2 * l ->
  (forall r, 0 <= r < n -> is_Some (m !! r)) ->
  cur + Z.of_nat (length (ring n l)) <= n * n + 1 ->
  (Z.to_nat n < fuel)%nat ->
  let acc := write_cells (ring n l) (m, cur) in
  round fuel (n * n) (mkState m l (n - 1 - l) l (n - 1 - l) cur)
  = Ok (mkState acc.1 (l + 1) (n - 1 - l - 1) (l + 1) (n - 1 - l - 1) acc.2).
Proof.
  intros Hl Hside Hrows Hmax Hfuel.
  unfold ring in *. rewrite !length_app, !length_map, !length_zrange in Hmax.
  unfold zrange_down in Hmax. rewrite !length_map, !length_seq in Hmax.
  fold (zrange_down (n - 2 - l) (Z.to_nat (n - 2 * l - 1))) in *.
  cbn zeta. rewrite !write_cells_app.
  set (seg1 := map (fun c => (l, c)) (zrange l (Z.to_nat (n - 2 * l)))).
  set (seg2 := map (fun r => (r, n - 1 - l))
                 (zrange (l + 1) (Z.to_nat (n - 2 * l - 1)))).
  set (seg3 := map (fun c => (n - 1 - l, c))
                 (zrange_down (n - 2 - l) (Z.to_nat (n - 2 * l - 1)))).
  set (seg4 := map (fun r => (r, l))
                 (zrange_down (n - 2 - l) (Z.to_nat (n - 2 * l - 2)))).
  assert (L1 : length seg1 = Z.to_nat (n - 2 * l))
    by (unfold seg1; rewrite length_map, length_zrange; reflexivity).
  assert (L2 : length seg2 = Z.to_nat (n - 2 * l - 1))
    by (unfold seg2; rewrite length_map, length_zrange; reflexivity).
  assert (L3 : length seg3 = Z.to_nat (n - 2 * l - 1))
    by (unfold seg3, zrange_down; rewrite !length_map, length_seq; reflexivity).
  unfold round. cbn [left right top bottom].
  (* top row *)
  erewrite for_loop_fill with (s := 1) (g := (fun col => col <=? n - 1 - l))
      (cell := fun col => (l, col)) (len := (Z.to_nat (n - 2 * l)));
    cycle 1.
  { intros; lia. }
  { reflexivity. }
  { reflexivity. }
  { lia. }
  { intros j Hj. split; [apply Z.leb_le; lia|]. apply Hrows. simpl. lia. }
  { apply Z.leb_gt. lia. }
  { lia. }
  rewrite <- (map_zrange (fun c => (l, c))). fold seg1.
  destruct (write_cells seg1 (m, cur)) as [m1 cur1] eqn:E1.
  assert (C1 : cur1 = cur + Z.of_nat (length seg1))
    by (rewrite <- (write_cells_snd seg1 m cur), E1; reflexivity).
  assert (R1 : forall r, 0 <= r < n -> is_Some (m1 !! r)).
  { intros r Hr. replace m1 with (write_cells seg1 (m, cur)).1
      by (rewrite E1; reflexivity).
    apply write_cells_rows, Hrows, Hr. }
  cbn [mbind result_bind]. unfold set_top.
  cbn [fst snd top bottom left right mat current].
  (* right column *)
  erewrite for_loop_fill with (s := 1) (g := (fun row => row <=? n - 1 - l))
      (cell := fun row => (row, n - 1 - l)) (len := (Z.to_nat (n - 2 * l - 1)));
    cycle 1.
  { intros; lia. }
  { reflexivity. }
  { reflexivity. }
  { lia. }
  { intros j Hj. split; [apply Z.leb_le; lia|]. apply R1. simpl. lia. }
  { apply Z.leb_gt. lia. }
  { lia. }
  rewrite <- (map_zrange (fun r => (r, n - 1 - l))). fold seg2.
  destruct (write_cells seg2 (m1, cur1)) as [m2 cur2] eqn:E2.
  assert (C2 : cur2 = cur1 + Z.of_nat (length seg2))
    by (rewrite <- (write_cells_snd seg2 m1 cur1), E2; reflexivity).
  assert (R2 : forall r, 0 <= r < n -> is_Some (m2 !! r)).
  { intros r Hr. replace m2 with (write_cells seg2 (m1, cur1)).1
      by (rewrite E2; reflexivity).
    apply write_cells_rows, R1, Hr. }
  cbn [mbind result_bind]. unfold set_right.
  cbn [fst snd top bottom left right mat current].
  (* bottom row *)
  erewrite for_loop_fill with (s := (-1)) (g := (fun col => col >=? l))
      (cell := fun col => (n - 1 - l, col)) (len := (Z.to_nat (n - 2 * l - 1)));
    cycle 1.
  { intros; lia. }
  { reflexivity. }
  { reflexivity. }
  { lia. }
  { intros j Hj. split; [apply Z.geb_le; lia|]. apply R2. simpl. lia. }
  { rewrite Z.geb_leb. apply Z.leb_gt. lia. }
  { lia. }
  rewrite <- (map_zrange_down (fun c => (n - 1 - l, c))).
  replace (zrange_down (n - 1 - l - 1)) with (zrange_down (n - 2 - l))
    by (f_equal; lia). fold seg3.
  destruct (write_cells seg3 (m2, cur2)) as [m3 cur3] eqn:E3.
  assert (C3 : cur3 = cur2 + Z.of_nat (length seg3))
    by (rewrite <- (write_cells_snd seg3 m2 cur2), E3; reflexivity).
  assert (R3 : forall r, 0 <= r < n -> is_Some (m3 !! r)).
  { intros r Hr. replace m3 with (write_cells seg3 (m2, cur2)).1
      by (rewrite E3; reflexivity).
    apply write_cells_rows, R2, Hr. }
  cbn [mbind result_bind]. unfold set_bottom.
  cbn [fst snd top bottom left right mat current].
  (* left column *)
  erewrite for_loop_fill with (s := (-1)) (g := (fun row => row >=? l + 1))
      (cell := fun row => (row, l)) (len := (Z.to_nat (n - 2 * l - 2)));
    cycle 1.
  { intros; lia. }
  { reflexivity. }
  { reflexivity. }
  { lia. }
  { intros j Hj. split; [apply Z.geb_le; lia|]. apply R3. simpl. lia. }
  { rewrite Z.geb_leb. apply Z.leb_gt. lia. }
  { lia. }
  rewrite <- (map_zrange_down (fun r => (r, l))).
  replace (zrange_down (n - 1 - l - 1)) with (zrange_down (n - 2 - l))
    by (f_equal; lia). fold seg4.
  reflexivity.
Qed.

(** ** The while loop fills the rings in turn *)

Lemma while_loop_rings n inner :
  (Z.to_nat n < inner)%nat ->
  forall (k l fuel : nat) m cur,
    (l + k)%nat = Z.to_nat ((n + 1) / 2) ->
    (k < fuel)%nat ->
    (forall r, 0 <= r < n -> is_Some (m !! r)) ->
    cur = n * n + 1 - Z.max 0 (n - 2 * Z.of_nat l) * Z.max 0 (n - 2 * Z.of_nat l) ->
    exists st',
      while_loop fuel inner (n * n)
        (mkState m (Z.of_nat l) (n - 1 - Z.of_nat l)
                 (Z.of_nat l) (n - 1 - Z.of_nat l) cur) = Ok st' /\
      mat st' = (write_cells
                   (concat (map (fun l => ring n (Z.of_nat l)) (seq l k)))
                   (m, cur)).1.
Proof.
  intros Hinner.
  induction k as [|k IH]; intros l fuel m cur Hk Hfuel Hrows Hcur.
  - destruct fuel as [|fuel]; [lia|]. cbn [while_loop current].
    assert (n - 2 * Z.of_nat l <= 0).
    { assert (Z.of_nat l = (n + 1) / 2 \/ (n + 1) / 2 < 0) as [H|H] by lia.
      - pose proof (Z.mod_pos_bound (n + 1) 2 ltac:(lia)).
        pose proof (Z.div_mod (n + 1) 2 ltac:(lia)). lia.
      - pose proof (Z.div_pos (n + 1) 2).
        assert (n + 1 < 0) by (destruct (Z.lt_ge_cases (n + 1) 0); lia). lia. }
    replace (cur <=? n * n) with false by (symmetry; apply Z.leb_gt; lia).
    eexists. split; reflexivity.
  - destruct fuel as [|fuel]; [lia|]. cbn [while_loop current].
    assert (Hside : 0 < n - 2 * Z.of_nat l).
    { pose proof (Z.mod_pos_bound (n + 1) 2 ltac:(lia)).
      pose proof (Z.div_mod (n + 1) 2 ltac:(lia)). lia. }
    pose proof (length_ring n (Z.of_nat l) Hside) as Hlen.
    replace (cur <=? n * n) with true by (symmetry; apply Z.leb_le; nia).
    rewrite round_ring; [|lia|lia|assumption| |lia].
    2:{ rewrite Hlen. case_decide; nia. }
    cbn [mbind result_bind].
    destruct (write_cells (ring n (Z.of_nat l)) (m, cur)) as [m1 cur1] eqn:E1.
    cbn [fst snd].
    assert (C1 : cur1 = cur + Z.of_nat (length (ring n (Z.of_nat l))))
      by (rewrite <- (write_cells_snd _ m cur), E1; reflexivity).
    assert (R1 : forall r, 0 <= r < n -> is_Some (m1 !! r)).
    { intros r Hr. replace m1 with (write_cells (ring n (Z.of_nat l)) (m, cur)).1
        by (rewrite E1; reflexivity).
      apply write_cells_rows, Hrows, Hr. }
    destruct (IH (S l) fuel m1 cur1) as (st' & Hrun & Hmat);
      [lia|lia|assumption| |].
    { rewrite C1, Hlen, Hcur. case_decide; nia. }
    exists st'. split.
    + rewrite <- Hrun. f_equal. f_equal; lia.
    + rewrite Hmat. cbn [seq map concat]. rewrite write_cells_app, E1.
      reflexivity.
Qed.

Lemma spiralMatrixc_cells n :
  0 < n ->
  spiralMatrixc n = Ok (write_cells (spiral_cells n) (zeros n, 1)).1.
Proof.
  intros Hn. unfold spiralMatrixc, spiralMatrixc_fuel.
  assert (Hrounds : 0 <= (n + 1) / 2 <= n).
  { pose proof (Z.mod_pos_bound (n + 1) 2 ltac:(lia)).
    pose proof (Z.div_mod (n + 1) 2 ltac:(lia)). lia. }
  destruct (while_loop_rings n (S (Z.to_nat (n * n))) ltac:(nia)
              (Z.to_nat ((n + 1) / 2)) 0%nat (S (Z.to_nat (n * n)))
              (zeros n) 1) as (st' & Hrun & Hmat).
  - lia.
  - nia.
  - intros r Hr. apply (zeros_square n). exact Hr.
  - lia.
  - change (Z.of_nat 0) with 0 in Hrun.
    replace (n - 1 - 0) with (n - 1) in Hrun by lia.
    rewrite Hrun. cbn [mbind result_bind]. rewrite Hmat. reflexivity.
Qed.

(** ** What the writes leave in the matrix *)

Lemma at_cell_write_cell m v p q :
  is_Some (m !! p.1) ->
  at_cell (write_cell (m, v) p).1 q
  = if decide (p = q) then Some v else at_cell m q.
Proof.
  intros [rw Hrw]. unfold write_cell, at_cell. cbn [fst snd]. rewrite Hrw.
  destruct p as [r c], q as [r' c']. cbn [fst snd] in *.
  destruct (decide (r = r')) as [<-|Hr].
  - rewrite lookup_insert_eq, Hrw. cbn [mbind option_bind].
    destruct (decide (c = c')) as [<-|Hc].
    + rewrite lookup_insert_eq, decide_True by reflexivity. reflexivity.
    + rewrite lookup_insert_ne, decide_False by congruence. reflexivity.
  - rewrite lookup_insert_ne, decide_False by congruence. reflexivity.
Qed.

Lemma at_cell_write_cell_ne m v p q :
  p <> q -> at_cell (write_cell (m, v) p).1 q = at_cell m q.
Proof.
  intros Hne. destruct (m !! p.1) as [rw|] eqn:E.
  - rewrite at_cell_write_cell by (eexists; exact E).
    rewrite decide_False by assumption. reflexivity.
  - unfold write_cell. cbn [fst]. rewrite E. reflexivity.
Qed.

Lemma write_cells_other cells q : forall m v,
  q ∉ cells -> at_cell (write_cells cells (m, v)).1 q = at_cell m q.
Proof.
  induction cells as [|p cells IH]; intros m v Hq; [reflexivity|].
  rewrite write_cells_cons. apply not_elem_of_cons in Hq as [Hne Hq].
  destruct (write_cell (m, v) p) as [m' v'] eqn:E.
  rewrite IH by assumption.
  replace m' with (write_cell (m, v) p).1 by (rewrite E; reflexivity).
  apply at_cell_write_cell_ne. congruence.
Qed.

Lemma write_cells_nth cells : forall m v k p,
  NoDup cells ->
  (forall q, q ∈ cells -> is_Some (m !! q.1)) ->
  cells !! k = Some p ->
  at_cell (write_cells cells (m, v)).1 p = Some (v + Z.of_nat k).
Proof.
  induction cells as [|p0 cells IH]; intros m v k p Hnd Hrows Hk;
    [discriminate|].
  rewrite write_cells_cons. apply NoDup_cons in Hnd as [Hp0 Hnd].
  destruct (write_cell (m, v) p0) as [m' v'] eqn:E.
  assert (Hm' : m' = (write_cell (m, v) p0).1) by (rewrite E; reflexivity).
  assert (Hv' : v' = v + 1) by (unfold write_cell in E; congruence).
  destruct k as [|k]; cbn in Hk.
  - injection Hk as ->. rewrite write_cells_other by assumption.
    rewrite Hm', at_cell_write_cell by (apply Hrows; left).
    rewrite decide_True by reflexivity. f_equal. lia.
  - rewrite (IH m' v' k p Hnd); [f_equal; lia| |exact Hk].
    intros q Hq. rewrite Hm'. apply write_cell_rows, Hrows. right. exact Hq.
Qed.

Lemma write_cell_square n m v p :
  is_square n m -> 0 <= p.1 < n -> 0 <= p.2 < n ->
  is_square n (write_cell (m, v) p).1.
Proof.
  intros [Hr Hc] Hp1 Hp2. split.
  - intros r. rewrite write_cell_rows. apply Hr.
  - intros r rw c. unfold write_cell. cbn [fst].
    destruct (m !! p.1) as [rw0|] eqn:E; [|apply Hc].
    destruct (decide (p.1 = r)) as [<-|Hne].
    + rewrite lookup_insert_eq. intros [= <-].
      destruct (decide (p.2 = c)) as [<-|Hne].
      * rewrite lookup_insert_eq. split; [intros _; assumption|eauto].
      * rewrite lookup_insert_ne by assumption. eapply Hc, E.
    + rewrite lookup_insert_ne by assumption. apply Hc.
Qed.

Lemma write_cells_square n cells : forall m v,
  is_square n m ->
  (forall p, p ∈ cells -> 0 <= p.1 < n /\ 0 <= p.2 < n) ->
  is_square n (write_cells cells (m, v)).1.
Proof.
  induction cells as [|p cells IH]; intros m v Hsq Hin; [exact Hsq|].
  rewrite write_cells_cons.
  destruct (write_cell (m, v) p) as [m' v'] eqn:E.
  apply IH; [|intros q Hq; apply Hin; right; exact Hq].
  replace m' with (write_cell (m, v) p).1 by (rewrite E; reflexivity).
  apply write_cell_square; [assumption|apply Hin; left ..].
Qed.

(** ** The rings partition the square *)

Lemma elem_of_row_seg (a : Z) xs (p : Z * Z) :
  p ∈ map (fun c => (a, c)) xs <-> p.1 = a /\ p.2 ∈ xs.
Proof.
  rewrite list_elem_of_fmap. destruct p as [r c]. cbn [fst snd]. split.
  - intros (x & [= -> ->] & Hx). auto.
  - intros [-> Hc]. exists c. auto.
Qed.

Lemma elem_of_col_seg (b : Z) xs (p : Z * Z) :
  p ∈ map (fun r => (r, b)) xs <-> p.2 = b /\ p.1 ∈ xs.
Proof.
  rewrite list_elem_of_fmap. destruct p as [r c]. cbn [fst snd]. split.
  - intros (x & [= -> ->] & Hx). auto.
  - intros [-> Hc]. exists r. auto.
Qed.

Lemma elem_of_ring n l p :
  p ∈ ring n l <->
  (p.1 = l /\ l <= p.2 < l + Z.of_nat (Z.to_nat (n - 2 * l))) \/
  (p.2 = n - 1 - l /\
   l + 1 <= p.1 < l + 1 + Z.of_nat (Z.to_nat (n - 2 * l - 1))) \/
  (p.1 = n - 1 - l /\
   n - 2 - l - Z.of_nat (Z.to_nat (n - 2 * l - 1)) < p.2 <= n - 2 - l) \/
  (p.2 = l /\
   n - 2 - l - Z.of_nat (Z.to_nat (n - 2 * l - 2)) < p.1 <= n - 2 - l).
Proof.
  unfold ring. rewrite !elem_of_app, !elem_of_row_seg, !elem_of_col_seg.
  rewrite !elem_of_zrange, !elem_of_zrange_down. reflexivity.
Qed.

Lemma ring_layer n l p :
  0 <= l -> p ∈ ring n l -> layer n p = l /\ 0 <= p.1 < n /\ 0 <= p.2 < n.
Proof.
  intros Hl. rewrite elem_of_ring. unfold layer. lia.
Qed.

Lemma layer_ring n p :
  0 <= p.1 < n -> 0 <= p.2 < n ->
  p ∈ ring n (layer n p) /\ 0 <= layer n p /\ 2 * layer n p < n.
Proof.
  intros H1 H2. rewrite elem_of_ring. unfold layer. lia.
Qed.

Lemma NoDup_ring n l : NoDup (ring n l).
Proof.
  unfold ring.
  assert (Irow : forall a : Z, Inj eq eq (fun c : Z => (a, c)))
    by (intros a x y [= ->]; reflexivity).
  assert (Icol : forall b : Z, Inj eq eq (fun r : Z => (r, b)))
    by (intros b x y [= ->]; reflexivity).
  repeat (apply NoDup_app; split; [|split]);
    try (apply NoDup_fmap_2;
         [auto | first [apply NoDup_zrange | apply NoDup_zrange_down]]).
  - intros p. rewrite !elem_of_app, !elem_of_row_seg, !elem_of_col_seg.
    rewrite !elem_of_zrange, !elem_of_zrange_down. lia.
  - intros p. rewrite !elem_of_app, !elem_of_row_seg, !elem_of_col_seg.
    rewrite !elem_of_zrange, !elem_of_zrange_down. lia.
  - intros p. rewrite !elem_of_row_seg, !elem_of_col_seg.
    rewrite !elem_of_zrange_down. lia.
Qed.

Lemma elem_of_concat {A} (x : A) (ls : list (list A)) :
  x ∈ concat ls <-> exists l, x ∈ l /\ l ∈ ls.
Proof.
  induction ls as [|l0 ls IH]; cbn [concat].
  - split; [intros H; inversion H|intros (l & _ & H); inversion H].
  - rewrite elem_of_app, IH. split.
    + intros [H|(l & H1 & H2)]; [exists l0; split; [exact H|left]|].
      exists l. split; [exact H1|right; exact H2].
    + intros (l & H1 & H2). apply elem_of_cons in H2 as [->|H2]; [left; exact H1|].
      right. exists l. split; assumption.
Qed.

Lemma elem_of_spiral_cells n p :
  p ∈ spiral_cells n <-> 0 <= p.1 < n /\ 0 <= p.2 < n.
Proof.
  unfold spiral_cells. rewrite elem_of_concat. split.
  - intros (cs & Hp & Hcs). apply list_elem_of_fmap in Hcs as (l & -> & _).
    apply ring_layer in Hp; [tauto|lia].
  - intros [H1 H2]. destruct (layer_ring n p H1 H2) as (Hp & Hl0 & Hl).
    exists (ring n (layer n p)). split; [exact Hp|].
    apply list_elem_of_fmap. exists (Z.to_nat (layer n p)).
    split; [f_equal; lia|]. apply elem_of_seq.
    pose proof (Z.mod_pos_bound (n + 1) 2 ltac:(lia)).
    pose proof (Z.div_mod (n + 1) 2 ltac:(lia)). lia.
Qed.

Lemma NoDup_rings n (ls : list nat) :
  NoDup ls -> NoDup (concat (map (fun l => ring n (Z.of_nat l)) ls)).
Proof.
  induction ls as [|l ls IH]; intros Hnd; [constructor|].
  apply NoDup_cons in Hnd as [Hl Hnd]. cbn [map concat].
  apply NoDup_app. split; [apply NoDup_ring|]. split; [|apply IH, Hnd].
  intros p Hp Hp'. apply elem_of_concat in Hp' as (cs & Hp' & Hcs).
  apply list_elem_of_fmap in Hcs as (l' & -> & Hl').
  apply ring_layer in Hp as [Hp _]; [|lia].
  apply ring_layer in Hp' as [Hp' _]; [|lia].
  apply Hl. replace l with l' by lia. exact Hl'.
Qed.

Lemma NoDup_spiral_cells n : NoDup (spiral_cells n).
Proof. apply NoDup_rings, NoDup_seq. Qed.

Lemma elem_of_all_cells n p :
  p ∈ all_cells n <-> 0 <= p.1 < n /\ 0 <= p.2 < n.
Proof.
  unfold all_cells. rewrite list_elem_of_bind. split.
  - intros (r & Hp & Hr). apply list_elem_of_bind in Hp as (c & Hp & Hc).
    apply list_elem_of_singleton in Hp as ->. cbn [fst snd].
    apply elem_of_zrange in Hr, Hc. lia.
  - intros [H1 H2]. exists p.1. split; [|apply elem_of_zrange; lia].
    apply list_elem_of_bind. exists p.2. split; [|apply elem_of_zrange; lia].
    destruct p. apply list_elem_of_singleton. reflexivity.
Qed.

Lemma bind_pairs_rows (rs cs : list Z) :
  (r ← rs; c ← cs; [(r, c)])
  = concat (map (fun r => map (fun c => (r, c)) cs) rs).
Proof.
  induction rs as [|r rs IH]; [reflexivity|].
  rewrite bind_cons, IH. cbn [map concat]. apply (f_equal (fun l => l ++ _)).
  clear IH. induction cs as [|c cs IHc]; [reflexivity|].
  rewrite bind_cons, IHc. reflexivity.
Qed.

Lemma all_cells_rows n :
  all_cells n
  = concat (map (fun r => map (fun c => (r, c)) (zrange 0 (Z.to_nat n)))
                (zrange 0 (Z.to_nat n))).
Proof. apply bind_pairs_rows. Qed.

Lemma NoDup_all_cells n : NoDup (all_cells n).
Proof.
  rewrite all_cells_rows.
  assert (H : forall rs : list Z, NoDup rs ->
            NoDup (concat (map (fun r => map (fun c => (r, c))
                                           (zrange 0 (Z.to_nat n))) rs))).
  { induction rs as [|r rs IH]; intros Hnd; [constructor|].
    apply NoDup_cons in Hnd as [Hr Hnd]. cbn [map concat].
    apply NoDup_app. split; [|split; [|apply IH, Hnd]].
    - apply NoDup_fmap_2; [|apply NoDup_zrange].
      intros x y [= ->]. reflexivity.
    - intros p Hp Hp'. apply elem_of_row_seg in Hp as [Hp _].
      apply elem_of_concat in Hp' as (cs & Hp' & Hcs).
      apply list_elem_of_fmap in Hcs as (r' & -> & Hr').
      apply elem_of_row_seg in Hp' as [Hp' _]. congruence. }
  apply H, NoDup_zrange.
Qed.

Lemma spiral_cells_all_cells n : spiral_cells n ≡ₚ all_cells n.
Proof.
  apply NoDup_Permutation; [apply NoDup_spiral_cells|apply NoDup_all_cells|].
  intros p. rewrite elem_of_spiral_cells, elem_of_all_cells. reflexivity.
Qed.

(** ** The spiral as a walk *)

Lemma trace_app p ds1 ds2 :
  trace p (ds1 ++ ds2) = trace p ds1 ++ trace (endpos p ds1) ds2.
Proof.
  revert p. induction ds1 as [|d ds1 IH]; intros p; [reflexivity|].
  cbn [app trace]. rewrite IH. reflexivity.
Qed.

Lemma endpos_app p ds1 ds2 :
  endpos p (ds1 ++ ds2) = endpos (endpos p ds1) ds2.
Proof. unfold endpos. apply fold_left_app. Qed.

Lemma endpos_cons p d ds : endpos p (d :: ds) = endpos (advance p d) ds.
Proof. reflexivity. Qed.

Lemma trace_replicate k : forall p d,
  trace p (replicate k d)
  = map (fun i => (p.1 + Z.of_nat (S i) * d.1, p.2 + Z.of_nat (S i) * d.2))
        (seq 0 k) /\
  endpos p (replicate k d) = (p.1 + Z.of_nat k * d.1, p.2 + Z.of_nat k * d.2).
Proof.
  induction k as [|k IH]; intros [a b] [x y].
  - split; [reflexivity|]. cbn. f_equal; lia.
  - cbn [replicate trace]. rewrite endpos_cons.
    destruct (IH (advance (a, b) (x, y)) (x, y)) as [-> ->].
    unfold advance. cbn [fst snd]. split.
    + cbn [seq map]. f_equal; [f_equal; lia|].
      rewrite <- seq_shift, map_map. apply map_ext. intros i.
      rewrite (Nat2Z.inj_succ (S i)). f_equal; ring.
    + rewrite (Nat2Z.inj_succ k). f_equal; ring.
Qed.

Lemma trace_right k a b :
  trace (a, b) (replicate k go_right) = map (fun c => (a, c)) (zrange (b + 1) k) /\
  endpos (a, b) (replicate k go_right) = (a, b + Z.of_nat k).
Proof.
  destruct (trace_replicate k (a, b) go_right) as [-> ->].
  unfold go_right, zrange. cbn [fst snd]. rewrite map_map. split.
  - apply map_ext. intros i. f_equal; lia.
  - f_equal; lia.
Qed.

Lemma trace_down k a b :
  trace (a, b) (replicate k go_down) = map (fun r => (r, b)) (zrange (a + 1) k) /\
  endpos (a, b) (replicate k go_down) = (a + Z.of_nat k, b).
Proof.
  destruct (trace_replicate k (a, b) go_down) as [-> ->].
  unfold go_down, zrange. cbn [fst snd]. rewrite map_map. split.
  - apply map_ext. intros i. f_equal; lia.
  - f_equal; lia.
Qed.

Lemma trace_left k a b :
  trace (a, b) (replicate k go_left)
  = map (fun c => (a, c)) (zrange_down (b - 1) k) /\
  endpos (a, b) (replicate k go_left) = (a, b - Z.of_nat k).
Proof.
  destruct (trace_replicate k (a, b) go_left) as [-> ->].
  unfold go_left, zrange_down. cbn [fst snd]. rewrite map_map. split.
  - apply map_ext. intros i. f_equal; lia.
  - f_equal; lia.
Qed.

Lemma trace_up k a b :
  trace (a, b) (replicate k go_up)
  = map (fun r => (r, b)) (zrange_down (a - 1) k) /\
  endpos (a, b) (replicate k go_up) = (a - Z.of_nat k, b).
Proof.
  destruct (trace_replicate k (a, b) go_up) as [-> ->].
  unfold go_up, zrange_down. cbn [fst snd]. rewrite map_map. split.
  - apply map_ext. intros i. f_equal; lia.
  - f_equal; lia.
Qed.

Lemma ring_trace n l :
  0 < n - 2 * l ->
  ring n l = trace (l, l - 1) (ring_steps n l) /\
  (2 <= n - 2 * l -> endpos (l, l - 1) (ring_steps n l) = (l + 1, l)).
Proof.
  intros Hside. unfold ring, ring_steps. cbn zeta.
  rewrite !trace_app, !endpos_app.
  destruct (trace_right (Z.to_nat (n - 2 * l)) l (l - 1)) as [-> ->].
  replace (l - 1 + 1) with l by lia.
  replace (l - 1 + Z.of_nat (Z.to_nat (n - 2 * l))) with (n - 1 - l) by lia.
  destruct (trace_down (Z.to_nat (n - 2 * l - 1)) l (n - 1 - l)) as [-> ->].
  replace (l + Z.of_nat (Z.to_nat (n - 2 * l - 1))) with (n - 1 - l) by lia.
  destruct (trace_left (Z.to_nat (n - 2 * l - 1)) (n - 1 - l) (n - 1 - l))
    as [-> ->].
  replace (n - 1 - l - 1) with (n - 2 - l) by lia.
  replace (n - 1 - l - Z.of_nat (Z.to_nat (n - 2 * l - 1))) with l by lia.
  destruct (trace_up (Z.to_nat (n - 2 * l - 2)) (n - 1 - l) l) as [-> ->].
  replace (n - 1 - l - 1) with (n - 2 - l) by lia.
  split; [reflexivity|]. intros H. f_equal. lia.
Qed.

Lemma rings_trace n : forall (k l : nat),
  (l + k)%nat = Z.to_nat ((n + 1) / 2) ->
  concat (map (fun l => ring n (Z.of_nat l)) (seq l k))
  = trace (Z.of_nat l, Z.of_nat l - 1)
          (concat (map (fun l => ring_steps n (Z.of_nat l)) (seq l k))).
Proof.
  induction k as [|k IH]; intros l Hk; [reflexivity|].
  assert (Hside : 0 < n - 2 * Z.of_nat l).
  { pose proof (Z.mod_pos_bound (n + 1) 2 ltac:(lia)).
    pose proof (Z.div_mod (n + 1) 2 ltac:(lia)). lia. }
  cbn [seq map concat]. rewrite trace_app.
  destruct (ring_trace n (Z.of_nat l) Hside) as [<- Hend]. f_equal.
  destruct k as [|k]; [reflexivity|].
  rewrite Hend.
  - rewrite (IH (S l)) by lia. f_equal. f_equal; lia.
  - pose proof (Z.mod_pos_bound (n + 1) 2 ltac:(lia)).
    pose proof (Z.div_mod (n + 1) 2 ltac:(lia)). lia.
Qed.

Lemma spiral_cells_trace n :
  spiral_cells n = trace (0, -1) (spiral_steps n).
Proof. apply (rings_trace n _ 0%nat). lia. Qed.

Lemma default_last_cons {X} (d x : X) (l : list X) :
  default d (last (x :: l)) = default x (last l).
Proof.
  revert d x. induction l as [|y l IH]; intros d x; [reflexivity|].
  rewrite last_cons_cons, (IH d y), (IH x y). reflexivity.
Qed.

Lemma turns_app d ds1 ds2 :
  turns d ds1 -> turns (default d (last ds1)) ds2 -> turns d (ds1 ++ ds2).
Proof.
  revert d. induction ds1 as [|d1 ds1 IH]; intros d H1 H2; [exact H2|].
  destruct H1 as [Ht H1]. split; [exact Ht|]. apply IH; [exact H1|].
  rewrite default_last_cons in H2. exact H2.
Qed.

Lemma turns_replicate d x k : turn d x -> turns d (replicate k x).
Proof.
  intros H. destruct k as [|k]; [exact I|]. split; [exact H|].
  induction k as [|k IH]; [exact I|]. split; [left; reflexivity|exact IH].
Qed.

Lemma last_replicate {X} (x : X) k : last (replicate (S k) x) = Some x.
Proof.
  induction k as [|k IH]; [reflexivity|].
  change (replicate (S (S k)) x) with (x :: replicate (S k) x).
  rewrite last_cons, IH. reflexivity.
Qed.

Lemma replicate_O {X} (x : X) : replicate 0 x = [].
Proof. reflexivity. Qed.

(** A ring entered with a step that allows going right: its steps turn
    clockwise only, and a ring of side at least 3 is left going up. *)
Lemma ring_turns n l d :
  0 < n - 2 * l -> turn d go_right ->
  turns d (ring_steps n l) /\
  (3 <= n - 2 * l -> last (ring_steps n l) = Some go_up).
Proof.
  intros Hside Hd. unfold ring_steps. cbn zeta.
  destruct (Z.to_nat (n - 2 * l)) as [|k1] eqn:E1; [lia|].
  destruct (Z.to_nat (n - 2 * l - 1)) as [|k2] eqn:E2.
  { replace (Z.to_nat (n - 2 * l - 2)) with 0%nat by lia.
    split; [|lia]. rewrite !replicate_O. cbn [app]. rewrite app_nil_r.
    apply turns_replicate, Hd. }
  destruct (Z.to_nat (n - 2 * l - 2)) as [|k3] eqn:E3.
  { split; [|lia]. rewrite !replicate_O, app_nil_r.
    apply turns_app; [apply turns_replicate, Hd|].
    rewrite last_replicate. cbn [default].
    apply turns_app; [apply turns_replicate; right; reflexivity|].
    rewrite last_replicate. cbn [default].
    apply turns_replicate. right. reflexivity. }
  split.
  - apply turns_app; [apply turns_replicate, Hd|].
    rewrite last_replicate. cbn [default].
    apply turns_app; [apply turns_replicate; right; reflexivity|].
    rewrite last_replicate. cbn [default].
    apply turns_app; [apply turns_replicate; right; reflexivity|].
    rewrite last_replicate. cbn [default].
    apply turns_replicate. right. reflexivity.
  - intros _. rewrite !last_app, last_replicate. reflexivity.
Qed.

Lemma rings_turns n : forall (k l : nat) d,
  (l + k)%nat = Z.to_nat ((n + 1) / 2) -> turn d go_right ->
  turns d (concat (map (fun l => ring_steps n (Z.of_nat l)) (seq l k))).
Proof.
  induction k as [|k IH]; intros l d Hk Hd; [exact I|].
  assert (Hside : 0 < n - 2 * Z.of_nat l).
  { pose proof (Z.mod_pos_bound (n + 1) 2 ltac:(lia)).
    pose proof (Z.div_mod (n + 1) 2 ltac:(lia)). lia. }
  cbn [seq map concat].
  destruct (ring_turns n (Z.of_nat l) d Hside Hd) as [Hring Hlast].
  apply turns_app; [exact Hring|].
  destruct k as [|k]; [exact I|].
  rewrite Hlast.
  - cbn [default]. apply IH; [lia|]. right. reflexivity.
  - pose proof (Z.mod_pos_bound (n + 1) 2 ltac:(lia)).
    pose proof (Z.div_mod (n + 1) 2 ltac:(lia)). lia.
Qed.

Lemma spiral_steps_turns n : turns go_right (spiral_steps n).
Proof. apply (rings_turns n _ 0%nat); [lia|left; reflexivity]. Qed.

Lemma length_rows (rs cs : list Z) :
  length (concat (map (fun r => map (fun c => (r, c)) cs) rs))
  = (length rs * length cs)%nat.
Proof.
  induction rs as [|r rs IH]; [reflexivity|].
  cbn [map concat length]. rewrite length_app, IH, length_map. reflexivity.
Qed.

Lemma length_all_cells n :
  length (all_cells n) = (Z.to_nat n * Z.to_nat n)%nat.
Proof.
  rewrite all_cells_rows, length_rows, length_zrange. reflexivity.
Qed.

Lemma length_spiral_cells n :
  0 <= n -> Z.of_nat (length (spiral_cells n)) = n * n.
Proof.
  intros Hn. rewrite (Permutation_length (spiral_cells_all_cells n)).
  rewrite length_all_cells. lia.
Qed.

(** C5. For every positive integer n, spiralMatrixc(n) returns an n x n
    matrix filled along the clockwise spiral from the top-left corner: the
    cells of the spiral are those of a walk that enters the square at its
    top-left corner moving right and whose every later step goes straight on
    or turns clockwise by a quarter turn; the walk passes through every cell
    of the square exactly once; its k-th cell holds k (counting from 1); and
    so every integer from 1 to n^2 is held by exactly one cell.
    spiralMatrixc(3) is [[1,2,3],[8,9,4],[7,6,5]]. *)
Theorem spiralMatrixc_correct :
  (forall n : Z, 0 < n ->
     exists M : matrix,
       spiralMatrixc n = Ok M /\
       is_square n M /\
       spiral_cells n !! 0%nat = Some (0, 0) /\
       (exists steps, spiral_cells n = trace (0, -1) steps /\
                      turns go_right steps) /\
       spiral_cells n ≡ₚ all_cells n /\
       (forall (k : nat) p,
          spiral_cells n !! k = Some p -> at_cell M p = Some (Z.of_nat k + 1)) /\
       (forall v, 1 <= v <= n * n ->
          exists p, at_cell M p = Some v /\
                    forall q, at_cell M q = Some v -> q = p)) /\
  (exists M : matrix,
     spiralMatrixc 3 = Ok M /\
     to_rows 3 M = Some [[1; 2; 3]; [8; 9; 4]; [7; 6; 5]]).
Proof.
  split; [|eexists; split; vm_compute; reflexivity].
  intros n Hn. eexists. split; [apply spiralMatrixc_cells, Hn|].
  set (M := (write_cells (spiral_cells n) (zeros n, 1)).1).
  assert (Hsq : is_square n M).
  { apply write_cells_square; [apply zeros_square|].
    intros p. apply elem_of_spiral_cells. }
  assert (Hnth : forall (k : nat) p,
            spiral_cells n !! k = Some p -> at_cell M p = Some (Z.of_nat k + 1)).
  { intros k p Hk. unfold M.
    rewrite (write_cells_nth _ _ _ k p (NoDup_spiral_cells n)); [f_equal; lia| |exact Hk].
    intros q Hq. apply (zeros_square n). apply elem_of_spiral_cells in Hq. tauto. }
  split; [exact Hsq|]. split.
  { assert (H0 : (0, 0) ∈ ring n 0) by (apply elem_of_ring; cbn [fst snd]; lia).
    unfold spiral_cells.
    destruct (Z.to_nat ((n + 1) / 2)) as [|R] eqn:ER.
    - pose proof (Z.mod_pos_bound (n + 1) 2 ltac:(lia)).
      pose proof (Z.div_mod (n + 1) 2 ltac:(lia)). lia.
    - cbn [seq map concat]. change (Z.of_nat 0) with 0.
      unfold ring. replace (Z.to_nat (n - 2 * 0)) with (S (Z.to_nat (n - 1))) by lia.
      rewrite zrange_S. reflexivity. }
  split.
  { exists (spiral_steps n).
    split; [apply spiral_cells_trace|apply spiral_steps_turns]. }
  split; [apply spiral_cells_all_cells|]. split; [exact Hnth|].
  intros v Hv.
  pose proof (length_spiral_cells n ltac:(lia)) as Hlen.
  destruct (lookup_lt_is_Some_2 (spiral_cells n) (Z.to_nat (v - 1)) ltac:(lia))
    as [p Hp].
  exists p. split.
  - rewrite (Hnth _ _ Hp). f_equal. lia.
  - intros q Hq.
    assert (Hin : q ∈ spiral_cells n).
    { apply elem_of_spiral_cells. unfold at_cell in Hq.
      destruct (M !! q.1) as [rw|] eqn:E; [|discriminate]. cbn in Hq.
      destruct Hsq as [Hr Hc]. split.
      - apply Hr. eexists; exact E.
      - apply (Hc _ _ q.2 E). eexists; exact Hq. }
    apply list_elem_of_lookup in Hin as [k Hk].
    pose proof (Hnth _ _ Hk) as Hq'. rewrite Hq in Hq'. injection Hq' as Hv'.
    assert (k = Z.to_nat (v - 1)) as -> by lia. congruence.
Qed.

Lemma spiralMatrixc_correct_witness :
  exists M : matrix,
    spiralMatrixc 2 = Ok M /\
    is_square 2 M /\
    spiral_cells 2 !! 0%nat = Some (0, 0) /\
    (exists steps, spiral_cells 2 = trace (0, -1) steps /\
                   turns go_right steps) /\
    spiral_cells 2 ≡ₚ all_cells 2 /\
    (forall (k : nat) p,
       spiral_cells 2 !! k = Some p -> at_cell M p = Some (Z.of_nat k + 1)) /\
    (forall v, 1 <= v <= 2 * 2 ->
       exists p, at_cell M p = Some v /\
                 forall q, at_cell M q = Some v -> q = p).
Proof.
  apply (proj1 spiralMatrixc_correct 2). lia.
Defined.

End SpiralProofs.

Section RiskProofs.
Import Risk Range64.
Local Open Scope Qc_scope.

Lemma eps_pos : 0 < eps.
Proof. reflexivity. Qed.

Lemma py_min_le_r a b : py_min a b <= b.
Proof.
  unfold py_min. case_decide as H; [apply Qcle_refl|].
  apply Qcnot_lt_le, H.
Qed.

Lemma py_min_pos a b : 0 < a -> 0 < b -> 0 < py_min a b.
Proof. unfold py_min. case_decide; auto. Qed.

Lemma py_min_nonneg a b : 0 <= a -> 0 <= b -> 0 <= py_min a b.
Proof. unfold py_min. case_decide; auto. Qed.

Lemma smallest_normal_pos : 0 < smallest_normal.
Proof. reflexivity. Qed.

(** C10 (amended).  For every non-negative (finite) realized_vol the division
    in size_position has a nonzero divisor and the size returned is at most
    max_position; it is non-negative when vol_target and max_position are;
    and it is strictly positive when max_position is positive and the
    quotient vol_target / (realized_vol + 1e-8) is at least 2^-1022, the
    smallest normal binary64 number, so that it does not underflow. *)
Theorem size_position_bounds (self : RiskManager) (realized_vol : Qc) :
  0 <= realized_vol ->
  exists size,
    size_position self realized_vol = Some size /\
    size <= max_position self /\
    (0 <= vol_target self -> 0 <= max_position self -> 0 <= size) /\
    (0 < max_position self ->
     smallest_normal <= vol_target self / (realized_vol + eps) ->
     0 < size).
Proof.
  intros Hvol.
  assert (Hpos : 0 < realized_vol + eps)
    by (apply Qcplus_nonneg_pos; [exact Hvol|exact eps_pos]).
  unfold size_position, py_div.
  rewrite decide_False by (intros E; rewrite E in Hpos; discriminate Hpos).
  cbn [mbind option_bind]. eexists. split; [reflexivity|].
  split; [apply py_min_le_r|]. split.
  - intros Ht Hm. apply py_min_nonneg; [|exact Hm].
    unfold Qcdiv. replace 0 with (0 * / (realized_vol + eps)) by ring.
    apply Qcmult_le_compat_r; [exact Ht|].
    apply Qclt_le_weak, Qcinv_pos, Hpos.
  - intros Hm Hq. apply py_min_pos; [|exact Hm].
    eapply Qclt_le_trans; [exact smallest_normal_pos|exact Hq].
Qed.

Lemma size_position_bounds_witness :
  exists size,
    size_position default_manager 0 = Some size /\
    size <= max_position default_manager /\
    (0 <= vol_target default_manager -> 0 <= max_position default_manager ->
     0 <= size) /\
    (0 < max_position default_manager ->
     smallest_normal <= vol_target default_manager / (0 + eps) ->
     0 < size).
Proof.
  apply (size_position_bounds default_manager 0). vm_compute. discriminate.
Defined.

End RiskProofs.

Section BlackScholesProofs.
Import BlackScholes.

(** C7 (evaluation of the code).  Whatever the float arithmetic is,
    black_scholes does not depend on its strike argument X: with the global
    name K bound it returns the closed form for the strike K, for every X,
    and with K unbound it raises NameError. *)
Theorem black_scholes_ignores_X :
  forall (num : Type) (add sub mul div pow : num -> num -> num)
         (neg np_log np_sqrt np_exp : num -> num)
         (norm_cdf : num -> num -> num -> num)
         (lit_0_5 lit_2 lit_0_0 lit_1_0 : num),
    let bs := black_scholes num add sub mul div pow neg np_log np_sqrt np_exp
                norm_cdf lit_0_5 lit_2 lit_0_0 lit_1_0 in
    let cf := closed_form num add sub mul div pow neg np_log np_sqrt np_exp
                norm_cdf lit_0_5 lit_2 lit_0_0 lit_1_0 in
    (forall K S X T r sigma ty,
       bs (Some K) S X T r sigma ty = Value (cf S K T r sigma ty)) /\
    (forall K S X X' T r sigma ty,
       bs (Some K) S X T r sigma ty = bs (Some K) S X' T r sigma ty) /\
    (forall S X T r sigma ty, bs None S X T r sigma ty = NameError).
Proof.
  intros. split; [|split].
  - intros K S X T r sigma ty. unfold bs, cf, black_scholes, closed_form.
    destruct (String.eqb ty "call"); reflexivity.
  - reflexivity.
  - reflexivity.
Qed.

End BlackScholesProofs.

Section MonteCarloProofs.
Import MonteCarlo.

(** C8. monte_carlo_option returns the same price from every state of the
    random generator: two calls with identical arguments return the same
    price whatever is drawn from the generator between them. *)
Theorem monte_carlo_option_deterministic :
  forall (num : Type) (add sub mul pow : num -> num -> num)
         (neg np_sqrt : num -> num) (fmax : num -> num -> num)
         (np_mean : list num -> num) (np_exp : num -> num)
         (lit_0_5 lit_2 lit_0 : num)
         (rng : Type) (seed_state : Z -> rng)
         (draw_standard_normal : nat -> rng -> list num * rng),
    let mc := monte_carlo_option num add sub mul pow neg np_sqrt fmax np_mean
                np_exp lit_0_5 lit_2 lit_0 rng seed_state draw_standard_normal in
    forall S K T r sigma num_simulations option_type,
      (forall s1 s2 : rng,
         fst (mc S K T r sigma num_simulations option_type s1)
         = fst (mc S K T r sigma num_simulations option_type s2)) /\
      (forall (between : State rng unit) (s0 : rng),
         let '(price1, s1) := mc S K T r sigma num_simulations option_type s0 in
         let '(_, s2) := between s1 in
         let '(price2, _) := mc S K T r sigma num_simulations option_type s2 in
         price1 = price2).
Proof.
  intros. split.
  - intros s1 s2. reflexivity.
  - intros between s0.
    unfold mc, monte_carlo_option, st_bind, st_ret, np_random_seed,
      np_random_standard_normal.
    destruct (draw_standard_normal num_simulations (seed_state 42)) as [Z s'].
    destruct (between s') as [u s2]. reflexivity.
Qed.

End MonteCarloProofs.

Section OutcomeProofs.

Context {E : Type}.

Lemma bind_Ok {A B} (a : A) (f : A -> result E B) : (Ok a ≫= f) = f a.
Proof. reflexivity. Qed.

Lemma holds_bind {A B} (allowed : E -> Prop) (P : A -> Prop) (Q : B -> Prop)
    (m : result E A) (f : A -> result E B) :
  holds allowed P m ->
  (forall a, P a -> holds allowed Q (f a)) ->
  holds allowed Q (m ≫= f).
Proof. destruct m as [a|e]; simpl; auto. Qed.

Lemma holds_mono {A} (allowed allowed' : E -> Prop) (P Q : A -> Prop)
    (m : result E A) :
  holds allowed P m ->
  (forall e, allowed e -> allowed' e) ->
  (forall a, P a -> Q a) ->
  holds allowed' Q m.
Proof. destruct m as [a|e]; simpl; auto. Qed.

Lemma holds_never {A} (P : A -> Prop) (m : result E A) :
  holds never P m <-> exists a, m = Ok a /\ P a.
Proof.
  destruct m as [a|e]; simpl; split.
  - intros H. exists a. auto.
  - intros (a' & [= <-] & H). exact H.
  - intros [].
  - intros (a' & [=] & _).
Qed.

(** A loop over [start, start + len) keeps an invariant indexed by the
    loop counter. *)
Lemma holds_foldM_seq {B} (allowed : E -> Prop) (I : nat -> B -> Prop)
    (f : B -> nat -> result E B) (len : nat) :
  forall (start : nat) (b : B),
    I start b ->
    (forall k b, (start <= k < start + len)%nat -> I k b ->
       holds allowed (I (S k)) (f b k)) ->
    holds allowed (I (start + len)%nat) (foldM f (seq start len) b).
Proof.
  induction len as [|len IH]; intros start b Hb Hstep.
  - simpl. rewrite Nat.add_0_r. exact Hb.
  - cbn [seq foldM]. apply (holds_bind _ (I (S start))).
    + apply Hstep; [lia|exact Hb].
    + intros b' Hb'. replace (start + S len)%nat with (S start + len)%nat by lia.
      apply IH; [exact Hb'|]. intros k b'' Hk. apply Hstep. lia.
Qed.

(** The same for a loop that runs from [n - 1] down to 0. *)
Lemma holds_foldM_rev_seq {B} (allowed : E -> Prop) (I : nat -> B -> Prop)
    (f : B -> nat -> result E B) (n : nat) :
  forall b : B,
    I n b ->
    (forall k b, (k < n)%nat -> I (S k) b -> holds allowed (I k) (f b k)) ->
    holds allowed (I 0%nat) (foldM f (rev (seq 0 n)) b).
Proof.
  induction n as [|n IH]; intros b Hb Hstep.
  - exact Hb.
  - rewrite seq_S, rev_app_distr. cbn [rev app foldM Nat.add].
    apply (holds_bind _ (I n)).
    + apply Hstep; [lia|exact Hb].
    + intros b' Hb'. apply IH; [exact Hb'|]. intros k b'' Hk. apply Hstep. lia.
Qed.

End OutcomeProofs.

Section NumpyProofs.
Import Numpy.
Local Open Scope Qc_scope.

(** ** Sums *)

Lemma np_sum_app a b : np_sum (a ++ b) = np_sum a + np_sum b.
Proof.
  induction a as [|x a IH].
  - change (np_sum ([] ++ b)) with (np_sum b). change (np_sum []) with 0. ring.
  - change (np_sum ((x :: a) ++ b)) with (x + np_sum (a ++ b)).
    change (np_sum (x :: a)) with (x + np_sum a). rewrite IH. ring.
Qed.

Lemma np_sum_cons x a : np_sum (x :: a) = x + np_sum a.
Proof. reflexivity. Qed.

Lemma np_sum_nil : np_sum [] = 0.
Proof. reflexivity. Qed.

Lemma sum_n_S n f : sum_n (S n) f = sum_n n f + f n.
Proof.
  unfold sum_n. rewrite seq_S, map_app, np_sum_app. cbn [map Nat.add].
  rewrite np_sum_cons, np_sum_nil. ring.
Qed.

Lemma sum_n_0 f : sum_n 0 f = 0.
Proof. reflexivity. Qed.

Lemma sum_n_ext n f g :
  (forall i, (i < n)%nat -> f i = g i) -> sum_n n f = sum_n n g.
Proof.
  induction n as [|n IH]; intros H; [reflexivity|].
  rewrite !sum_n_S, IH, (H n) by (intros; try apply H; lia). reflexivity.
Qed.

Lemma sum_n_zero n : sum_n n (fun _ => 0) = 0.
Proof.
  induction n as [|n IH]; [reflexivity|]. rewrite sum_n_S, IH. ring.
Qed.

Lemma sum_n_plus n f g :
  sum_n n (fun i => f i + g i) = sum_n n f + sum_n n g.
Proof.
  induction n as [|n IH]; [rewrite !sum_n_0; ring|]. rewrite !sum_n_S, IH. ring.
Qed.

Lemma sum_n_mul_r n f c : sum_n n (fun i => f i * c) = sum_n n f * c.
Proof.
  induction n as [|n IH]; [rewrite !sum_n_0; ring|]. rewrite !sum_n_S, IH. ring.
Qed.

Lemma sum_n_mul_l n f c : sum_n n (fun i => c * f i) = c * sum_n n f.
Proof.
  induction n as [|n IH]; [rewrite !sum_n_0; ring|]. rewrite !sum_n_S, IH. ring.
Qed.

Lemma sum_n_swap n m (F : nat -> nat -> Qc) :
  sum_n n (fun i => sum_n m (fun j => F i j))
  = sum_n m (fun j => sum_n n (fun i => F i j)).
Proof.
  induction n as [|n IH].
  - rewrite sum_n_0. symmetry. apply sum_n_zero.
  - rewrite sum_n_S, IH, <- sum_n_plus. apply sum_n_ext. intros j _.
    rewrite sum_n_S. reflexivity.
Qed.

Lemma at1_lookup a i x : a !! i = Some x -> at1 a i = x.
Proof. unfold at1. intros ->. reflexivity. Qed.

Lemma at1_ge a i : (length a <= i)%nat -> at1 a i = 0.
Proof. intros H. unfold at1. rewrite lookup_ge_None_2 by exact H. reflexivity. Qed.

Lemma np_sum_at1 a : np_sum a = sum_n (length a) (at1 a).
Proof.
  induction a as [|x a IH] using rev_ind; [reflexivity|].
  rewrite np_sum_app, length_app, Nat.add_1_r, sum_n_S.
  rewrite np_sum_cons, np_sum_nil, IH. f_equal.
  - apply sum_n_ext. intros i Hi. unfold at1.
    rewrite lookup_app_l by exact Hi. reflexivity.
  - unfold at1. rewrite lookup_app_r, Nat.sub_diag by lia.
    change (default 0 ([x] !! 0%nat)) with x. ring.
Qed.

Lemma at1_zip_with f a b i :
  (i < length a)%nat -> (i < length b)%nat ->
  at1 (zip_with f a b) i = f (at1 a i) (at1 b i).
Proof.
  intros Ha Hb. unfold at1.
  destruct (lookup_lt_is_Some_2 a i Ha) as [x Hx].
  destruct (lookup_lt_is_Some_2 b i Hb) as [y Hy].
  rewrite lookup_zip_with, Hx, Hy. reflexivity.
Qed.

Lemma at1_map f a i :
  (i < length a)%nat -> at1 (map f a) i = f (at1 a i).
Proof.
  intros Ha. unfold at1.
  destruct (lookup_lt_is_Some_2 a i Ha) as [x Hx].
  change (map f a) with (f <$> a). rewrite list_lookup_fmap, Hx. reflexivity.
Qed.

Lemma at1_map_lookup {X} (f : X -> Qc) (l : list X) i x :
  l !! i = Some x -> at1 (map f l) i = f x.
Proof.
  intros H. unfold at1. change (map f l) with (f <$> l).
  rewrite list_lookup_fmap, H. reflexivity.
Qed.

Lemma entry_lookup m i j row : m !! i = Some row -> entry m i j = at1 row j.
Proof. unfold entry. intros ->. reflexivity. Qed.

Lemma np_sum_zip_with_mul a b :
  length a = length b ->
  np_sum (zip_with Qcmult a b) = sum_n (length a) (fun i => at1 a i * at1 b i).
Proof.
  intros H. rewrite np_sum_at1, length_zip_with, <- H, Nat.min_id.
  apply sum_n_ext. intros i Hi. apply at1_zip_with; lia.
Qed.

Lemma np_sum_map_div a s : np_sum (map (fun x => x / s) a) = np_sum a / s.
Proof.
  induction a as [|x a IH]; cbn [map].
  - rewrite np_sum_nil. unfold Qcdiv. ring.
  - rewrite !np_sum_cons, IH. unfold Qcdiv. ring.
Qed.

(** ** Reads and writes that succeed *)

Lemma index_ok {A} (a : list A) i x : a !! i = Some x -> index a i = Ok x.
Proof. unfold index. intros ->. reflexivity. Qed.

Lemma setitem_ok {A} (a : list A) i x :
  (i < length a)%nat -> setitem a i x = Ok (<[i := x]> a).
Proof. intros H. unfold setitem. rewrite decide_True by exact H. reflexivity. Qed.

Lemma vmul_ok a b :
  length a = length b -> vmul a b = Ok (zip_with Qcmult a b).
Proof. intros H. unfold vmul. rewrite decide_True by exact H. reflexivity. Qed.

Lemma dot_ok a b :
  length a = length b -> dot a b = Ok (np_sum (zip_with Qcmult a b)).
Proof. intros H. unfold dot. rewrite decide_True by exact H. reflexivity. Qed.

Lemma setrow_ok m i row v :
  m !! i = Some row -> length v = length row ->
  setrow m i v = Ok (<[i := v]> m).
Proof.
  intros Hi Hv. unfold setrow. rewrite (index_ok _ _ _ Hi). cbn [mbind result_bind].
  rewrite decide_True by exact Hv. apply setitem_ok.
  apply lookup_lt_Some in Hi. exact Hi.
Qed.

Lemma setitem2_ok m i j row x :
  m !! i = Some row -> (j < length row)%nat ->
  setitem2 m i j x = Ok (<[i := <[j := x]> row]> m).
Proof.
  intros Hi Hj. unfold setitem2. rewrite (index_ok _ _ _ Hi).
  cbn [mbind result_bind]. rewrite (setitem_ok _ _ _ Hj).
  cbn [mbind result_bind]. apply setitem_ok.
  apply lookup_lt_Some in Hi. exact Hi.
Qed.

Lemma column_ok m j :
  Forall (fun row => (j < length row)%nat) m ->
  column m j = Ok (map (fun row => at1 row j) m).
Proof.
  unfold column. induction 1 as [|row m Hrow _ IH]; [reflexivity|].
  cbn [mapM_r map]. destruct (lookup_lt_is_Some_2 row j Hrow) as [x Hx].
  rewrite (index_ok _ _ _ Hx). cbn [mbind result_bind]. rewrite IH.
  cbn [mbind result_bind]. rewrite (at1_lookup _ _ _ Hx). reflexivity.
Qed.

Lemma shape_column r c m j :
  shape r c m -> (j < c)%nat ->
  column m j = Ok (map (fun row => at1 row j) m).
Proof.
  intros [_ H] Hj. apply column_ok. eapply Forall_impl; [exact H|].
  intros row Hrow. simpl in Hrow. lia.
Qed.

Lemma at1_column m j i : at1 (map (fun row => at1 row j) m) i = entry m i j.
Proof.
  unfold entry, at1 at 1. change (map ?f m) with (f <$> m).
  rewrite list_lookup_fmap. destruct (m !! i); reflexivity.
Qed.

(** ** Shapes *)

Lemma shape_lookup r c m i :
  shape r c m -> (i < r)%nat -> exists row, m !! i = Some row /\ length row = c.
Proof.
  intros [Hl Hrows] Hi. destruct (lookup_lt_is_Some_2 m i ltac:(lia)) as [row Hrow].
  exists row. split; [exact Hrow|].
  eapply (proj1 (Forall_lookup _ _) Hrows). exact Hrow.
Qed.

Lemma shape_full2 r c x : shape r c (full2 r c x).
Proof.
  unfold shape, full2. split; [apply length_replicate|].
  apply Forall_replicate. apply length_replicate.
Qed.

Lemma shape_insert r c m i row :
  shape r c m -> length row = c -> shape r c (<[i := row]> m).
Proof.
  intros [Hl Hrows] Hrow. split; [rewrite length_insert; exact Hl|].
  apply Forall_insert; assumption.
Qed.

Lemma entry_insert m i j row x s j' :
  m !! i = Some row -> (j < length row)%nat ->
  entry (<[i := <[j := x]> row]> m) s j'
  = if decide (s = i /\ j' = j) then x else entry m s j'.
Proof.
  intros Hi Hj. unfold entry.
  assert (Hlt : (i < length m)%nat) by (eapply lookup_lt_Some; exact Hi).
  destruct (decide (s = i)) as [->|Hs].
  - rewrite list_lookup_insert_eq by exact Hlt. rewrite Hi. unfold at1.
    destruct (decide (j' = j)) as [->|Hj'].
    + rewrite list_lookup_insert_eq by exact Hj.
      rewrite decide_True by auto. reflexivity.
    + rewrite list_lookup_insert_ne by congruence.
      rewrite decide_False by tauto. reflexivity.
  - rewrite list_lookup_insert_ne by congruence.
    rewrite decide_False by tauto. reflexivity.
Qed.

End NumpyProofs.

Section ForwardProofs.
Import Numpy HMM.
Local Open Scope Qc_scope.

Lemma index2_ok r c m i j :
  shape r c m -> (i < r)%nat -> (j < c)%nat ->
  index2 m i j = Ok (entry m i j).
Proof.
  intros Hm Hi Hj. destruct (shape_lookup r c m i Hm Hi) as (row & Hrow & Hlen).
  destruct (lookup_lt_is_Some_2 row j ltac:(lia)) as [x Hx].
  unfold index2, entry. rewrite (index_ok _ _ _ Hrow), Hrow.
  cbn [mbind result_bind]. rewrite (index_ok _ _ _ Hx), (at1_lookup _ _ _ Hx).
  reflexivity.
Qed.

Variable self : HiddenMarkovModel.
Variable observations : list nat.

Let N := num_hidden_states self.
Let M := num_observation_bins self.
Let T := length observations.
Let obs (t : nat) : nat := nth t observations 0%nat.

Hypothesis Hself : well_shaped self.
Hypothesis Hobs : Forall (fun o => (o < M)%nat) observations.

Lemma obs_lookup t : (t < T)%nat -> observations !! t = Some (obs t).
Proof.
  intros Ht. unfold obs. destruct (lookup_lt_is_Some_2 observations t Ht) as [o Ho].
  rewrite Ho. f_equal. symmetry. apply nth_lookup_Some with (d := 0%nat) in Ho.
  exact Ho.
Qed.

Lemma obs_bin t : (t < T)%nat -> (obs t < M)%nat.
Proof.
  intros Ht. eapply (proj1 (Forall_lookup _ _) Hobs). apply obs_lookup, Ht.
Qed.

(** The value the loop body stores in [alpha[t, j]]. *)
Lemma forward_cell_ok alpha t j row :
  shape T N alpha -> (1 <= t < T)%nat -> (j < N)%nat ->
  alpha !! t = Some row ->
  forward_cell self observations t alpha j
  = Ok (<[t := <[j := sum_n N (fun i => entry alpha (t - 1) i * A self i j)
                       * B self j (obs t)]> row]> alpha).
Proof.
  intros Halpha Ht Hj Hrow.
  destruct Hself as (HA & HB & Hpi). fold N M in HA, HB, Hpi.
  destruct (shape_lookup T N alpha (t - 1) Halpha ltac:(lia))
    as (prev & Hprev & Hprevlen).
  assert (Hrowlen : length row = N).
  { destruct (shape_lookup T N alpha t Halpha ltac:(lia)) as (row' & Hr' & Hl').
    congruence. }
  unfold forward_cell.
  rewrite (index_ok _ _ _ Hprev). cbn [mbind result_bind].
  rewrite (shape_column N N _ j HA Hj). cbn [mbind result_bind].
  rewrite vmul_ok by (rewrite length_map; destruct HA; lia).
  cbn [mbind result_bind].
  rewrite (index_ok _ _ _ (obs_lookup t ltac:(lia))). cbn [mbind result_bind].
  rewrite (index2_ok N M _ j (obs t) HB Hj (obs_bin t ltac:(lia))).
  cbn [mbind result_bind].
  rewrite (setitem2_ok _ _ _ row _ Hrow) by lia. do 4 f_equal.
  rewrite np_sum_zip_with_mul by (rewrite length_map; destruct HA; lia).
  rewrite Hprevlen. apply sum_n_ext. intros i Hi.
  rewrite at1_column. unfold entry at 2. rewrite Hprev. reflexivity.
Qed.

Let filled_below := filled_below self observations.

Lemma forward_row_ok alpha t :
  (1 <= t < T)%nat -> filled_below t alpha ->
  holds never (filled_below (S t)) (forward_row self observations alpha t).
Proof.
  intros Ht [Hshape Hbelow]. unfold forward_row. fold N.
  pose (J := fun (j : nat) (alpha : array2) =>
               filled_below t alpha /\
               forall j', (j' < j)%nat ->
                 entry alpha t j' = forward_var self obs t j').
  apply (holds_mono never never (J N)); [|auto|].
  - apply (holds_foldM_seq never J _ N 0%nat alpha).
    + split; [split; assumption|]. intros j' Hj'. lia.
    + intros j a Hj [[Ha Hlow] Hcur].
      destruct (shape_lookup T N a t Ha ltac:(lia)) as (row & Hrow & Hlen).
      rewrite (forward_cell_ok a t j row Ha Ht ltac:(lia) Hrow).
      cbn [holds]. split; [split|].
      * apply shape_insert; [exact Ha|]. rewrite length_insert. exact Hlen.
      * intros s j' Hs Hj'. rewrite (entry_insert _ _ _ row) by (auto; lia).
        rewrite decide_False by lia. apply Hlow; assumption.
      * intros j' Hj'. rewrite (entry_insert _ _ _ row) by (auto; lia).
        case_decide as Hd.
        -- destruct Hd as [_ ->]. destruct t as [|t']; [lia|].
           cbn [forward_var]. fold N. f_equal.
           apply sum_n_ext. intros i Hi. f_equal.
           replace (S t' - 1)%nat with t' by lia. apply Hlow; lia.
        -- apply Hcur. lia.
  - intros a [[Ha Hlow] Hcur]. split; [exact Ha|].
    intros s j Hs Hj. destruct (decide (s = t)) as [->|Hne].
    + apply Hcur, Hj.
    + apply Hlow; lia.
Qed.

Lemma forward_ok :
  observations <> [] ->
  holds never (filled_below T) (forward self observations).
Proof.
  intros Hne.
  assert (HT : (0 < T)%nat)
    by (unfold T; destruct observations; [congruence|simpl; lia]).
  destruct Hself as (HA & HB & Hpi). fold N M in HA, HB, Hpi.
  unfold forward. fold T N.
  rewrite (index_ok _ _ _ (obs_lookup 0 HT)). cbn [mbind result_bind].
  rewrite (shape_column N M _ (obs 0%nat) HB (obs_bin 0 HT)).
  cbn [mbind result_bind].
  rewrite vmul_ok by (rewrite length_map; destruct HB; lia).
  cbn [mbind result_bind].
  pose proof (shape_full2 T N 0) as Hz.
  destruct (shape_lookup T N _ 0 Hz HT) as (row & Hrow & Hlen).
  rewrite (setrow_ok _ _ row) by
    (auto; rewrite length_zip_with, length_map; destruct HB; lia).
  cbn [mbind result_bind].
  eapply holds_mono;
    [apply (holds_foldM_seq never filled_below _ (T - 1) 1%nat)
    |auto
    |intros a Ha; replace (1 + (T - 1))%nat with T in Ha by lia; exact Ha].
  - split.
    + apply shape_insert; [exact Hz|].
      rewrite length_zip_with, length_map. destruct HB. lia.
    + intros s j Hs Hj. assert (s = 0%nat) as -> by lia.
      unfold entry. rewrite list_lookup_insert_eq by (destruct Hz; lia).
      rewrite at1_zip_with by (rewrite ?length_map; destruct HB; lia).
      rewrite at1_column. reflexivity.
  - intros t alpha Ht Ha. apply forward_row_ok; [lia|exact Ha].
Qed.

(** The forward variables are the joint probabilities. *)
Lemma np_sum_bind {X} (f : X -> list Qc) (l : list X) :
  np_sum (l ≫= f) = np_sum (map (fun x => np_sum (f x)) l).
Proof.
  induction l as [|x l IH]; [reflexivity|].
  rewrite bind_cons, np_sum_app, IH. reflexivity.
Qed.

Lemma np_sum_map_mul_r {X} (f : X -> Qc) (c : Qc) (l : list X) :
  np_sum (map (fun x => f x * c) l) = np_sum (map f l) * c.
Proof.
  induction l as [|x l IH]; cbn [map].
  - rewrite np_sum_nil. ring.
  - rewrite !np_sum_cons, IH. ring.
Qed.

Lemma map_bind {X Y Z} (g : Y -> Z) (f : X -> list Y) (l : list X) :
  map g (l ≫= f) = l ≫= (fun x => map g (f x)).
Proof.
  induction l as [|x l IH]; [reflexivity|].
  rewrite !bind_cons, map_app, IH. reflexivity.
Qed.

Lemma forward_var_joint_prob t : forall j,
  forward_var self obs t j = joint_prob self obs t j.
Proof.
  induction t as [|t IH]; intros j.
  - unfold joint_prob. cbn [runs map forward_var run_prob].
    rewrite np_sum_cons, np_sum_nil. ring.
  - unfold joint_prob. cbn [runs forward_var]. fold N.
    rewrite map_bind, np_sum_bind. unfold sum_n.
    rewrite <- np_sum_map_mul_r. f_equal. apply map_ext. intros i.
    rewrite IH. unfold joint_prob. fold N.
    rewrite map_map, <- !np_sum_map_mul_r. f_equal.
Qed.

End ForwardProofs.

Section ForwardTheorem.
Import Numpy HMM.
Local Open Scope Qc_scope.

(** C2. For a model whose arrays have the shapes of __init__ and every
    non-empty observation sequence over the model's bins, forward returns an
    array alpha of one row per observation and one column per hidden state
    with alpha[0, j] = initial_probs[j] * emission_probs[j, o[0]] and, for
    t >= 1, alpha[t, j] = (sum over i of alpha[t-1, i] * transition_probs[i, j])
    * emission_probs[j, o[t]]; alpha[t, j] is the sum, over all runs of hidden
    states that end in j at time t, of the probability of the run together
    with the observations o[0..t]. *)
Theorem forward_correct (self : HiddenMarkovModel) (observations : list nat) :
  well_shaped self ->
  observations <> [] ->
  Forall (fun o => (o < num_observation_bins self)%nat) observations ->
  let N := num_hidden_states self in
  let T := length observations in
  let o := fun t => nth t observations 0%nat in
  exists alpha,
    forward self observations = Ok alpha /\
    shape T N alpha /\
    (forall j, (j < N)%nat ->
       entry alpha 0 j = pi self j * B self j (o 0%nat)) /\
    (forall t j, (1 <= t < T)%nat -> (j < N)%nat ->
       entry alpha t j
       = sum_n N (fun i => entry alpha (t - 1) i * A self i j) * B self j (o t)) /\
    (forall t j, (t < T)%nat -> (j < N)%nat ->
       entry alpha t j = joint_prob self o t j).
Proof.
  intros Hself Hne Hobs N T o.
  pose proof (forward_ok self observations Hself Hobs Hne) as H.
  apply holds_never in H as (alpha & Hrun & Hshape & Hval).
  exists alpha. split; [exact Hrun|]. split; [exact Hshape|].
  assert (HT : (0 < T)%nat)
    by (unfold T; destruct observations; [congruence|simpl; lia]).
  split; [|split].
  - intros j Hj. rewrite (Hval 0%nat j HT Hj). reflexivity.
  - intros t j Ht Hj. rewrite (Hval t j ltac:(lia) Hj).
    destruct t as [|t]; [lia|]. cbn [forward_var]. fold N. f_equal.
    apply sum_n_ext. intros i Hi. f_equal.
    replace (S t - 1)%nat with t by lia. symmetry. apply Hval; lia.
  - intros t j Ht Hj. rewrite (Hval t j Ht Hj).
    apply forward_var_joint_prob.
Qed.

Lemma forward_correct_witness :
  exists alpha,
    forward example_model [0; 1; 0]%nat = Ok alpha /\
    shape 3 2 alpha /\
    (forall j, (j < 2)%nat ->
       entry alpha 0 j = pi example_model j * B example_model j 0%nat) /\
    (forall t j, (1 <= t < 3)%nat -> (j < 2)%nat ->
       entry alpha t j
       = sum_n 2 (fun i => entry alpha (t - 1) i * A example_model i j)
         * B example_model j (nth t [0; 1; 0]%nat 0%nat)) /\
    (forall t j, (t < 3)%nat -> (j < 2)%nat ->
       entry alpha t j
       = joint_prob example_model (fun t => nth t [0; 1; 0]%nat 0%nat) t j).
Proof.
  apply (forward_correct example_model [0; 1; 0]%nat).
  - repeat split; repeat constructor.
  - discriminate.
  - repeat constructor.
Defined.

End ForwardTheorem.

Section ArrayProofs.
Import Numpy.
Local Open Scope Qc_scope.

Lemma shape_row r c m i row : shape r c m -> m !! i = Some row -> length row = c.
Proof.
  intros [_ H] Hi. eapply (proj1 (Forall_lookup _ _) H). exact Hi.
Qed.

Lemma mapM_r_ok {X Y} (f : X -> result Y) (g : X -> Y) (l : list X) :
  (forall x, x ∈ l -> f x = Ok (g x)) -> mapM_r f l = Ok (map g l).
Proof.
  induction l as [|x l IH]; intros H; [reflexivity|].
  cbn [mapM_r map]. rewrite (H x) by left. cbn [mbind result_bind].
  rewrite IH by (intros y Hy; apply H; right; exact Hy). reflexivity.
Qed.

Lemma dot_vm_ok r c a m :
  shape r c m -> length a = r -> (0 < r)%nat ->
  dot_vm a m
  = Ok (map (fun j => np_sum (zip_with Qcmult a (map (fun row => at1 row j) m)))
            (seq 0 c)).
Proof.
  intros Hm Ha Hr. unfold dot_vm.
  rewrite decide_True by (destruct Hm; lia).
  assert (ncols m = c) as ->.
  { destruct (shape_lookup r c m 0 Hm Hr) as (row & Hrow & Hlen).
    destruct m; [discriminate|]. injection Hrow as ->. exact Hlen. }
  apply mapM_r_ok. intros j Hj. apply elem_of_seq in Hj.
  rewrite (shape_column r c m j Hm ltac:(lia)). cbn [mbind result_bind].
  apply dot_ok. rewrite length_map. destruct Hm. lia.
Qed.

Lemma np_sum_map_lookup {X} (f : X -> Qc) (l : list X) :
  np_sum (map f l)
  = sum_n (length l) (fun i => match l !! i with Some x => f x | None => 0 end).
Proof.
  rewrite np_sum_at1, length_map. apply sum_n_ext. intros i Hi.
  unfold at1. change (map f l) with (f <$> l). rewrite list_lookup_fmap.
  destruct (l !! i); reflexivity.
Qed.

Lemma shape3_lookup n r c xi t :
  shape3 n r c xi -> (t < n)%nat -> exists m, xi !! t = Some m /\ shape r c m.
Proof.
  intros [Hl Hall] Ht.
  destruct (lookup_lt_is_Some_2 xi t ltac:(lia)) as [m Hm].
  exists m. split; [exact Hm|].
  eapply (proj1 (Forall_lookup _ _) Hall). exact Hm.
Qed.

Lemma shape3_insert n r c xi t m :
  shape3 n r c xi -> shape r c m -> shape3 n r c (<[t := m]> xi).
Proof.
  intros [Hl Hall] Hm. split; [rewrite length_insert; exact Hl|].
  apply Forall_insert; assumption.
Qed.

Lemma div_rows_sums r c m :
  shape r c m ->
  holds zero_div
    (fun m' => shape r c m' /\ Forall (fun row => np_sum row = 1) m')
    (div_rows m (sum_axis1 m)).
Proof.
  revert r. induction m as [|row m IH]; intros r [Hl Hall].
  - cbn. split; [split; [exact Hl|constructor]|constructor].
  - cbn [sum_axis1 map div_rows]. unfold vdiv.
    destruct (decide (np_sum row = 0)) as [Hz|Hnz]; [reflexivity|].
    cbn [mbind result_bind]. apply Forall_cons in Hall as [Hrow Hall].
    cbn [length] in Hl.
    apply (holds_bind zero_div
             (fun m' => shape (length m) c m' /\
                        Forall (fun row => np_sum row = 1) m')).
    + apply IH. split; [reflexivity|exact Hall].
    + intros m' [[Hl' Hall'] Hsum]. cbn [holds]. split; [split|].
      * cbn [length]. lia.
      * constructor; [rewrite length_map; exact Hrow|exact Hall'].
      * constructor; [|exact Hsum]. rewrite np_sum_map_div.
        apply Qcmult_inv_r, Hnz.
Qed.

Lemma shape_zip_with r c (m1 m2 : array2) :
  shape r c m1 -> shape r c m2 ->
  shape r c (zip_with (zip_with Qcplus) m1 m2).
Proof.
  intros [H1 F1] [H2 F2]. split; [rewrite length_zip_with; lia|].
  apply Forall_lookup. intros i row Hi.
  apply lookup_zip_with_Some in Hi as (r1 & r2 & -> & Hr1 & Hr2).
  rewrite length_zip_with.
  rewrite (proj1 (Forall_lookup _ _) F1 _ _ Hr1).
  rewrite (proj1 (Forall_lookup _ _) F2 _ _ Hr2). lia.
Qed.

Lemma shape_sum3_axis0 n r c xi :
  shape3 n r c xi -> shape r c (sum3_axis0 r c xi).
Proof.
  intros [_ Hall]. unfold sum3_axis0.
  induction Hall as [|m xi Hm _ IH]; cbn [foldr].
  - apply shape_full2.
  - apply shape_zip_with; assumption.
Qed.

Lemma length_sum_axis0 c (m : array2) :
  Forall (fun row => length row = c) m -> length (sum_axis0 c m) = c.
Proof.
  unfold sum_axis0. induction 1 as [|row m Hrow _ IH]; cbn [foldr].
  - apply length_replicate.
  - rewrite length_zip_with. lia.
Qed.

Lemma shape_sum3_axis2 n r c xi :
  shape3 n r c xi -> shape n r (sum3_axis2 xi).
Proof.
  intros [Hl Hall]. unfold sum3_axis2. split; [rewrite length_map; exact Hl|].
  apply Forall_fmap. eapply Forall_impl; [exact Hall|].
  intros m [Hm _]. cbn. unfold sum_axis1. rewrite length_map. exact Hm.
Qed.

Lemma setcolumn_rows_ok c j : forall (m : array2) (v : array1),
  Forall (fun row => length row = c) m -> length v = length m -> (j < c)%nat ->
  holds never
    (fun m' => length m' = length m /\ Forall (fun row => length row = c) m')
    (setcolumn_rows m j v).
Proof.
  induction m as [|row m IH]; intros v Hall Hv Hj.
  - cbn. split; [reflexivity|constructor].
  - destruct v as [|x v]; [discriminate|]. cbn [setcolumn_rows].
    apply Forall_cons in Hall as [Hrow Hall].
    rewrite setitem_ok by lia. cbn [mbind result_bind].
    eapply holds_bind; [apply (IH v Hall); [cbn in Hv; lia|exact Hj]|].
    intros m' [Hl' Hall']. cbn [holds]. split; [cbn [length]; lia|].
    constructor; [rewrite length_insert; exact Hrow|exact Hall'].
Qed.

Lemma never_zero_div {X} (P : X -> Prop) (r : result X) :
  holds never P r -> holds zero_div P r.
Proof. intros H. eapply holds_mono; [exact H|intros e []|auto]. Qed.

End ArrayProofs.

Section BaumWelchProofs.
Import Numpy HMM.
Local Open Scope Qc_scope.

Variable self : HiddenMarkovModel.
Variable observations : list nat.

Let N := num_hidden_states self.
Let M := num_observation_bins self.
Let T := length observations.
Let obs (t : nat) : nat := nth t observations 0%nat.

Hypothesis Hself : well_shaped self.
Hypothesis Hobs : Forall (fun o => (o < M)%nat) observations.
Hypothesis HN : (0 < N)%nat.

Lemma backward_cell_ok beta t i :
  shape T N beta -> (S t < T)%nat -> (i < N)%nat ->
  holds never (shape T N) (backward_cell self observations t beta i).
Proof.
  intros Hbeta Ht Hi.
  destruct Hself as (HA & HB & Hpi). fold N M in HA, HB, Hpi.
  destruct (shape_lookup N N _ i HA Hi) as (a_i & Ha_i & Hlen_a).
  destruct (shape_lookup T N beta (t + 1) Hbeta ltac:(lia))
    as (next & Hnext & Hlen_next).
  destruct (shape_lookup T N beta t Hbeta ltac:(lia)) as (row & Hrow & Hlen_row).
  unfold backward_cell.
  rewrite (index_ok _ _ _ Ha_i). cbn [mbind result_bind].
  rewrite (index_ok _ _ _ (obs_lookup observations (t + 1) ltac:(lia))).
  cbn [mbind result_bind].
  rewrite (shape_column N M _ _ HB
             (obs_bin self observations Hobs (t + 1) ltac:(lia))).
  cbn [mbind result_bind].
  rewrite vmul_ok by (rewrite length_map; destruct HB; lia).
  cbn [mbind result_bind].
  rewrite (index_ok _ _ _ Hnext). cbn [mbind result_bind].
  rewrite vmul_ok by (rewrite length_zip_with, length_map; destruct HB; lia).
  cbn [mbind result_bind].
  rewrite (setitem2_ok _ _ _ row _ Hrow) by lia. cbn [holds].
  apply shape_insert; [exact Hbeta|]. rewrite length_insert. exact Hlen_row.
Qed.

Lemma backward_ok :
  observations <> [] ->
  holds never (shape T N) (backward self observations).
Proof.
  intros Hne.
  assert (HT : (0 < T)%nat)
    by (unfold T; destruct observations; [congruence|simpl; lia]).
  unfold backward. fold T N. rewrite decide_False by lia.
  pose proof (shape_full2 T N 0) as Hz.
  destruct (shape_lookup T N _ (T - 1) Hz ltac:(lia)) as (row & Hrow & Hlen).
  rewrite (setrow_ok _ _ row) by (auto; rewrite length_replicate; lia).
  cbn [mbind result_bind].
  apply (holds_foldM_rev_seq never (fun _ => shape T N)).
  - apply shape_insert; [exact Hz|apply length_replicate].
  - intros t beta Ht Hbeta. unfold backward_row. fold N.
    eapply holds_mono;
      [apply (holds_foldM_seq never (fun _ => shape T N) _ N 0%nat beta Hbeta)
      |auto|auto].
    intros i b Hi Hb. apply backward_cell_ok; [exact Hb|lia|lia].
Qed.

(** The terms of the Baum-Welch numerator and its denominator. *)
Let term (alpha beta : array2) (t i j : nat) : Qc :=
  entry alpha t i * A self i j * B self j (obs (t + 1)) * entry beta (t + 1) j.

Lemma xi_denom_ok alpha beta t :
  shape T N alpha -> shape T N beta -> (S t < T)%nat ->
  xi_denom self observations alpha beta t
  = Ok (sum_n N (fun i => sum_n N (fun j => term alpha beta t i j))).
Proof.
  intros Halpha Hbeta Ht.
  destruct Hself as (HA & HB & Hpi). fold N M in HA, HB, Hpi.
  destruct (shape_lookup T N alpha t Halpha ltac:(lia)) as (a_t & Ha_t & Hlen_a).
  destruct (shape_lookup T N beta (t + 1) Hbeta ltac:(lia))
    as (next & Hnext & Hlen_next).
  unfold xi_denom.
  rewrite (index_ok _ _ _ Ha_t). cbn [mbind result_bind].
  rewrite (dot_vm_ok N N a_t _ HA Hlen_a HN). cbn [mbind result_bind].
  rewrite (index_ok _ _ _ (obs_lookup observations (t + 1) ltac:(lia))).
  cbn [mbind result_bind].
  rewrite (shape_column N M _ _ HB
             (obs_bin self observations Hobs (t + 1) ltac:(lia))).
  cbn [mbind result_bind].
  rewrite vmul_ok by (rewrite !length_map, length_seq; destruct HB; lia).
  cbn [mbind result_bind].
  rewrite (index_ok _ _ _ Hnext). cbn [mbind result_bind].
  rewrite dot_ok
    by (rewrite length_zip_with, !length_map, length_seq; destruct HB; lia).
  f_equal. rewrite np_sum_zip_with_mul
    by (rewrite length_zip_with, !length_map, length_seq; destruct HB; lia).
  rewrite length_zip_with, !length_map, length_seq.
  replace (N `min` length (emission_probs self))%nat with N
    by (destruct HB; lia).
  rewrite sum_n_swap. apply sum_n_ext. intros j Hj.
  rewrite at1_zip_with
    by (rewrite ?length_map, ?length_seq; destruct HB; lia).
  rewrite at1_column.
  rewrite (at1_map_lookup _ _ j j) by (apply lookup_seq_lt; lia).
  rewrite np_sum_zip_with_mul by (rewrite length_map; destruct HA; lia).
  rewrite Hlen_a, <- !sum_n_mul_r. apply sum_n_ext. intros i Hi.
  rewrite at1_column. unfold term, entry at 3 4, A, B.
  rewrite Ha_t, Hnext. reflexivity.
Qed.

Lemma xi_cell_ok alpha beta t denom xi i m :
  shape T N alpha -> shape T N beta -> (S t < T)%nat -> (i < N)%nat ->
  xi !! t = Some m -> shape N N m ->
  holds zero_div
    (fun xi' => denom <> 0 /\
       exists q, xi' = <[t := <[i := q]> m]> xi /\ length q = N /\
                 np_sum q = sum_n N (fun j => term alpha beta t i j) / denom)
    (xi_cell self observations alpha beta t denom xi i).
Proof.
  intros Halpha Hbeta Ht Hi Hm Hshape.
  destruct Hself as (HA & HB & Hpi). fold N M in HA, HB, Hpi.
  destruct (shape_lookup N N _ i HA Hi) as (a_i & Ha_i & Hlen_a).
  destruct (shape_lookup T N beta (t + 1) Hbeta ltac:(lia))
    as (next & Hnext & Hlen_next).
  destruct (shape_lookup N N m i Hshape Hi) as (row & Hrow & Hlen_row).
  assert (HlenB : length (emission_probs self) = N) by (destruct HB; lia).
  unfold xi_cell.
  rewrite (index2_ok T N alpha t i Halpha ltac:(lia) Hi). cbn [mbind result_bind].
  rewrite (index_ok _ _ _ Ha_i). cbn [mbind result_bind].
  rewrite (index_ok _ _ _ (obs_lookup observations (t + 1) ltac:(lia))).
  cbn [mbind result_bind].
  rewrite (shape_column N M _ _ HB
             (obs_bin self observations Hobs (t + 1) ltac:(lia))).
  cbn [mbind result_bind]. unfold smul.
  rewrite vmul_ok by (rewrite !length_map; lia). cbn [mbind result_bind].
  rewrite (index_ok _ _ _ Hnext). cbn [mbind result_bind].
  rewrite vmul_ok by (rewrite length_zip_with, !length_map; lia).
  cbn [mbind result_bind]. unfold vdiv.
  destruct (decide (denom = 0)) as [Hd|Hd]; [reflexivity|].
  cbn [mbind result_bind]. unfold setrow3.
  rewrite (index_ok _ _ _ Hm). cbn [mbind result_bind].
  rewrite (setrow_ok m i row)
    by (auto; rewrite length_map, length_zip_with, length_zip_with, !length_map; lia).
  cbn [mbind result_bind].
  rewrite setitem_ok by (eapply lookup_lt_Some; exact Hm).
  cbn [holds]. split; [exact Hd|]. eexists. split; [reflexivity|]. split.
  - rewrite length_map, length_zip_with, length_zip_with, !length_map. lia.
  - rewrite np_sum_map_div. f_equal.
    rewrite np_sum_zip_with_mul by (rewrite length_zip_with, !length_map; lia).
    rewrite length_zip_with, !length_map.
    replace (length a_i `min` length (emission_probs self))%nat with N by lia.
    apply sum_n_ext. intros j Hj.
    rewrite at1_zip_with by (rewrite ?length_map; lia).
    rewrite at1_map by lia. rewrite at1_column.
    unfold term, A, B.
    rewrite (entry_lookup _ _ j _ Ha_i), (entry_lookup _ _ j _ Hnext).
    reflexivity.
Qed.

Lemma xi_row_ok alpha beta xi t :
  shape T N alpha -> shape T N beta -> (S t < T)%nat ->
  shape3 (T - 1) N N xi ->
  holds zero_div
    (fun xi' => shape3 (T - 1) N N xi' /\
       (forall t', t' <> t -> xi' !! t' = xi !! t') /\
       exists m', xi' !! t = Some m' /\ total m' = 1)
    (xi_row self observations alpha beta xi t).
Proof.
  intros Halpha Hbeta Ht Hxi. unfold xi_row.
  rewrite (xi_denom_ok alpha beta t Halpha Hbeta Ht). cbn [mbind result_bind].
  set (D := sum_n N (fun i => sum_n N (fun j => term alpha beta t i j))).
  fold N.
  pose (L := fun (i : nat) (xi' : array3) =>
               shape3 (T - 1) N N xi' /\
               (forall t', t' <> t -> xi' !! t' = xi !! t') /\
               ((0 < i)%nat -> D <> 0) /\
               exists m', xi' !! t = Some m' /\
                 forall i', (i' < i)%nat ->
                   exists row, m' !! i' = Some row /\
                     np_sum row = sum_n N (fun j => term alpha beta t i' j) / D).
  apply (holds_mono zero_div zero_div (L N)); [|auto|].
  - apply (holds_foldM_seq zero_div L _ N 0%nat xi).
    + split; [exact Hxi|]. split; [reflexivity|]. split; [lia|].
      destruct (shape3_lookup _ _ _ xi t Hxi ltac:(lia)) as (m & Hm & _).
      exists m. split; [exact Hm|]. intros i' Hi'. lia.
    + intros i xi' Hi (Hs & Hother & _ & m' & Hm' & Hrows).
      destruct (shape3_lookup _ _ _ xi' t Hs ltac:(lia)) as (m'' & Hm'' & Hsh).
      assert (m'' = m') as -> by congruence.
      eapply holds_mono;
        [apply (xi_cell_ok alpha beta t D xi' i m' Halpha Hbeta Ht
                  ltac:(lia) Hm' Hsh)
        |auto|].
      intros xi'' (HD & q & -> & Hlen & Hsum).
      assert (Htlt : (t < length xi')%nat) by (eapply lookup_lt_Some; exact Hm').
      destruct (shape_lookup N N m' i Hsh ltac:(lia)) as (row & Hrow & Hlen_row).
      split; [|split; [|split]].
      * apply shape3_insert; [exact Hs|]. apply shape_insert; assumption.
      * intros t' Ht'. rewrite list_lookup_insert_ne by congruence.
        apply Hother, Ht'.
      * intros _. exact HD.
      * exists (<[i := q]> m'). split; [apply list_lookup_insert_eq, Htlt|].
        intros i' Hi'. destruct (decide (i' = i)) as [->|Hne].
        -- exists q. split; [|exact Hsum].
           apply list_lookup_insert_eq. eapply lookup_lt_Some; exact Hrow.
        -- rewrite list_lookup_insert_ne by congruence. apply Hrows. lia.
  - intros xi' (Hs & Hother & HD & m' & Hm' & Hrows).
    split; [exact Hs|]. split; [exact Hother|].
    exists m'. split; [exact Hm'|].
    destruct (shape3_lookup _ _ _ xi' t Hs ltac:(lia)) as (m'' & Hm'' & Hsh).
    assert (m'' = m') as -> by congruence.
    unfold total, sum_axis1. rewrite np_sum_map_lookup.
    replace (length m') with N by (destruct Hsh; lia).
    rewrite (sum_n_ext _ _
               (fun i => sum_n N (fun j => term alpha beta t i j) * / D)).
    + rewrite sum_n_mul_r. fold D. apply Qcmult_inv_r, HD, HN.
    + intros i Hi. destruct (Hrows i Hi) as (row & -> & Hsum). exact Hsum.
Qed.

(** ** The emission update *)

Lemma emission_column_ok gamma emission l :
  shape T N gamma -> shape N M emission -> (0 < T)%nat -> (l < M)%nat ->
  holds never (shape N M)
    (emission_column self observations gamma emission l).
Proof.
  intros Hgamma Hem HT Hl. unfold emission_column, select_rows.
  rewrite decide_True by (rewrite length_map; destruct Hgamma; symmetry; assumption).
  cbn [mbind result_bind].
  assert (ncols gamma = N) as ->.
  { destruct (shape_lookup T N gamma 0 Hgamma HT) as (row & Hrow & Hlen).
    destruct gamma; [discriminate|]. injection Hrow as ->. exact Hlen. }
  set (selected := map snd _).
  assert (Hsel : Forall (fun row => length row = N) selected).
  { apply Forall_forall. intros row Hrow. unfold selected in Hrow.
    apply list_elem_of_fmap in Hrow as ([b row'] & -> & Hin).
    apply list_elem_of_filter in Hin as [_ Hin].
    apply elem_of_zip_r in Hin. cbn.
    destruct Hgamma as [_ Hall].
    eapply (proj1 (Forall_forall _ _) Hall). exact Hin. }
  unfold setcolumn.
  rewrite decide_True by (rewrite (length_sum_axis0 N _ Hsel); destruct Hem; lia).
  eapply holds_mono;
    [apply (setcolumn_rows_ok M l emission); [destruct Hem; assumption| |exact Hl]
    |auto|].
  - rewrite (length_sum_axis0 N _ Hsel). destruct Hem. lia.
  - intros m' [Hl' Hall']. split; [destruct Hem; lia|exact Hall'].
Qed.

(** ** One pass of the training loop *)

Lemma baum_welch_step_ok :
  (2 <= T)%nat ->
  holds zero_div
    (fun self' =>
       num_hidden_states self' = N /\ num_observation_bins self' = M /\
       well_shaped self' /\ stochastic self')
    (baum_welch_step self observations).
Proof.
  intros HT.
  assert (Hne : observations <> [])
    by (intros E; unfold T in HT; rewrite E in HT; simpl in HT; lia).
  unfold baum_welch_step. fold T N M.
  apply (holds_bind zero_div (shape T N)).
  { apply never_zero_div.
    eapply holds_mono;
      [apply (forward_ok self observations Hself Hobs Hne)|auto|].
    intros alpha [Ha _]. exact Ha. }
  intros alpha Halpha.
  apply (holds_bind zero_div (shape T N)).
  { apply never_zero_div, backward_ok, Hne. }
  intros beta Hbeta.
  pose (K := fun (t : nat) (xi : array3) =>
               shape3 (T - 1) N N xi /\
               forall t', (t' < t)%nat ->
                 exists m, xi !! t' = Some m /\ total m = 1).
  apply (holds_bind zero_div (K (0 + (T - 1))%nat)).
  { apply (holds_foldM_seq zero_div K).
    - split; [|intros t' Ht'; lia]. split; [apply length_replicate|].
      apply Forall_replicate, shape_full2.
    - intros t xi Ht [Hs Hdone].
      eapply holds_mono;
        [apply (xi_row_ok alpha beta xi t Halpha Hbeta ltac:(lia) Hs)|auto|].
      intros xi' (Hs' & Hother & m' & Hm' & Htot). split; [exact Hs'|].
      intros t' Ht'. destruct (decide (t' = t)) as [->|Hne'].
      + exists m'. split; assumption.
      + rewrite Hother by exact Hne'. apply Hdone. lia. }
  intros xi [Hxi Hdone]. cbn [Nat.add] in Hdone.
  destruct (Hdone 0%nat ltac:(lia)) as (m0 & Hm0 & Htot0).
  assert (Hg0 : sum3_axis2 xi !! 0%nat = Some (sum_axis1 m0)).
  { unfold sum3_axis2. change (map ?f xi) with (f <$> xi).
    rewrite list_lookup_fmap, Hm0. reflexivity. }
  rewrite (index_ok _ _ _ Hg0). cbn [mbind result_bind].
  apply (holds_bind zero_div
           (fun m' => shape N N m' /\ Forall (fun row => np_sum row = 1) m')).
  { apply div_rows_sums. eapply shape_sum3_axis0. exact Hxi. }
  intros transition [Htr Htr1].
  destruct (shape3_lookup _ _ _ xi (T - 2) Hxi ltac:(lia)) as (ml & Hml & Hmls).
  assert (Hlast : last xi = Some ml).
  { rewrite last_lookup. destruct Hxi as [Hl _]. rewrite Hl.
    replace (Nat.pred (T - 1)) with (T - 2)%nat by lia. exact Hml. }
  unfold index_last. rewrite Hlast. cbn [mbind result_bind].
  assert (Hgamma : shape T N (sum3_axis2 xi ++ [sum_axis0 N ml])).
  { destruct (shape_sum3_axis2 _ _ _ xi Hxi) as [Hgl Hgall]. split.
    - rewrite length_app, Hgl. cbn [length]. lia.
    - apply Forall_app. split; [exact Hgall|]. constructor; [|constructor].
      apply length_sum_axis0. destruct Hmls. assumption. }
  destruct Hself as (HA & HB & Hpi). fold N M in HA, HB, Hpi.
  apply (holds_bind zero_div (shape N M)).
  { apply never_zero_div.
    eapply holds_mono;
      [apply (holds_foldM_seq never (fun _ => shape N M) _ M 0%nat _ HB)|auto|auto].
    intros l em Hl Hem. apply emission_column_ok; [exact Hgamma|exact Hem|lia|lia]. }
  intros emission Hem.
  apply (holds_bind zero_div
           (fun m' => shape N M m' /\ Forall (fun row => np_sum row = 1) m')).
  { apply div_rows_sums, Hem. }
  intros emission' [Hem' Hem1]. cbn [holds].
  split; [reflexivity|]. split; [reflexivity|].
  assert (Hlen0 : length (sum_axis1 m0) = N).
  { destruct (shape3_lookup _ _ _ xi 0 Hxi ltac:(lia)) as (m0' & Hm0' & Hs0).
    assert (m0' = m0) as -> by congruence.
    unfold sum_axis1. rewrite length_map. destruct Hs0. assumption. }
  split.
  - unfold well_shaped. cbn. auto.
  - unfold stochastic. cbn. auto.
Qed.

End BaumWelchProofs.

Section TransitionProofs.
Import Numpy Transition.
Local Open Scope Qc_scope.

Lemma np_sum_insert (row : array1) j x :
  (j < length row)%nat ->
  np_sum (<[j := x]> row) = np_sum row - at1 row j + x.
Proof.
  revert j. induction row as [|y row IH]; intros j Hj; [simpl in Hj; lia|].
  destruct j as [|j].
  - cbn [insert list_insert]. rewrite !np_sum_cons.
    change (at1 (y :: row) 0) with y. ring.
  - cbn [insert list_insert]. fold (@insert _ _ _ list_insert j x row).
    rewrite !np_sum_cons, IH by (simpl in Hj; lia).
    change (at1 (y :: row) (S j)) with (at1 row j). ring.
Qed.

Lemma count_pair_ok n m c nx row :
  shape n n m -> (c < n)%nat -> (nx < n)%nat -> m !! c = Some row ->
  count_pair m (c, nx) = Ok (<[c := <[nx := at1 row nx + 1]> row]> m).
Proof.
  intros Hm Hc Hnx Hrow. unfold count_pair.
  rewrite (index2_ok n n m c nx Hm Hc Hnx). cbn [mbind result_bind].
  rewrite (entry_lookup _ _ _ _ Hrow).
  apply setitem2_ok; [exact Hrow|].
  rewrite (shape_row n n m c row Hm Hrow). exact Hnx.
Qed.

(** The counting loop: a row gains at least 1 when its state is the current
    state of some pair, and is left alone otherwise. *)
Lemma count_loop n (pairs : list (nat * nat)) : forall m,
  shape n n m ->
  Forall (fun p => (p.1 < n)%nat /\ (p.2 < n)%nat) pairs ->
  exists m',
    foldM count_pair pairs m = Ok m' /\ shape n n m' /\
    forall s, (s ∉ pairs.*1 -> row_sum m' s = row_sum m s) /\
              (s ∈ pairs.*1 -> row_sum m s + 1 <= row_sum m' s) /\
              row_sum m s <= row_sum m' s.
Proof.
  induction pairs as [|[c nx] pairs IH]; intros m Hm Hall.
  - exists m. split; [reflexivity|]. split; [exact Hm|]. intros s.
    split; [reflexivity|]. split; [intros H; inversion H|apply Qcle_refl].
  - apply Forall_cons in Hall as [[Hc Hnx] Hall]. cbn [fst snd] in Hc, Hnx.
    destruct (shape_lookup n n m c Hm Hc) as (row & Hrow & Hlen).
    cbn [foldM]. rewrite (count_pair_ok n m c nx row Hm Hc Hnx Hrow).
    cbn [mbind result_bind].
    set (m1 := <[c := <[nx := at1 row nx + 1]> row]> m).
    assert (Hm1 : shape n n m1)
      by (apply shape_insert; [exact Hm|rewrite length_insert; exact Hlen]).
    assert (Hsum1 : forall s,
              row_sum m1 s = if decide (s = c) then row_sum m s + 1
                             else row_sum m s).
    { intros s. unfold row_sum, m1. case_decide as Hs.
      - subst s. rewrite list_lookup_insert_eq
          by (eapply lookup_lt_Some; exact Hrow).
        rewrite Hrow, np_sum_insert by lia. ring.
      - rewrite list_lookup_insert_ne by congruence. reflexivity. }
    destruct (IH m1 Hm1 Hall) as (m' & Hrun & Hm' & Hrows).
    exists m'. split; [exact Hrun|]. split; [exact Hm'|].
    intros s. destruct (Hrows s) as (Hnot & Hin & Hmono).
    rewrite Hsum1 in Hnot, Hin, Hmono. cbn [fmap list_fmap fst].
    assert (Hstep : row_sum m s <= row_sum m s + 1).
    { rewrite <- (Qcplus_0_r (row_sum m s)) at 1.
      apply Qcplus_le_mono_l. discriminate. }
    split; [|split].
    + intros Hs. apply not_elem_of_cons in Hs as [Hne Hs].
      rewrite decide_False in Hnot by exact Hne. auto.
    + intros Hs. case_decide as Hd.
      * exact Hmono.
      * apply elem_of_cons in Hs as [Hs|Hs]; [contradiction|].
        apply Hin, Hs.
    + case_decide; [eapply Qcle_trans; [exact Hstep|exact Hmono]|exact Hmono].
Qed.

Lemma div_rows_zero_row (m : array2) :
  Exists (fun row => np_sum row = 0) m ->
  div_rows m (sum_axis1 m) = Err ZeroDivisor.
Proof.
  induction 1 as [row m Hz|row m _ IH]; cbn [sum_axis1 map div_rows]; unfold vdiv.
  - rewrite decide_True by exact Hz. reflexivity.
  - case_decide; [reflexivity|]. cbn [mbind result_bind].
    fold (sum_axis1 m). rewrite IH. reflexivity.
Qed.

Lemma div_rows_nonzero_rows (m : array2) :
  Forall (fun row => np_sum row <> 0) m ->
  exists m', div_rows m (sum_axis1 m) = Ok m'.
Proof.
  induction 1 as [|row m Hnz _ [m' IH]]; cbn [sum_axis1 map div_rows].
  - eexists. reflexivity.
  - unfold vdiv. rewrite decide_False by exact Hnz. cbn [mbind result_bind].
    fold (sum_axis1 m). rewrite IH. eexists. reflexivity.
Qed.

Lemma row_sum_full2 n s : row_sum (full2 n n 0) s = 0.
Proof.
  unfold row_sum, full2. destruct (replicate n (replicate n 0) !! s) eqn:E;
    [|reflexivity].
  apply lookup_replicate in E as [-> _].
  generalize n at 1 as k. induction k as [|k IH]; [reflexivity|].
  cbn [replicate]. rewrite np_sum_cons, IH. ring.
Qed.

Lemma removelast_length_pred {X} (l : list X) :
  length (removelast l) = (length l - 1)%nat.
Proof.
  induction l as [|x l IH]; [reflexivity|]. destruct l as [|y l]; [reflexivity|].
  change (removelast (x :: y :: l)) with (x :: removelast (y :: l)).
  cbn [length] in *. lia.
Qed.

Lemma elem_of_removelast {X} (x : X) (l : list X) :
  x ∈ removelast l -> x ∈ l.
Proof.
  induction l as [|y l IH]; [auto|]. destruct l as [|z l].
  - intros H. inversion H.
  - change (removelast (y :: z :: l)) with (y :: removelast (z :: l)).
    intros H. apply elem_of_cons in H as [->|H]; [left|right; apply IH, H].
Qed.

Lemma pairs_firsts (states : list nat) :
  (zip (removelast states) (tail states)).*1 = removelast states.
Proof.
  apply fst_zip. rewrite removelast_length_pred.
  destruct states; cbn [tail length]; lia.
Qed.

Lemma pairs_in_range n (states : list nat) :
  Forall (fun s => (s < n)%nat) states ->
  Forall (fun p => (p.1 < n)%nat /\ (p.2 < n)%nat)
         (zip (removelast states) (tail states)).
Proof.
  intros H. apply Forall_forall. intros [c nx] Hin.
  pose proof (elem_of_zip_l _ _ _ _ Hin) as Hc.
  pose proof (elem_of_zip_r _ _ _ _ Hin) as Hnx.
  cbn [fst snd]. split.
  - eapply (proj1 (Forall_forall _ _) H).
    apply elem_of_removelast, Hc.
  - eapply (proj1 (Forall_forall _ _) H).
    destruct states; [inversion Hnx|]. right. exact Hnx.
Qed.

(** C3 (evaluation of the code).  When some state of 0..num_states-1 is not
    the current state of any transition of the sequence (it does not occur,
    or occurs only as the last element), the row normalization of
    estimate_transition_matrix divides that row by a zero row sum: no matrix
    with rows summing to 1 is produced. *)
Theorem estimate_transition_matrix_zero_row
    (states : list nat) (num_states s : nat) :
  Forall (fun x => (x < num_states)%nat) states ->
  (s < num_states)%nat ->
  s ∉ removelast states ->
  estimate_transition_matrix states num_states = Err ZeroDivisor.
Proof.
  intros Hstates Hs Hnot. unfold estimate_transition_matrix.
  destruct (count_loop num_states _ (full2 num_states num_states 0)
              (shape_full2 _ _ _) (pairs_in_range _ _ Hstates))
    as (m & Hrun & Hm & Hrows).
  rewrite Hrun. cbn [mbind result_bind]. apply div_rows_zero_row.
  destruct (shape_lookup _ _ m s Hm Hs) as (row & Hrow & _).
  apply Exists_exists. exists row. split; [eapply list_elem_of_lookup_2, Hrow|].
  destruct (Hrows s) as (Hsame & _ & _). rewrite pairs_firsts in Hsame.
  specialize (Hsame Hnot). rewrite row_sum_full2 in Hsame.
  unfold row_sum in Hsame. rewrite Hrow in Hsame. exact Hsame.
Qed.

Lemma estimate_transition_matrix_zero_row_witness :
  estimate_transition_matrix [0; 0]%nat 2 = Err ZeroDivisor.
Proof.
  apply (estimate_transition_matrix_zero_row [0; 0]%nat 2 1).
  - repeat constructor.
  - lia.
  - cbn. intros H. apply elem_of_cons in H as [H|H]; [discriminate|inversion H].
Defined.

(** The other direction: when every state is the current state of some
    transition, the normalization succeeds and every row sums to 1. *)
Lemma estimate_transition_matrix_all_rows (states : list nat) (num_states : nat) :
  Forall (fun x => (x < num_states)%nat) states ->
  (forall s, (s < num_states)%nat -> s ∈ removelast states) ->
  exists m,
    estimate_transition_matrix states num_states = Ok m /\
    shape num_states num_states m /\
    Forall (fun row => np_sum row = 1) m.
Proof.
  intros Hstates Hall. unfold estimate_transition_matrix.
  destruct (count_loop num_states _ (full2 num_states num_states 0)
              (shape_full2 _ _ _) (pairs_in_range _ _ Hstates))
    as (m & Hrun & Hm & Hrows).
  rewrite Hrun. cbn [mbind result_bind].
  pose proof (div_rows_sums num_states num_states m Hm) as Hdiv.
  destruct (div_rows_nonzero_rows m) as [m' Hm'].
  - apply Forall_lookup. intros s row Hrow Hz.
    assert (Hs : (s < num_states)%nat)
      by (destruct Hm as [<- _]; eapply lookup_lt_Some; exact Hrow).
    destruct (Hrows s) as (_ & Hin & _). rewrite pairs_firsts in Hin.
    specialize (Hin (Hall s Hs)). rewrite row_sum_full2 in Hin.
    unfold row_sum in Hin. rewrite Hrow, Hz in Hin.
    apply (Qcle_not_lt _ _ Hin). reflexivity.
  - rewrite Hm' in Hdiv |- *. exists m'. split; [reflexivity|exact Hdiv].
Qed.

End TransitionProofs.

Section BaumWelchTheorem.
Import Numpy HMM Divisors.
Local Open Scope Qc_scope.

Lemma foldM_app {E X Y} (f : Y -> X -> Outcome.result E Y) (l1 l2 : list X) (y : Y) :
  foldM f (l1 ++ l2) y = foldM f l1 y ≫= foldM f l2.
Proof.
  revert y. induction l1 as [|x l1 IH]; intros y; [reflexivity|].
  cbn [app foldM]. destruct (f y x) as [y'|e]; [|reflexivity].
  cbn [mbind result_bind]. apply IH.
Qed.

Lemma baum_welch_train_ok (observations : list nat) (n_iter : nat) :
  forall self : HiddenMarkovModel,
    well_shaped self ->
    (0 < num_hidden_states self)%nat ->
    (2 <= length observations)%nat ->
    Forall (fun o => (o < num_observation_bins self)%nat) observations ->
    holds zero_div
      (fun self' => well_shaped self' /\ ((0 < n_iter)%nat -> stochastic self'))
      (baum_welch_train self observations n_iter).
Proof.
  intros self Hself HN HT Hobs. unfold baum_welch_train.
  pose (I := fun (k : nat) (self' : HiddenMarkovModel) =>
               num_hidden_states self' = num_hidden_states self /\
               num_observation_bins self' = num_observation_bins self /\
               well_shaped self' /\ ((0 < k)%nat -> stochastic self')).
  eapply holds_mono;
    [apply (holds_foldM_seq zero_div I _ n_iter 0%nat self)|auto|].
  - split; [reflexivity|]. split; [reflexivity|]. split; [exact Hself|lia].
  - intros k self' _ (HN' & HM' & Hself' & _).
    eapply holds_mono;
      [apply (baum_welch_step_ok self' observations Hself')|auto|].
    + rewrite HM'. exact Hobs.
    + rewrite HN'. exact HN.
    + exact HT.
    + intros self'' (HN'' & HM'' & Hself'' & Hst). unfold I.
      split; [congruence|]. split; [congruence|]. split; [exact Hself''|].
      intros _. exact Hst.
  - intros self' (_ & _ & Hself' & Hst). auto.
Qed.

Lemma smallest_pos : 0 < smallest.
Proof. reflexivity. Qed.

Lemma Forall_sum_axis1 (P : Qc -> Prop) (m : array2) :
  Forall P (sum_axis1 m) -> Forall (fun row => P (np_sum row)) m.
Proof.
  induction m as [|row m IH]; intros H; [constructor|].
  cbn [sum_axis1 map] in H. apply Forall_cons in H as [Hrow H].
  constructor; [exact Hrow|apply IH, H].
Qed.

(** A pass whose divisors are all nonzero does not divide by zero. *)
Lemma step_divisors_nonzero self observations divisors :
  step_divisors self observations = Ok divisors ->
  Forall (fun d => d <> 0) divisors ->
  baum_welch_step self observations <> Err ZeroDivisor.
Proof.
  unfold step_divisors, baum_welch_step. intros Hrun Hnz.
  destruct (forward self observations) as [alpha|]; [|discriminate].
  cbn [mbind result_bind] in *.
  destruct (backward self observations) as [beta|]; [|discriminate].
  cbn [mbind result_bind] in *.
  destruct (mapM_r _ _) as [denoms|]; [|discriminate].
  cbn [mbind result_bind] in Hrun.
  destruct (foldM (xi_row self observations alpha beta) _ _) as [xi|];
    [|discriminate].
  cbn [mbind result_bind] in *.
  destruct (index_last xi) as [last_xi|] eqn:Elast; [|discriminate].
  cbn [mbind result_bind] in Hrun.
  destruct (foldM (emission_column self observations _) _ _) as [em|] eqn:Eem;
    [|discriminate].
  injection Hrun as <-.
  apply Forall_app in Hnz as [_ Hnz]. apply Forall_app in Hnz as [Htr Hem].
  destruct (index (sum3_axis2 xi) 0) as [initial|e] eqn:Ei.
  2:{ unfold index in Ei. destruct (sum3_axis2 xi !! 0%nat); [discriminate|].
      injection Ei as <-. discriminate. }
  cbn [mbind result_bind].
  destruct (div_rows_nonzero_rows
              (sum3_axis0 (num_hidden_states self) (num_hidden_states self) xi))
    as [transition ->].
  { exact (Forall_sum_axis1 _ _ Htr). }
  cbn [mbind result_bind]. rewrite Eem. cbn [mbind result_bind].
  destruct (div_rows_nonzero_rows em) as [emission ->].
  { exact (Forall_sum_axis1 _ _ Hem). }
  discriminate.
Qed.

Lemma normal_range_runs (self : HiddenMarkovModel) (observations : list nat)
    (n_iter : nat) :
  well_shaped self ->
  (0 < num_hidden_states self)%nat ->
  (2 <= length observations)%nat ->
  Forall (fun o => (o < num_observation_bins self)%nat) observations ->
  normal_range self observations n_iter ->
  forall k, (k <= n_iter)%nat ->
    baum_welch_train self observations k <> Err ZeroDivisor.
Proof.
  intros Hself HN HT Hobs Hrange. induction k as [|k IH]; intros Hk.
  - discriminate.
  - specialize (IH ltac:(lia)).
    pose proof (baum_welch_train_ok observations k self Hself HN HT Hobs) as H.
    unfold baum_welch_train in *. rewrite seq_S, foldM_app.
    destruct (foldM _ (seq 0 k) self) as [self_k|e] eqn:E.
    + cbn [mbind result_bind foldM].
      destruct (Hrange k self_k ltac:(lia) E) as (divisors & Hd & Hsmall).
      pose proof (step_divisors_nonzero self_k observations divisors Hd) as Hstep.
      destruct (baum_welch_step self_k observations) as [self'|e'];
        [discriminate|].
      cbn [mbind result_bind]. intros Heq. injection Heq as ->.
      apply Hstep; [|reflexivity].
      eapply Forall_impl; [exact Hsmall|]. intros d Hd0 ->.
      apply (Qcle_not_lt _ _ Hd0). exact smallest_pos.
    + cbn in H. unfold zero_div in H. subst e. contradiction.
Qed.

(** C1 (amended).  For a model with the shapes of __init__ and at least one
    hidden state, and observations of length at least 2 over the model's
    bins: if every divisor of each of the n_iter passes of baum_welch_train
    (the denominators denom and the row sums that normalize the transition
    and the emission counts) is at least 2^-500, then after each iteration
    (after k iterations, 1 <= k <= n_iter) every row of transition_probs
    sums to 1, every row of emission_probs sums to 1 and initial_probs sums
    to 1. *)
Theorem baum_welch_train_invariants
    (self : HiddenMarkovModel) (observations : list nat) (n_iter : nat) :
  well_shaped self ->
  (0 < num_hidden_states self)%nat ->
  (2 <= length observations)%nat ->
  Forall (fun o => (o < num_observation_bins self)%nat) observations ->
  normal_range self observations n_iter ->
  forall k, (1 <= k <= n_iter)%nat ->
    exists self',
      baum_welch_train self observations k = Ok self' /\
      Forall (fun row => np_sum row = 1) (transition_probs self') /\
      Forall (fun row => np_sum row = 1) (emission_probs self') /\
      np_sum (initial_probs self') = 1.
Proof.
  intros Hself HN HT Hobs Hrange k Hk.
  pose proof (baum_welch_train_ok observations k self Hself HN HT Hobs) as H.
  pose proof (normal_range_runs self observations n_iter Hself HN HT Hobs
                Hrange k ltac:(lia)) as Hrun.
  destruct (baum_welch_train self observations k) as [self'|e] eqn:E.
  - exists self'. split; [reflexivity|]. destruct H as [_ Hst]. apply Hst. lia.
  - exfalso. apply Hrun. cbn in H. unfold zero_div in H. subst e. reflexivity.
Qed.

Lemma baum_welch_train_invariants_witness :
  exists self',
    baum_welch_train example_model [0; 1; 0]%nat 2 = Ok self' /\
    Forall (fun row => np_sum row = 1) (transition_probs self') /\
    Forall (fun row => np_sum row = 1) (emission_probs self') /\
    np_sum (initial_probs self') = 1.
Proof.
  apply (baum_welch_train_invariants example_model [0; 1; 0]%nat 2).
  - repeat split; repeat constructor.
  - simpl. lia.
  - simpl. lia.
  - repeat constructor.
  - intros k self_k Hk E.
    destruct k as [|[|k]]; [| |lia]; vm_compute in E; injection E as <-;
      (eexists; split; [vm_compute; reflexivity|]);
      repeat (constructor; [vm_compute; discriminate|]); constructor.
  - lia.
Defined.

End BaumWelchTheorem.

Section Examples.
Import Numpy.

(** Runs of the embedded routines on small inputs. *)

Example minTime_two_points :
  MinTime.minTimeToVisitAllPoints [(3, 2); (-2, 2)] = Some (MinTime.Num 5).
Proof. reflexivity. Qed.

Example minTime_single_point :
  MinTime.minTimeToVisitAllPoints [(3, 2)] = Some (MinTime.Num 0).
Proof. reflexivity. Qed.

Example spiral_1 :
  (m ← Spiral.spiralMatrixc 1; Ok (Spiral.to_rows 1 m)) = Ok (Some [[1]]).
Proof. vm_compute. reflexivity. Qed.

Example spiral_4 :
  (m ← Spiral.spiralMatrixc 4; Ok (Spiral.to_rows 4 m))
  = Ok (Some [[1; 2; 3; 4]; [12; 13; 14; 5]; [11; 16; 15; 6]; [10; 9; 8; 7]]).
Proof. vm_compute. reflexivity. Qed.

Example spiral_cells_3 :
  Spiral.spiral_cells 3
  = [(0, 0); (0, 1); (0, 2); (1, 2); (2, 2); (2, 1); (2, 0); (1, 0); (1, 1)].
Proof. reflexivity. Qed.

Example oranges_all_rotten :
  Oranges.orangesRotting (Some [[2; 2]; [0; 2]]) = Oranges.JNum 0.
Proof. reflexivity. Qed.

Example oranges_one_fresh :
  Oranges.orangesRotting (Some [[2; 1]]) = Oranges.JUndefined.
Proof. reflexivity. Qed.

Example transition_counts :
  (m ← Transition.estimate_transition_matrix [0; 1; 0; 0; 1]%nat 2;
   Ok (map (map this) m))
  = Ok [[1 # 3; 2 # 3]; [1; 0]]%Q.
Proof. vm_compute. reflexivity. Qed.

Example transition_last_only :
  Transition.estimate_transition_matrix [0; 1]%nat 2 = Err ZeroDivisor.
Proof. vm_compute. reflexivity. Qed.

Example forward_example :
  (alpha ← HMM.forward HMM.example_model [0; 1; 0]%nat;
   Ok (map (map this) alpha))
  = Ok [[1 # 12; 1 # 3]; [11 # 96; 19 # 144]; [175 # 6912; 251 # 3456]]%Q.
Proof. vm_compute. reflexivity. Qed.

Example forward_empty :
  HMM.forward HMM.example_model [] = Err IndexError.
Proof. reflexivity. Qed.

Example forward_outside_bins :
  HMM.forward HMM.example_model [0; 2]%nat = Err IndexError.
Proof. vm_compute. reflexivity. Qed.

Example baum_welch_one_observation :
  HMM.baum_welch_step HMM.example_model [0]%nat = Err IndexError.
Proof. vm_compute. reflexivity. Qed.

Example size_position_calm :
  this <$> Risk.size_position Risk.default_manager 0%Qc = Some 1%Q.
Proof. vm_compute. reflexivity. Qed.

Example size_position_volatile :
  this <$> Risk.size_position Risk.default_manager (Q2Qc (1 # 10))
  = Some (2000000 # 10000001)%Q.
Proof. vm_compute. reflexivity. Qed.

End Examples.

Section InitProofs.
Import Numpy HMM.
Local Open Scope Qc_scope.

Lemma Qc_of_nat_S k : Qc_of_nat (S k) = Qc_of_nat k + 1.
Proof.
  unfold Qc_of_nat, Qcplus. apply Q2Qc_eq_iff.
  unfold Q2Qc. cbn [this].
  rewrite !Qred_correct. rewrite Nat2Z.inj_succ. unfold Z.succ.
  rewrite inject_Z_plus. reflexivity.
Qed.

Lemma Qc_of_nat_0 : Qc_of_nat 0 = 0.
Proof. reflexivity. Qed.

Lemma Qc_of_nat_nonneg k : 0 <= Qc_of_nat k.
Proof.
  induction k as [|k IH]; [discriminate|].
  rewrite Qc_of_nat_S. apply Qcplus_nonneg_nonneg; [exact IH|discriminate].
Qed.

Lemma Qc_of_nat_pos k : (0 < k)%nat -> 0 < Qc_of_nat k.
Proof.
  destruct k as [|k]; [lia|]. intros _. rewrite Qc_of_nat_S.
  apply Qcplus_nonneg_pos; [apply Qc_of_nat_nonneg|reflexivity].
Qed.

Lemma np_sum_replicate k x : np_sum (replicate k x) = Qc_of_nat k * x.
Proof.
  induction k as [|k IH]; cbn [replicate].
  - rewrite np_sum_nil, Qc_of_nat_0. ring.
  - rewrite np_sum_cons, IH, Qc_of_nat_S. ring.
Qed.

Lemma np_sum_uniform k : (0 < k)%nat -> np_sum (replicate k (1 / Qc_of_nat k)) = 1.
Proof.
  intros Hk. rewrite np_sum_replicate. unfold Qcdiv. rewrite Qcmult_1_l.
  apply Qcmult_inv_r. intros E. pose proof (Qc_of_nat_pos k Hk) as H.
  rewrite E in H. discriminate H.
Qed.

(** A model built by __init__ with at least one hidden state and one
    observation bin has the array shapes the routines expect and satisfies
    the probability invariants: every row of the two matrices and the initial
    distribution sum to 1.  With zero hidden states or zero bins the
    constructor raises ZeroDivisionError. *)
Theorem init_invariants (n m : nat) :
  (forall m', init 0 m' = Err ZeroDivisor) /\
  (forall n', init n' 0 = Err ZeroDivisor) /\
  ((0 < n)%nat -> (0 < m)%nat ->
   exists self,
     init n m = Ok self /\
     num_hidden_states self = n /\ num_observation_bins self = m /\
     well_shaped self /\ stochastic self).
Proof.
  split; [reflexivity|]. split.
  { intros n'. unfold init. repeat case_decide; try reflexivity. lia. }
  intros Hn Hm. unfold init. rewrite !decide_False by lia.
  eexists. split; [reflexivity|]. split; [reflexivity|]. split; [reflexivity|].
  split.
  - unfold well_shaped. cbn. split; [apply shape_full2|].
    split; [apply shape_full2|apply length_replicate].
  - unfold stochastic, full2. cbn. split; [|split].
    + apply Forall_replicate, np_sum_uniform, Hn.
    + apply Forall_replicate, np_sum_uniform, Hm.
    + apply np_sum_uniform, Hn.
Qed.

Lemma init_invariants_witness :
  exists self,
    init 3 4 = Ok self /\
    num_hidden_states self = 3%nat /\ num_observation_bins self = 4%nat /\
    well_shaped self /\ stochastic self.
Proof. apply (proj2 (proj2 (init_invariants 3 4))); lia. Defined.

End InitProofs.

Section BackwardProofs.
Import Numpy HMM.
Local Open Scope Qc_scope.

Variable self : HiddenMarkovModel.
Variable observations : list nat.

Let N := num_hidden_states self.
Let M := num_observation_bins self.
Let T := length observations.
Let obs (t : nat) : nat := nth t observations 0%nat.

Hypothesis Hself : well_shaped self.
Hypothesis Hobs : Forall (fun o => (o < M)%nat) observations.

(** The right-hand side of the backward recurrence, read off [beta]. *)
Let step_sum (beta : array2) (t i : nat) : Qc :=
  sum_n N (fun j => A self i j * B self j (obs (t + 1)) * entry beta (t + 1) j).

Lemma backward_cell_val beta t i row :
  shape T N beta -> (S t < T)%nat -> (i < N)%nat -> beta !! t = Some row ->
  backward_cell self observations t beta i
  = Ok (<[t := <[i := step_sum beta t i]> row]> beta).
Proof.
  intros Hbeta Ht Hi Hrow.
  destruct Hself as (HA & HB & Hpi). fold N M in HA, HB, Hpi.
  destruct (shape_lookup N N _ i HA Hi) as (a_i & Ha_i & Hlen_a).
  destruct (shape_lookup T N beta (t + 1) Hbeta ltac:(lia))
    as (next & Hnext & Hlen_next).
  assert (Hlen_row : length row = N) by exact (shape_row T N beta t row Hbeta Hrow).
  assert (HlenB : length (emission_probs self) = N) by (destruct HB; lia).
  unfold backward_cell.
  rewrite (index_ok _ _ _ Ha_i). cbn [mbind result_bind].
  rewrite (index_ok _ _ _ (obs_lookup observations (t + 1) ltac:(lia))).
  cbn [mbind result_bind].
  rewrite (shape_column N M _ _ HB
             (obs_bin self observations Hobs (t + 1) ltac:(lia))).
  cbn [mbind result_bind].
  rewrite vmul_ok by (rewrite length_map; lia). cbn [mbind result_bind].
  rewrite (index_ok _ _ _ Hnext). cbn [mbind result_bind].
  rewrite vmul_ok by (rewrite length_zip_with, length_map; lia).
  cbn [mbind result_bind].
  rewrite (setitem2_ok _ _ _ row _ Hrow) by lia. do 4 f_equal.
  rewrite np_sum_zip_with_mul by (rewrite length_zip_with, length_map; lia).
  rewrite length_zip_with, length_map.
  replace (length a_i `min` length (emission_probs self))%nat with N by lia.
  apply sum_n_ext. intros j Hj.
  rewrite at1_zip_with by (rewrite ?length_map; lia).
  rewrite at1_column. unfold A, B.
  rewrite (entry_lookup _ _ j _ Ha_i), (entry_lookup _ _ j _ Hnext).
  reflexivity.
Qed.

(** The rows of [beta] from [k] on hold the backward variables. *)
Let done_from (k : nat) (beta : array2) : Prop :=
  shape T N beta /\
  (forall i, (i < N)%nat -> entry beta (T - 1) i = 1) /\
  forall s i, (k <= s)%nat -> (S s < T)%nat -> (i < N)%nat ->
    entry beta s i = step_sum beta s i.

Lemma backward_row_val beta t :
  (S t < T)%nat -> done_from (S t) beta ->
  holds never (done_from t) (backward_row self observations beta t).
Proof.
  intros Ht (Hshape & Hlast & Hrec). unfold backward_row. fold N.
  pose (J := fun (i : nat) (b : array2) =>
               done_from (S t) b /\
               forall i', (i' < i)%nat -> entry b t i' = step_sum b t i').
  apply (holds_mono never never (J N)); [|auto|].
  - apply (holds_foldM_seq never J _ N 0%nat beta).
    + split; [split; [exact Hshape|split; assumption]|]. intros i' Hi'. lia.
    + intros i b Hi [(Hb & Hblast & Hbrec) Hcur].
      destruct (shape_lookup T N b t Hb ltac:(lia)) as (row & Hrow & Hlen).
      rewrite (backward_cell_val b t i row Hb Ht ltac:(lia) Hrow).
      cbn [holds].
      set (b' := <[t := <[i := step_sum b t i]> row]> b).
      assert (Hother : forall s j, s <> t -> entry b' s j = entry b s j).
      { intros s j Hs. unfold b'.
        rewrite (entry_insert _ _ _ row) by (auto; lia).
        rewrite decide_False by tauto. reflexivity. }
      split; [split; [|split]|].
      * apply shape_insert; [exact Hb|]. rewrite length_insert. exact Hlen.
      * intros i' Hi'. rewrite Hother by lia. apply Hblast, Hi'.
      * intros s i' Hs Hs' Hi'. rewrite Hother by lia.
        assert (Hst : step_sum b' s i' = step_sum b s i').
        { unfold step_sum. apply sum_n_ext. intros j Hj.
          rewrite Hother by lia. reflexivity. }
        rewrite Hst. apply Hbrec; assumption.
      * intros i' Hi'.
        assert (Hst : step_sum b' t i' = step_sum b t i').
        { unfold step_sum. apply sum_n_ext. intros j Hj.
          rewrite Hother by lia. reflexivity. }
        rewrite Hst. unfold b'.
        rewrite (entry_insert _ _ _ row) by (auto; lia).
        case_decide as Hd; [destruct Hd as [_ ->]; reflexivity|].
        apply Hcur. lia.
  - intros b [(Hb & Hblast & Hbrec) Hcur]. split; [exact Hb|].
    split; [exact Hblast|]. intros s i Hs Hs' Hi.
    destruct (decide (s = t)) as [->|Hne]; [apply Hcur, Hi|].
    apply Hbrec; [lia|exact Hs'|exact Hi].
Qed.

Lemma backward_val :
  observations <> [] ->
  holds never (done_from 0) (backward self observations).
Proof.
  intros Hne.
  assert (HT : (0 < T)%nat)
    by (unfold T; destruct observations; [congruence|simpl; lia]).
  unfold backward. fold T N. rewrite decide_False by lia.
  pose proof (shape_full2 T N 0) as Hz.
  destruct (shape_lookup T N _ (T - 1) Hz ltac:(lia)) as (row & Hrow & Hlen).
  rewrite (setrow_ok _ _ row) by (auto; rewrite length_replicate; lia).
  cbn [mbind result_bind].
  apply (holds_foldM_rev_seq never done_from).
  - split; [apply shape_insert; [exact Hz|apply length_replicate]|]. split.
    + intros i Hi. unfold entry.
      rewrite list_lookup_insert_eq by (destruct Hz; lia).
      unfold at1. rewrite lookup_replicate_2 by exact Hi. reflexivity.
    + intros s i Hs Hs' Hi. lia.
  - intros t beta Ht Hbeta. apply backward_row_val; [lia|exact Hbeta].
Qed.

End BackwardProofs.

Section ForwardBackwardProofs.
Import Numpy HMM.
Local Open Scope Qc_scope.

Variable self : HiddenMarkovModel.
Variable observations : list nat.

Let N := num_hidden_states self.
Let T := length observations.
Let o (t : nat) : nat := nth t observations 0%nat.

Hypothesis Hself : well_shaped self.
Hypothesis Hobs :
  Forall (fun o => (o < num_observation_bins self)%nat) observations.
Hypothesis Hne : observations <> [].

(** What the two passes return, as recurrences on the arrays. *)
Let forward_rec (alpha : array2) : Prop :=
  forall t j, (S t < T)%nat -> (j < N)%nat ->
    entry alpha (t + 1) j
    = sum_n N (fun i => entry alpha t i * A self i j) * B self j (o (t + 1)).

Let backward_rec (beta : array2) : Prop :=
  (forall i, (i < N)%nat -> entry beta (T - 1) i = 1) /\
  forall t i, (S t < T)%nat -> (i < N)%nat ->
    entry beta t i
    = sum_n N (fun j => A self i j * B self j (o (t + 1)) * entry beta (t + 1) j).

Lemma forward_run :
  exists alpha,
    forward self observations = Ok alpha /\ shape T N alpha /\ forward_rec alpha.
Proof.
  pose proof (forward_ok self observations Hself Hobs Hne) as H.
  apply holds_never in H as (alpha & Hrun & Hshape & Hval).
  exists alpha. split; [exact Hrun|]. split; [exact Hshape|].
  intros t j Ht Hj. rewrite (Hval (t + 1)%nat j ltac:(fold T; lia) Hj).
  replace (t + 1)%nat with (S t) by lia. cbn [forward_var]. fold N. f_equal.
  apply sum_n_ext. intros i Hi. f_equal. symmetry.
  apply Hval; [fold T; lia|exact Hi].
Qed.

Lemma backward_run :
  exists beta,
    backward self observations = Ok beta /\ shape T N beta /\ backward_rec beta.
Proof.
  pose proof (backward_val self observations Hself Hobs Hne) as H.
  apply holds_never in H as (beta & Hrun & Hshape & Hlast & Hrec).
  exists beta. split; [exact Hrun|]. split; [exact Hshape|].
  split; [exact Hlast|]. intros t i Ht Hi. apply Hrec; [lia|exact Ht|exact Hi].
Qed.

(** One step of the recurrences leaves the sum of alpha * beta unchanged. *)
Lemma alpha_beta_step alpha beta t :
  forward_rec alpha -> backward_rec beta -> (S t < T)%nat ->
  sum_n N (fun i => entry alpha t i * entry beta t i)
  = sum_n N (fun j => entry alpha (t + 1) j * entry beta (t + 1) j).
Proof.
  intros Hf [_ Hb] Ht.
  rewrite (sum_n_ext N _
             (fun i => sum_n N (fun j =>
                entry alpha t i * A self i j * B self j (o (t + 1))
                * entry beta (t + 1) j))).
  2:{ intros i Hi. rewrite (Hb t i Ht Hi), <- sum_n_mul_l.
      apply sum_n_ext. intros j _. ring. }
  rewrite sum_n_swap. apply sum_n_ext. intros j Hj.
  rewrite (Hf t j Ht Hj), <- !sum_n_mul_r. apply sum_n_ext. intros i _. ring.
Qed.

Lemma alpha_beta_constant alpha beta :
  forward_rec alpha -> backward_rec beta ->
  forall d t, (t + d = T - 1)%nat ->
    sum_n N (fun i => entry alpha t i * entry beta t i)
    = sum_n N (fun i => entry alpha (T - 1) i).
Proof.
  intros Hf Hb. induction d as [|d IH]; intros t Ht.
  - replace t with (T - 1)%nat by lia. apply sum_n_ext. intros i Hi.
    rewrite (proj1 Hb i Hi). ring.
  - rewrite (alpha_beta_step alpha beta t Hf Hb) by lia. apply IH. lia.
Qed.

Lemma forward_backward_run :
  exists alpha beta,
    forward self observations = Ok alpha /\
    backward self observations = Ok beta /\
    shape T N alpha /\ shape T N beta /\
    backward_rec beta /\
    forall t, (t < T)%nat ->
      sum_n N (fun i => entry alpha t i * entry beta t i)
      = sum_n N (fun i => entry alpha (T - 1) i).
Proof.
  destruct forward_run as (alpha & Hfa & Hsa & Hra).
  destruct backward_run as (beta & Hfb & Hsb & Hrb).
  exists alpha, beta. repeat (split; [assumption|]).
  intros t Ht. apply (alpha_beta_constant alpha beta Hra Hrb (T - 1 - t) t). lia.
Qed.

End ForwardBackwardProofs.

Section ForwardBackwardTheorems.
Import Numpy HMM.
Local Open Scope Qc_scope.

(** backward returns the textbook backward variables: for a well-shaped
    model and a non-empty observation sequence over its bins, beta has one
    row per observation, its last row is all ones, and every earlier entry is
    beta[t, i] = sum over j of transition_probs[i, j]
    * emission_probs[j, o[t+1]] * beta[t+1, j]. *)
Theorem backward_correct (self : HiddenMarkovModel) (observations : list nat) :
  well_shaped self ->
  observations <> [] ->
  Forall (fun o => (o < num_observation_bins self)%nat) observations ->
  let N := num_hidden_states self in
  let T := length observations in
  let o := fun t => nth t observations 0%nat in
  exists beta,
    backward self observations = Ok beta /\
    shape T N beta /\
    (forall i, (i < N)%nat -> entry beta (T - 1)%nat i = 1) /\
    (forall t i, (S t < T)%nat -> (i < N)%nat ->
       entry beta t i
       = sum_n N (fun j => A self i j * B self j (o (t + 1)%nat)
                           * entry beta (t + 1)%nat j)).
Proof.
  intros Hself Hne Hobs N T o.
  destruct (backward_run self observations Hself Hobs Hne)
    as (beta & Hrun & Hshape & Hlast & Hrec).
  exists beta. auto.
Qed.

Lemma backward_correct_witness :
  exists beta,
    backward example_model [0; 1; 0]%nat = Ok beta /\
    shape 3 2 beta /\
    (forall i, (i < 2)%nat -> entry beta (3 - 1)%nat i = 1) /\
    (forall t i, (S t < 3)%nat -> (i < 2)%nat ->
       entry beta t i
       = sum_n 2 (fun j => A example_model i j
                           * B example_model j (nth (t + 1)%nat [0; 1; 0]%nat 0%nat)
                           * entry beta (t + 1)%nat j)).
Proof.
  apply (backward_correct example_model [0; 1; 0]%nat).
  - repeat split; repeat constructor.
  - discriminate.
  - repeat constructor.
Defined.

(** The forward and backward passes agree on the likelihood of the
    observations: at every time t the sum over the hidden states of
    alpha[t, i] * beta[t, i] is the same number, the sum of the last row of
    alpha. *)
Theorem forward_backward_likelihood
    (self : HiddenMarkovModel) (observations : list nat) :
  well_shaped self ->
  observations <> [] ->
  Forall (fun o => (o < num_observation_bins self)%nat) observations ->
  let N := num_hidden_states self in
  let T := length observations in
  exists alpha beta,
    forward self observations = Ok alpha /\
    backward self observations = Ok beta /\
    forall t, (t < T)%nat ->
      sum_n N (fun i => entry alpha t i * entry beta t i)
      = sum_n N (fun i => entry alpha (T - 1)%nat i).
Proof.
  intros Hself Hne Hobs N T.
  destruct (forward_backward_run self observations Hself Hobs Hne)
    as (alpha & beta & Hfa & Hfb & _ & _ & _ & Hconst).
  exists alpha, beta. auto.
Qed.

Lemma forward_backward_likelihood_witness :
  exists alpha beta,
    forward example_model [0; 1; 0]%nat = Ok alpha /\
    backward example_model [0; 1; 0]%nat = Ok beta /\
    forall t, (t < 3)%nat ->
      sum_n 2 (fun i => entry alpha t i * entry beta t i)
      = sum_n 2 (fun i => entry alpha (3 - 1)%nat i).
Proof.
  apply (forward_backward_likelihood example_model [0; 1; 0]%nat).
  - repeat split; repeat constructor.
  - discriminate.
  - repeat constructor.
Defined.

End ForwardBackwardTheorems.

Section DenominatorTheorem.
Import Numpy HMM.
Local Open Scope Qc_scope.

(** Every denominator of the Baum-Welch update is the likelihood of the
    observations: for each time t, the value denom computed from the outputs
    of forward and backward is the sum of the last row of alpha. *)
Theorem xi_denom_likelihood
    (self : HiddenMarkovModel) (observations : list nat) (t : nat) :
  well_shaped self ->
  (0 < num_hidden_states self)%nat ->
  Forall (fun o => (o < num_observation_bins self)%nat) observations ->
  (S t < length observations)%nat ->
  exists alpha beta,
    forward self observations = Ok alpha /\
    backward self observations = Ok beta /\
    xi_denom self observations alpha beta t
    = Ok (sum_n (num_hidden_states self)
                (fun i => entry alpha (length observations - 1)%nat i)).
Proof.
  intros Hself HN Hobs Ht.
  assert (Hne : observations <> []) by (intros E; rewrite E in Ht; simpl in Ht; lia).
  destruct (forward_backward_run self observations Hself Hobs Hne)
    as (alpha & beta & Hfa & Hfb & Hsa & Hsb & [_ Hrec] & Hconst).
  exists alpha, beta. split; [exact Hfa|]. split; [exact Hfb|].
  rewrite (xi_denom_ok self observations Hself Hobs HN alpha beta t Hsa Hsb Ht).
  f_equal. rewrite <- (Hconst t ltac:(lia)). apply sum_n_ext. intros i Hi.
  rewrite (Hrec t i Ht Hi), <- sum_n_mul_l. apply sum_n_ext. intros j _. ring.
Qed.

Lemma xi_denom_likelihood_witness :
  exists alpha beta,
    forward example_model [0; 1; 0]%nat = Ok alpha /\
    backward example_model [0; 1; 0]%nat = Ok beta /\
    xi_denom example_model [0; 1; 0]%nat alpha beta 1
    = Ok (sum_n 2 (fun i => entry alpha 2 i)).
Proof.
  apply (xi_denom_likelihood example_model [0; 1; 0]%nat 1).
  - repeat split; repeat constructor.
  - simpl. lia.
  - repeat constructor.
  - simpl. lia.
Defined.

End DenominatorTheorem.

Section ShortSequenceTheorem.
Import Numpy HMM.
Local Open Scope Qc_scope.

Lemma baum_welch_train_first self observations n e :
  baum_welch_step self observations = Err e ->
  baum_welch_train self observations (S n) = Err e.
Proof.
  intros H. unfold baum_welch_train. cbn [seq foldM]. rewrite H. reflexivity.
Qed.

(** Training needs at least two observations: with at least one iteration,
    baum_welch_train raises IndexError on an empty sequence (at
    observations[0]) and on a sequence of a single observation (at gamma[0],
    there being no transition to estimate from). *)
Theorem baum_welch_train_short_sequence :
  (forall self n, (0 < n)%nat -> baum_welch_train self [] n = Err IndexError) /\
  (forall self o n,
     well_shaped self -> (o < num_observation_bins self)%nat -> (0 < n)%nat ->
     baum_welch_train self [o] n = Err IndexError).
Proof.
  split.
  - intros self [|n] Hn; [lia|]. apply baum_welch_train_first. reflexivity.
  - intros self o [|n] Hself Ho Hn; [lia|]. apply baum_welch_train_first.
    assert (Hobs : Forall (fun x => (x < num_observation_bins self)%nat) [o])
      by (constructor; [exact Ho|constructor]).
    pose proof (forward_ok self [o] Hself Hobs ltac:(discriminate)) as Hf.
    apply holds_never in Hf as (alpha & Hfa & _).
    pose proof (backward_val self [o] Hself Hobs ltac:(discriminate)) as Hb.
    apply holds_never in Hb as (beta & Hfb & _).
    unfold baum_welch_step. rewrite Hfa. cbn [mbind result_bind].
    rewrite Hfb. reflexivity.
Qed.

Lemma baum_welch_train_short_sequence_witness :
  baum_welch_train example_model [1]%nat 10 = Err IndexError.
Proof.
  apply baum_welch_train_short_sequence.
  - repeat split; repeat constructor.
  - simpl. lia.
  - lia.
Defined.

End ShortSequenceTheorem.

Section TrainingShapeTheorem.
Import Numpy HMM.
Local Open Scope Qc_scope.

(** Training keeps the model's dimensions and never reads outside an array:
    for a well-shaped model with at least one hidden state and at least two
    observations over its bins, baum_welch_train either meets a zero
    denominator or returns a model with the same numbers of hidden states
    and bins and arrays of the same shapes; it raises no IndexError and no
    ValueError. *)
Theorem baum_welch_train_keeps_shape
    (self : HiddenMarkovModel) (observations : list nat) (n_iter : nat) :
  well_shaped self ->
  (0 < num_hidden_states self)%nat ->
  (2 <= length observations)%nat ->
  Forall (fun o => (o < num_observation_bins self)%nat) observations ->
  baum_welch_train self observations n_iter = Err ZeroDivisor \/
  exists self',
    baum_welch_train self observations n_iter = Ok self' /\
    num_hidden_states self' = num_hidden_states self /\
    num_observation_bins self' = num_observation_bins self /\
    well_shaped self'.
Proof.
  intros Hself HN HT Hobs.
  pose (I := fun (k : nat) (self' : HiddenMarkovModel) =>
               num_hidden_states self' = num_hidden_states self /\
               num_observation_bins self' = num_observation_bins self /\
               well_shaped self').
  assert (H : holds zero_div (I (0 + n_iter)%nat)
                (baum_welch_train self observations n_iter)).
  { unfold baum_welch_train. apply (holds_foldM_seq zero_div I).
    - split; [reflexivity|]. split; [reflexivity|exact Hself].
    - intros k self' _ (HN' & HM' & Hself').
      eapply holds_mono;
        [apply (baum_welch_step_ok self' observations Hself')|auto|].
      + rewrite HM'. exact Hobs.
      + rewrite HN'. exact HN.
      + exact HT.
      + intros self'' (HN'' & HM'' & Hself'' & _). unfold I.
        split; [congruence|]. split; [congruence|exact Hself'']. }
  destruct (baum_welch_train self observations n_iter) as [self'|e].
  - right. exists self'. split; [reflexivity|exact H].
  - left. cbn in H. unfold zero_div in H. rewrite H. reflexivity.
Qed.

Lemma baum_welch_train_keeps_shape_witness :
  baum_welch_train example_model [0; 1; 0]%nat 2 = Err ZeroDivisor \/
  exists self',
    baum_welch_train example_model [0; 1; 0]%nat 2 = Ok self' /\
    num_hidden_states self' = num_hidden_states example_model /\
    num_observation_bins self' = num_observation_bins example_model /\
    well_shaped self'.
Proof.
  apply (baum_welch_train_keeps_shape example_model [0; 1; 0]%nat 2).
  - repeat split; repeat constructor.
  - simpl. lia.
  - simpl. lia.
  - repeat constructor.
Defined.

End TrainingShapeTheorem.

Section UnseenBinsProofs.
Import Numpy HMM.
Local Open Scope Qc_scope.

Lemma foldM_seq_inv {E B} (I : nat -> B -> Prop)
    (f : B -> nat -> Outcome.result E B) (len : nat) :
  forall (start : nat) (b b' : B),
    foldM f (seq start len) b = Ok b' ->
    I start b ->
    (forall k b b1, (start <= k < start + len)%nat -> I k b ->
       f b k = Ok b1 -> I (S k) b1) ->
    I (start + len)%nat b'.
Proof.
  induction len as [|len IH]; intros start b b' Hrun Hb Hstep.
  - injection Hrun as <-. rewrite Nat.add_0_r. exact Hb.
  - cbn [seq foldM] in Hrun. destruct (f b start) as [b1|e] eqn:Ef;
      [|discriminate]. cbn [mbind result_bind] in Hrun.
    replace (start + S len)%nat with (S start + len)%nat by lia.
    apply (IH (S start) b1 b' Hrun).
    + apply (Hstep start b b1); [lia|exact Hb|exact Ef].
    + intros k b2 b3 Hk. apply Hstep. lia.
Qed.

Lemma at1_replicate_0 k i : at1 (replicate k 0) i = 0.
Proof.
  unfold at1. destruct (replicate k 0 !! i) as [x|] eqn:E; [|reflexivity].
  apply lookup_replicate in E as [-> _]. reflexivity.
Qed.

(** Writing a column of zeros: the column is zero afterwards and the other
    columns are as before. *)
Lemma setcolumn_rows_zero j : forall (m m' : array2) (v : array1),
  setcolumn_rows m j v = Ok m' ->
  (forall i, at1 v i = 0) ->
  forall i j', entry m' i j' = if decide (j' = j) then 0 else entry m i j'.
Proof.
  induction m as [|row m IH]; intros m' v Hrun Hv i j'.
  - injection Hrun as <-. unfold entry. rewrite !lookup_nil.
    case_decide; reflexivity.
  - destruct v as [|x v]; [discriminate|]. cbn [setcolumn_rows] in Hrun.
    unfold setitem in Hrun. case_decide as Hj; [|discriminate].
    cbn [mbind result_bind] in Hrun.
    destruct (setcolumn_rows m j v) as [rest|e] eqn:E; [|discriminate].
    injection Hrun as <-.
    assert (Hx : x = 0) by (apply (Hv 0%nat)).
    destruct i as [|i].
    + unfold entry. cbn [lookup list_lookup]. unfold at1.
      case_decide as Hd.
      * subst j'. rewrite list_lookup_insert_eq by exact Hj. exact Hx.
      * rewrite list_lookup_insert_ne by congruence. reflexivity.
    + specialize (IH rest v E (fun i => Hv (S i)) i j'). exact IH.
Qed.

Lemma setcolumn_zero (m m' : array2) j (v : array1) :
  setcolumn m j v = Ok m' ->
  (forall i, at1 v i = 0) ->
  forall i j', entry m' i j' = if decide (j' = j) then 0 else entry m i j'.
Proof.
  unfold setcolumn. intros Hrun Hv. case_decide.
  - eapply setcolumn_rows_zero; eassumption.
  - destruct v as [|x [|y v]]; try discriminate.
    eapply setcolumn_rows_zero; [exact Hrun|].
    intros i. assert (x = 0) as -> by (apply (Hv 0%nat)).
    apply at1_replicate_0.
Qed.

Lemma select_unobserved (gamma : array2) (observations : list nat) l selected :
  l ∉ observations ->
  select_rows gamma (map (fun o => Nat.eqb o l) observations) = Ok selected ->
  selected = [].
Proof.
  intros Hl. unfold select_rows. case_decide; [|discriminate].
  intros [= <-]. clear H. revert gamma.
  induction observations as [|o observations IH]; intros gamma; [reflexivity|].
  apply not_elem_of_cons in Hl as [Hne Hl].
  destruct gamma as [|row gamma]; [reflexivity|].
  cbn [map zip zip_with]. rewrite filter_cons_False.
  - apply IH, Hl.
  - cbn [fst]. destruct (Nat.eqb_spec o l); [congruence|discriminate].
Qed.

Lemma emission_column_unobserved self observations gamma em em' l :
  emission_column self observations gamma em l = Ok em' ->
  forall i j,
    entry em' i j
    = if decide (j = l /\ l ∉ observations) then 0
      else if decide (j = l) then entry em' i j else entry em i j.
Proof.
  unfold emission_column. intros Hrun i j.
  destruct (select_rows gamma _) as [selected|e] eqn:Esel; [|discriminate].
  cbn [mbind result_bind] in Hrun.
  destruct (decide (j = l)) as [->|Hj].
  - case_decide as Hd; [|reflexivity]. destruct Hd as [_ Hl].
    rewrite (select_unobserved _ _ _ _ Hl Esel) in Hrun.
    rewrite (setcolumn_zero _ _ _ _ Hrun (at1_replicate_0 _) i l).
    rewrite decide_True by reflexivity. reflexivity.
  - rewrite decide_False by tauto.
    assert (Hshape : exists v, setcolumn em l v = Ok em') by eauto.
    clear Hrun Esel. destruct Hshape as [v Hrun]. revert Hrun.
    unfold setcolumn. intros Hrun.
    assert (Hgen : forall (m m' : array2) (w : array1),
              setcolumn_rows m l w = Ok m' -> forall i, entry m' i j = entry m i j).
    { clear -Hj. induction m as [|row m IH]; intros m' w Hrun i.
      - injection Hrun as <-. reflexivity.
      - destruct w as [|x w]; [discriminate|]. cbn [setcolumn_rows] in Hrun.
        unfold setitem in Hrun. case_decide; [|discriminate].
        cbn [mbind result_bind] in Hrun.
        destruct (setcolumn_rows m l w) as [rest|e] eqn:E; [|discriminate].
        injection Hrun as <-. destruct i as [|i].
        + unfold entry. cbn [lookup list_lookup]. unfold at1.
          rewrite list_lookup_insert_ne by congruence. reflexivity.
        + exact (IH rest w E i). }
    case_decide; [eapply Hgen; exact Hrun|].
    destruct v as [|x [|y v]]; try discriminate. eapply Hgen; exact Hrun.
Qed.

Lemma div_rows_zero_entry : forall (m m' : array2) (s : array1),
  div_rows m s = Ok m' ->
  forall i j, entry m i j = 0 -> entry m' i j = 0.
Proof.
  induction m as [|row m IH]; intros m' s Hrun i j Hz.
  - injection Hrun as <-. reflexivity.
  - destruct s as [|d s]; [discriminate|]. cbn [div_rows] in Hrun.
    unfold vdiv in Hrun. case_decide; [discriminate|].
    cbn [mbind result_bind] in Hrun.
    destruct (div_rows m s) as [rest|e] eqn:E; [|discriminate].
    injection Hrun as <-. destruct i as [|i].
    + unfold entry in *. cbn [lookup list_lookup] in *. unfold at1 in *.
      change (map ?f row) with (f <$> row). rewrite list_lookup_fmap.
      destruct (row !! j) as [x|]; [|reflexivity]. cbn in *. rewrite Hz.
      unfold Qcdiv. ring.
    + exact (IH rest s E i j Hz).
Qed.

Lemma baum_welch_step_unseen self observations self' :
  baum_welch_step self observations = Ok self' ->
  num_observation_bins self' = num_observation_bins self /\
  forall l, (l < num_observation_bins self)%nat -> l ∉ observations ->
    forall i, B self' i l = 0.
Proof.
  unfold baum_welch_step. intros Hrun.
  destruct (forward self observations) as [alpha|]; [|discriminate].
  cbn [mbind result_bind] in Hrun.
  destruct (backward self observations) as [beta|]; [|discriminate].
  cbn [mbind result_bind] in Hrun.
  destruct (foldM (xi_row self observations alpha beta) _ _) as [xi|];
    [|discriminate].
  cbn [mbind result_bind] in Hrun.
  destruct (index (sum3_axis2 xi) 0) as [initial|]; [|discriminate].
  cbn [mbind result_bind] in Hrun.
  destruct (div_rows (sum3_axis0 _ _ xi) _) as [transition|]; [|discriminate].
  cbn [mbind result_bind] in Hrun.
  destruct (index_last xi) as [last_xi|]; [|discriminate].
  cbn [mbind result_bind] in Hrun.
  destruct (foldM (emission_column self observations _) _ _) as [em|] eqn:Eloop;
    [|discriminate].
  cbn [mbind result_bind] in Hrun.
  destruct (div_rows em (sum_axis1 em)) as [em'|] eqn:Ediv; [|discriminate].
  injection Hrun as <-. split; [reflexivity|].
  intros l Hl Hunseen i. unfold B. cbn [emission_probs].
  apply (div_rows_zero_entry em em' _ Ediv).
  pose (I := fun (k : nat) (m : array2) =>
               forall l, (l < k)%nat -> l ∉ observations ->
                 forall i, entry m i l = 0).
  assert (HI : I (0 + num_observation_bins self)%nat em).
  { apply (foldM_seq_inv I _ _ _ _ _ Eloop).
    - intros l' Hl'. lia.
    - intros k m m1 Hk Hm Hstep l' Hl' Hu i'.
      rewrite (emission_column_unobserved _ _ _ _ _ _ Hstep i' l').
      destruct (decide (l' = k)) as [->|Hne].
      + rewrite decide_True by tauto. reflexivity.
      + rewrite !decide_False by tauto. apply Hm; [lia|exact Hu]. }
  apply HI; assumption.
Qed.

(** After training, an observation bin that never occurs in the training
    sequence has emission probability 0 in every hidden state: whenever
    baum_welch_train with at least one iteration returns a model, its
    emission_probs[i, l] is 0 for every state i and every bin l absent from
    the observations. *)
Theorem baum_welch_train_unseen_bins
    (self : HiddenMarkovModel) (observations : list nat) (n_iter : nat)
    (self' : HiddenMarkovModel) :
  (0 < n_iter)%nat ->
  baum_welch_train self observations n_iter = Ok self' ->
  forall l i,
    (l < num_observation_bins self')%nat -> l ∉ observations ->
    B self' i l = 0.
Proof.
  intros Hn Hrun l i Hl Hunseen. destruct n_iter as [|n]; [lia|].
  unfold baum_welch_train in Hrun. rewrite seq_S, foldM_app in Hrun.
  destruct (foldM _ (seq 0 n) self) as [mid|] eqn:E; [|discriminate].
  cbn [mbind result_bind foldM] in Hrun.
  destruct (baum_welch_step mid observations) as [self''|] eqn:Estep;
    [|discriminate].
  injection Hrun as <-.
  destruct (baum_welch_step_unseen mid observations self'' Estep) as [HM Hzero].
  apply Hzero; [rewrite <- HM; exact Hl|exact Hunseen].
Qed.

Lemma baum_welch_train_unseen_bins_witness :
  exists self',
    baum_welch_train example_model [0; 0; 0]%nat 1 = Ok self' /\
    B self' 0 1 = 0 /\ B self' 1 1 = 0.
Proof.
  destruct (baum_welch_train example_model [0; 0; 0]%nat 1) as [self'|e] eqn:E.
  - exists self'. split; [reflexivity|].
    assert (Hbins : num_observation_bins self' = 2%nat)
      by (vm_compute in E; injection E as <-; reflexivity).
    assert (Hunseen : 1%nat ∉ [0; 0; 0]%nat).
    { intros H. repeat (apply elem_of_cons in H as [H|H]; [discriminate|]).
      inversion H. }
    split; apply (baum_welch_train_unseen_bins example_model [0; 0; 0]%nat 1 self');
      try exact E; try exact Hunseen; try lia.
  - vm_compute in E. discriminate E.
Defined.

End UnseenBinsProofs.

Section FrequencyProofs.
Import Numpy Transition HMM Counts.
Local Open Scope Qc_scope.

Lemma entry_full2_0 n i j : entry (full2 n n 0) i j = 0.
Proof.
  unfold entry, full2. destruct (replicate n (replicate n 0) !! i) eqn:E;
    [|reflexivity].
  apply lookup_replicate in E as [-> _]. apply at1_replicate_0.
Qed.

(** The counting loop adds to each cell the number of its pairs, and to each
    row sum the number of pairs leaving the row's state. *)
Lemma count_loop_exact n (ps : list (nat * nat)) : forall m,
  shape n n m ->
  Forall (fun p => (p.1 < n)%nat /\ (p.2 < n)%nat) ps ->
  exists m',
    foldM count_pair ps m = Ok m' /\ shape n n m' /\
    (forall i j, entry m' i j
                 = entry m i j + Qc_of_nat (length (filter (fun p => p = (i, j)) ps))) /\
    (forall i, row_sum m' i
               = row_sum m i + Qc_of_nat (length (filter (fun p => p.1 = i) ps))).
Proof.
  induction ps as [|[c nx] ps IH]; intros m Hm Hall.
  - exists m. split; [reflexivity|]. split; [exact Hm|].
    split; intros; cbn; rewrite Qc_of_nat_0; ring.
  - apply Forall_cons in Hall as [[Hc Hnx] Hall]. cbn [fst snd] in Hc, Hnx.
    destruct (shape_lookup n n m c Hm Hc) as (row & Hrow & Hlen).
    cbn [foldM]. rewrite (count_pair_ok n m c nx row Hm Hc Hnx Hrow).
    cbn [mbind result_bind].
    set (m1 := <[c := <[nx := at1 row nx + 1]> row]> m).
    assert (Hm1 : shape n n m1)
      by (apply shape_insert; [exact Hm|rewrite length_insert; exact Hlen]).
    destruct (IH m1 Hm1 Hall) as (m' & Hrun & Hm' & Hcells & Hrows).
    exists m'. split; [exact Hrun|]. split; [exact Hm'|]. split.
    + intros i j. rewrite Hcells. unfold m1.
      rewrite (entry_insert m c nx row _ i j Hrow) by lia.
      destruct (decide ((c, nx) = (i, j))) as [Heq|Hne].
      * injection Heq as <- <-. rewrite decide_True by auto.
        rewrite filter_cons_True by reflexivity. cbn [length].
        rewrite Qc_of_nat_S, (entry_lookup _ _ _ _ Hrow). ring.
      * rewrite decide_False by (intros [-> ->]; apply Hne; reflexivity).
        rewrite filter_cons_False by exact Hne. reflexivity.
    + intros i. rewrite Hrows.
      assert (Hsum1 : row_sum m1 i = if decide (i = c) then row_sum m i + 1
                                     else row_sum m i).
      { unfold row_sum, m1. case_decide as Hs.
        - subst i. rewrite list_lookup_insert_eq
            by (eapply lookup_lt_Some; exact Hrow).
          rewrite Hrow, np_sum_insert by lia. ring.
        - rewrite list_lookup_insert_ne by congruence. reflexivity. }
      rewrite Hsum1. case_decide as Hd.
      * subst i. rewrite filter_cons_True by reflexivity. cbn [length].
        rewrite Qc_of_nat_S. ring.
      * rewrite filter_cons_False by (cbn [fst]; congruence). reflexivity.
Qed.

Lemma div_rows_entry : forall (m m' : array2),
  div_rows m (sum_axis1 m) = Ok m' ->
  forall i j, entry m' i j = entry m i j / row_sum m i.
Proof.
  induction m as [|row m IH]; intros m' Hrun i j.
  - injection Hrun as <-. unfold entry, row_sum. rewrite lookup_nil.
    unfold Qcdiv. ring.
  - cbn [sum_axis1 map div_rows] in Hrun. unfold vdiv in Hrun.
    case_decide; [discriminate|]. cbn [mbind result_bind] in Hrun.
    fold (sum_axis1 m) in Hrun.
    destruct (div_rows m (sum_axis1 m)) as [rest|e] eqn:Erest; [|discriminate].
    injection Hrun as <-. destruct i as [|i].
    + unfold entry, row_sum. cbn [lookup list_lookup]. unfold at1.
      change (map ?f row) with (f <$> row). rewrite list_lookup_fmap.
      destruct (row !! j) as [x|]; [reflexivity|]. cbn. unfold Qcdiv. ring.
    + exact (IH rest eq_refl i j).
Qed.

Lemma departures_elem (s : nat) (ps : list (nat * nat)) :
  s ∈ ps.*1 -> (0 < length (filter (fun p => p.1 = s) ps))%nat.
Proof.
  induction ps as [|[c nx] ps IH]; intros H; [inversion H|].
  cbn [fmap list_fmap fst] in H.
  destruct (decide (c = s)) as [->|Hne].
  - rewrite filter_cons_True by reflexivity. cbn [length]. lia.
  - rewrite filter_cons_False by (cbn [fst]; congruence).
    apply elem_of_cons in H as [->|H]; [contradiction|]. apply IH, H.
Qed.

(** The estimate is the matrix of empirical transition frequencies: when
    every state below num_states is the current state of some transition of
    the sequence, estimate_transition_matrix returns a num_states x
    num_states matrix whose entry (i, j) is the number of times j follows i
    divided by the number of transitions leaving i. *)
Theorem estimate_transition_matrix_frequencies
    (states : list nat) (num_states : nat) :
  Forall (fun x => (x < num_states)%nat) states ->
  (forall s, (s < num_states)%nat -> s ∈ removelast states) ->
  exists m,
    estimate_transition_matrix states num_states = Ok m /\
    shape num_states num_states m /\
    forall i j,
      entry m i j
      = Qc_of_nat (transitions i j states) / Qc_of_nat (departures i states).
Proof.
  intros Hstates Hall.
  destruct (estimate_transition_matrix_all_rows states num_states Hstates Hall)
    as (m & Hrun & Hm & _).
  exists m. split; [exact Hrun|]. split; [exact Hm|]. intros i j.
  unfold estimate_transition_matrix in Hrun.
  destruct (count_loop_exact num_states _ (full2 num_states num_states 0)
              (shape_full2 _ _ _) (pairs_in_range _ _ Hstates))
    as (counts & Hloop & _ & Hcells & Hrows).
  rewrite Hloop in Hrun. cbn [mbind result_bind] in Hrun.
  rewrite (div_rows_entry counts m Hrun i j), Hcells, Hrows.
  rewrite entry_full2_0, row_sum_full2. unfold transitions, departures, pairs.
  f_equal; ring.
Qed.

Lemma estimate_transition_matrix_frequencies_witness :
  exists m,
    estimate_transition_matrix [0; 1; 0; 0; 1]%nat 2 = Ok m /\
    shape 2 2 m /\
    forall i j,
      entry m i j
      = Qc_of_nat (transitions i j [0; 1; 0; 0; 1]%nat)
        / Qc_of_nat (departures i [0; 1; 0; 0; 1]%nat).
Proof.
  apply (estimate_transition_matrix_frequencies [0; 1; 0; 0; 1]%nat 2).
  - repeat constructor.
  - intros s Hs. cbn. destruct s as [|[|s]]; [| |lia].
    + apply elem_of_cons. left. reflexivity.
    + apply elem_of_cons. right. apply elem_of_cons. left. reflexivity.
Defined.

End FrequencyProofs.

Section SlidingProofs.
Import Numpy Transition Sliding.
Local Open Scope Qc_scope.

Lemma estimate_transition_matrix_in_range (states : list nat) (num_states : nat) :
  Forall (fun x => (x < num_states)%nat) states ->
  holds zero_div (fun _ => True) (estimate_transition_matrix states num_states).
Proof.
  intros Hstates. unfold estimate_transition_matrix.
  destruct (count_loop num_states _ (full2 num_states num_states 0)
              (shape_full2 _ _ _) (pairs_in_range _ _ Hstates))
    as (m & Hrun & Hm & _).
  rewrite Hrun. cbn [mbind result_bind].
  eapply holds_mono; [apply (div_rows_sums _ _ m Hm)|auto|auto].
Qed.

Lemma appended_in_range (states : list nat) (num_states : nat) :
  Forall (fun x => (x < num_states)%nat) states ->
  exists w, appended (estimate_transition_matrix states num_states) = Ok w.
Proof.
  intros H. pose proof (estimate_transition_matrix_in_range _ _ H) as Hr.
  destruct (estimate_transition_matrix states num_states) as [m|e].
  - eexists. reflexivity.
  - cbn in Hr. unfold zero_div in Hr. subst e. eexists. reflexivity.
Qed.

Lemma window_in_range (states : list nat) (num_states start window_size : nat) :
  Forall (fun x => (x < num_states)%nat) states ->
  Forall (fun x => (x < num_states)%nat) (window states start window_size).
Proof. intros H. unfold window. apply Forall_take, Forall_drop, H. Qed.

(** The list returned for a sequence of states below num_states has one
    matrix per start position 0 .. len(states) - window_size - 1, in order,
    the k-th being the estimate over states[k : k + window_size]; each of
    these windows has exactly window_size states.  So a sequence no longer
    than the window gives the empty list, and the last full window, the one
    starting at len(states) - window_size, is not estimated. *)
Theorem sliding_transition_matrices_windows
    (states : list nat) (num_states window_size : nat) :
  Forall (fun x => (x < num_states)%nat) states ->
  exists matrices,
    sliding_transition_matrices states num_states window_size = Ok matrices /\
    length matrices = (length states - window_size)%nat /\
    forall k, (k < length states - window_size)%nat ->
      length (window states k window_size) = window_size /\
      exists w,
        appended (estimate_transition_matrix (window states k window_size)
                    num_states) = Ok w /\
        matrices !! k = Some w.
Proof.
  intros Hstates.
  pose (I := fun (k : nat) (ms : list window_matrix) =>
               length ms = k /\
               forall s, (s < k)%nat ->
                 exists w,
                   appended (estimate_transition_matrix
                               (window states s window_size) num_states) = Ok w /\
                   ms !! s = Some w).
  assert (H : holds never (I (0 + (length states - window_size))%nat)
                (sliding_transition_matrices states num_states window_size)).
  { unfold sliding_transition_matrices. apply (holds_foldM_seq never I).
    - split; [reflexivity|]. intros s Hs. lia.
    - intros k ms Hk [Hlen Hms]. unfold sliding_body.
      destruct (appended_in_range _ num_states
                  (window_in_range states num_states k window_size Hstates))
        as [w Hw].
      rewrite Hw. cbn [mbind result_bind holds]. split.
      + rewrite length_app. cbn [length]. lia.
      + intros s Hs. destruct (decide (s = k)) as [->|Hne].
        * exists w. split; [exact Hw|].
          rewrite lookup_app_r by lia. rewrite Hlen, Nat.sub_diag. reflexivity.
        * destruct (Hms s ltac:(lia)) as (w' & Hw' & Hs').
          exists w'. split; [exact Hw'|].
          rewrite lookup_app_l by lia. exact Hs'. }
  apply holds_never in H as (matrices & Hrun & Hlen & Hms).
  exists matrices. split; [exact Hrun|]. split; [exact Hlen|].
  intros k Hk. split; [|apply Hms; exact Hk].
  unfold window. rewrite length_take, length_drop. lia.
Qed.

Lemma sliding_transition_matrices_windows_witness :
  exists matrices,
    sliding_transition_matrices [0; 1; 0; 1; 1]%nat 2 3 = Ok matrices /\
    length matrices = (length [0; 1; 0; 1; 1]%nat - 3)%nat /\
    forall k, (k < length [0; 1; 0; 1; 1]%nat - 3)%nat ->
      length (window [0; 1; 0; 1; 1]%nat k 3) = 3%nat /\
      exists w,
        appended (estimate_transition_matrix (window [0; 1; 0; 1; 1]%nat k 3) 2)
        = Ok w /\
        matrices !! k = Some w.
Proof.
  apply (sliding_transition_matrices_windows [0; 1; 0; 1; 1]%nat 2 3).
  repeat constructor.
Defined.

End SlidingProofs.

Section SimulateProofs.
Import Numpy Simulate.
Local Open Scope Qc_scope.

Variable rng : Type.
Variable np_random_choice : nat -> array1 -> rng -> result (nat * rng).
Variable transition_matrix : array2.
Variable start_state : nat.

Let n := length transition_matrix.

(** What is assumed of np.random.choice: a drawn index is below [a] and has
    nonzero probability, and a draw from a row of the matrix succeeds. *)
Hypothesis choice_sound : forall p g k g',
  np_random_choice n p g = Ok (k, g') -> (k < n)%nat /\ at1 p k <> 0.
Hypothesis choice_rows : forall p g,
  p ∈ transition_matrix -> exists k g', np_random_choice n p g = Ok (k, g').
Hypothesis start_in_range : (start_state < n)%nat.

Let visited (k : nat) (st : list nat * nat * rng) : Prop :=
  let '(states, current_state, _) := st in
  length states = k /\
  (start_state :: states) !! k = Some current_state /\
  (current_state < n)%nat /\
  Forall (fun s => (s < n)%nat) states /\
  forall i prev next,
    (start_state :: states) !! i = Some prev -> states !! i = Some next ->
    entry transition_matrix prev next <> 0.

Lemma simulate_step_visited k st :
  visited k st ->
  holds never (visited (S k))
    (simulate_step rng np_random_choice transition_matrix st k).
Proof.
  destruct st as [[states current_state] g].
  intros (Hlen & Hcur & Hlt & Hall & Hpath). unfold simulate_step.
  destruct (lookup_lt_is_Some_2 transition_matrix current_state Hlt)
    as [p Hp].
  rewrite (index_ok _ _ _ Hp). cbn [mbind result_bind].
  destruct (choice_rows p g (list_elem_of_lookup_2 _ _ _ Hp))
    as (next & g' & Hdraw).
  fold n. rewrite Hdraw. cbn [mbind result_bind holds].
  destruct (choice_sound p g next g' Hdraw) as [Hnext Hpos].
  split; [rewrite length_app; cbn [length]; lia|].
  split.
  { change (start_state :: states ++ [next])
      with ((start_state :: states) ++ [next]).
    rewrite lookup_app_r by (cbn [length]; lia).
    cbn [length]. replace (S k - S (length states))%nat with 0%nat by lia.
    reflexivity. }
  split; [exact Hnext|].
  split; [apply Forall_app; split; [exact Hall|repeat constructor; exact Hnext]|].
  intros i prev nx Hprev Hnx.
  destruct (decide (i < length states)%nat) as [Hi|Hi].
  - rewrite lookup_app_l in Hnx by exact Hi.
    change (start_state :: states ++ [next])
      with ((start_state :: states) ++ [next]) in Hprev.
    rewrite lookup_app_l in Hprev by (cbn [length]; lia).
    exact (Hpath i prev nx Hprev Hnx).
  - assert (i = length states) as ->.
    { apply lookup_lt_Some in Hnx. rewrite length_app in Hnx.
      cbn [length] in Hnx. lia. }
    rewrite lookup_app_r in Hnx by lia. rewrite Nat.sub_diag in Hnx.
    injection Hnx as <-.
    change (start_state :: states ++ [next])
      with ((start_state :: states) ++ [next]) in Hprev.
    rewrite lookup_app_l in Hprev by (cbn [length]; lia).
    rewrite Hlen in Hprev. rewrite Hcur in Hprev. injection Hprev as <-.
    rewrite (entry_lookup _ _ _ _ Hp). exact Hpos.
Qed.

Lemma simulate_markov_chain_visited n_steps g :
  exists states g',
    simulate_markov_chain rng np_random_choice transition_matrix
      start_state n_steps g = Ok (states, g') /\
    length states = n_steps /\
    Forall (fun s => (s < n)%nat) states /\
    forall i prev next,
      (start_state :: states) !! i = Some prev -> states !! i = Some next ->
      entry transition_matrix prev next <> 0.
Proof.
  unfold simulate_markov_chain.
  assert (H : holds never (visited (0 + n_steps)%nat)
                (foldM (simulate_step rng np_random_choice transition_matrix)
                   (seq 0 n_steps) ([], start_state, g))).
  { apply (holds_foldM_seq never visited).
    - split; [reflexivity|]. split; [reflexivity|].
      split; [exact start_in_range|]. split; [constructor|].
      intros i prev next _ Hnx. rewrite lookup_nil in Hnx. discriminate.
    - intros k st _ Hst. apply simulate_step_visited, Hst. }
  apply holds_never in H as ([[states cur] g'] & Hrun & Hlen & _ & _ & Hall & Hpath).
  exists states, g'. rewrite Hrun. cbn [mbind result_bind].
  split; [reflexivity|]. split; [exact Hlen|]. split; [exact Hall|exact Hpath].
Qed.

End SimulateProofs.

Section SimulateTheorem.
Import Numpy Simulate.
Local Open Scope Qc_scope.

(** A simulated chain is a path of the matrix.  Provided np.random.choice
    returns indices below its argument a that have nonzero probability, and
    draws successfully from each row of the matrix, simulate_markov_chain
    started at a valid state returns exactly n_steps states, each a valid
    row index, and every step (from the start state to the first state, and
    from each state to the next) has a nonzero entry in the matrix. *)
Theorem simulate_markov_chain_path
    (rng : Type) (np_random_choice : nat -> array1 -> rng -> result (nat * rng))
    (transition_matrix : array2) (start_state n_steps : nat) (g : rng) :
  (forall p g k g',
     np_random_choice (length transition_matrix) p g = Ok (k, g') ->
     (k < length transition_matrix)%nat /\ at1 p k <> 0) ->
  (forall p g, p ∈ transition_matrix ->
     exists k g', np_random_choice (length transition_matrix) p g = Ok (k, g')) ->
  (start_state < length transition_matrix)%nat ->
  exists states g',
    simulate_markov_chain rng np_random_choice transition_matrix
      start_state n_steps g = Ok (states, g') /\
    length states = n_steps /\
    Forall (fun s => (s < length transition_matrix)%nat) states /\
    forall i prev next,
      (start_state :: states) !! i = Some prev -> states !! i = Some next ->
      entry transition_matrix prev next <> 0.
Proof.
  intros Hsound Hrows Hstart.
  exact (simulate_markov_chain_visited rng np_random_choice transition_matrix
           start_state Hsound Hrows Hstart n_steps g).
Qed.

Lemma first_nonzero_sound (p : array1) k :
  first_nonzero p = Some k -> (k < length p)%nat /\ at1 p k <> 0.
Proof.
  revert k. induction p as [|x p IH]; intros k H; [discriminate|].
  cbn [first_nonzero] in H. case_decide as Hx.
  - destruct (first_nonzero p) as [k'|]; [|discriminate].
    injection H as <-. destruct (IH k' eq_refl) as [Hk Hnz].
    split; [cbn [length]; lia|exact Hnz].
  - injection H as <-. split; [cbn [length]; lia|exact Hx].
Qed.

Lemma choice_at_zero_sound a p g k g' :
  choice_at_zero a p g = Ok (k, g') -> (k < a)%nat /\ at1 p k <> 0.
Proof.
  unfold choice_at_zero. case_decide as Ha; [|discriminate].
  destruct (first_nonzero p) as [k'|] eqn:E; [|discriminate].
  intros [= <- <-]. rewrite <- Ha. apply first_nonzero_sound, E.
Qed.

Lemma simulate_markov_chain_path_witness :
  exists states g',
    simulate_markov_chain nat choice_at_zero [[0; 1]; [1 / 2; 1 / 2]] 0 3 0%nat
    = Ok (states, g') /\
    length states = 3%nat /\
    Forall (fun s => (s < length [[0; 1]; [1 / 2; 1 / 2]])%nat) states /\
    forall i prev next,
      (0%nat :: states) !! i = Some prev -> states !! i = Some next ->
      entry [[0; 1]; [1 / 2; 1 / 2]] prev next <> 0.
Proof.
  apply (simulate_markov_chain_path nat choice_at_zero
           [[0; 1]; [1 / 2; 1 / 2]] 0 3 0%nat).
  - intros p g k g'. apply choice_at_zero_sound.
  - intros p g Hp.
    apply elem_of_cons in Hp as [->|Hp];
      [|apply elem_of_cons in Hp as [->|Hp]; [|inversion Hp]];
      eexists _, _; vm_compute; reflexivity.
  - simpl. lia.
Defined.

End SimulateTheorem.

Section StrategyProofs.
Import Numpy HMM Strategy.
Local Open Scope Qc_scope.

(** The scan of argmax: [best] is the first index of the largest entry seen
    so far, and stays so to the end. *)
Lemma argmax_from_spec (a : array1) : forall (seen : array1) best,
  (best < length seen)%nat ->
  (forall j, (j < length seen)%nat -> at1 seen j <= at1 seen best) ->
  (forall j, (j < best)%nat -> at1 seen j < at1 seen best) ->
  let p := argmax_from best (at1 seen best) (length seen) a in
  (p < length (seen ++ a))%nat /\
  (forall j, (j < length (seen ++ a))%nat ->
     at1 (seen ++ a) j <= at1 (seen ++ a) p) /\
  (forall j, (j < p)%nat -> at1 (seen ++ a) j < at1 (seen ++ a) p).
Proof.
  induction a as [|x a IH]; intros seen best Hbest Hmax Hfirst; cbv zeta.
  - cbn [argmax_from]. rewrite app_nil_r. auto.
  - cbn [argmax_from].
    assert (Hold : forall j, (j < length seen)%nat ->
              at1 (seen ++ [x]) j = at1 seen j).
    { intros j Hj. unfold at1. rewrite lookup_app_l by exact Hj. reflexivity. }
    assert (Hnew : at1 (seen ++ [x]) (length seen) = x).
    { unfold at1. rewrite lookup_app_r by lia. rewrite Nat.sub_diag.
      reflexivity. }
    assert (Hlen : length (seen ++ [x]) = S (length seen))
      by (rewrite length_app; cbn [length]; lia).
    replace (seen ++ x :: a) with ((seen ++ [x]) ++ a)
      by (rewrite <- app_assoc; reflexivity).
    case_decide as Hlt.
    + pose proof (IH (seen ++ [x]) (length seen)) as H. cbv zeta in H.
      rewrite Hnew, Hlen in H. apply H.
      * lia.
      * intros j Hj.
        destruct (decide (j = length seen)) as [->|Hne];
          [rewrite Hnew; apply Qcle_refl|].
        rewrite Hold by lia. apply Qclt_le_weak.
        eapply Qcle_lt_trans; [apply Hmax; lia|exact Hlt].
      * intros j Hj. rewrite Hold by exact Hj.
        eapply Qcle_lt_trans; [apply Hmax; exact Hj|exact Hlt].
    + pose proof (IH (seen ++ [x]) best) as H. cbv zeta in H.
      rewrite (Hold best Hbest), Hlen in H. apply H.
      * lia.
      * intros j Hj.
        destruct (decide (j = length seen)) as [->|Hne].
        -- rewrite Hnew. apply Qcnot_lt_le, Hlt.
        -- rewrite Hold by lia. apply Hmax. lia.
      * intros j Hj. rewrite Hold by lia. apply Hfirst, Hj.
Qed.

Lemma np_argmax_spec (a : array1) :
  a <> [] ->
  exists p,
    np_argmax a = Ok p /\ (p < length a)%nat /\
    (forall j, (j < length a)%nat -> at1 a j <= at1 a p) /\
    (forall j, (j < p)%nat -> at1 a j < at1 a p).
Proof.
  destruct a as [|x a]; [congruence|]. intros _.
  exists (argmax_from 0 x 1 a). split; [reflexivity|].
  apply (argmax_from_spec a [x] 0%nat).
  - cbn [length]. lia.
  - intros j Hj. cbn [length] in Hj. replace j with 0%nat by lia.
    apply Qcle_refl.
  - intros j Hj. lia.
Qed.

(** predict_next_state returns the most probable next state: for a current
    state whose row of the transition matrix is not empty, the result is a
    column index of that row whose entry is at least every entry of the row
    and strictly larger than every entry before it (the first maximum). *)
Theorem predict_next_state_most_probable
    (self : MarkovTradingStrategy) (current_state : nat) (row : array1) :
  transition_matrix self !! current_state = Some row ->
  row <> [] ->
  exists p,
    predict_next_state self current_state = Ok p /\
    (p < length row)%nat /\
    (forall j, (j < length row)%nat -> at1 row j <= at1 row p) /\
    (forall j, (j < p)%nat -> at1 row j < at1 row p).
Proof.
  intros Hrow Hne. destruct (np_argmax_spec row Hne) as (p & Hp & Hspec).
  exists p. split; [|exact Hspec]. unfold predict_next_state.
  rewrite (index_ok _ _ _ Hrow). cbn [mbind result_bind]. rewrite Hp.
  reflexivity.
Qed.

Lemma predict_next_state_most_probable_witness :
  exists p,
    predict_next_state
      (mkStrategy [[1 / 2; 1 / 2; 0]; [0; 1; 0]; [0; 1 / 2; 1 / 2]]
                  example_model ∅) 2 = Ok p /\
    (p < length [0; 1 / 2; 1 / 2])%nat /\
    (forall j, (j < length [0; 1 / 2; 1 / 2])%nat ->
       at1 [0; 1 / 2; 1 / 2] j <= at1 [0; 1 / 2; 1 / 2] p) /\
    (forall j, (j < p)%nat -> at1 [0; 1 / 2; 1 / 2] j < at1 [0; 1 / 2; 1 / 2] p).
Proof.
  apply (predict_next_state_most_probable
           (mkStrategy [[1 / 2; 1 / 2; 0]; [0; 1; 0]; [0; 1 / 2; 1 / 2]]
                       example_model ∅) 2
           [0; 1 / 2; 1 / 2]).
  - reflexivity.
  - discriminate.
Defined.

(** The action of live_forecast does not depend on the hidden Markov model
    or on the observations: two strategies with the same transition matrix
    and the same mean returns give, for the same current state, the same
    predicted state and the same action, whatever their models and
    observation windows.  The inference is still run first: with no
    observation, live_forecast raises IndexError. *)
Theorem live_forecast_action_ignores_model
    (self self' : MarkovTradingStrategy) (current_state : nat)
    (observations observations' : list nat) (f f' : forecast) :
  transition_matrix self = transition_matrix self' ->
  state_mean_returns self = state_mean_returns self' ->
  live_forecast self current_state observations = Ok f ->
  live_forecast self' current_state observations' = Ok f' ->
  predicted_next_state f = predicted_next_state f' /\
  action f = action f' /\
  live_forecast self current_state [] = Err (Raised IndexError).
Proof.
  intros HT HR Hf Hf'. unfold live_forecast in *.
  assert (Hp : predict_next_state self current_state
               = predict_next_state self' current_state)
    by (unfold predict_next_state; rewrite HT; reflexivity).
  assert (Hd : forall p, decide_action self p = decide_action self' p)
    by (intros p; unfold decide_action; rewrite HR; reflexivity).
  destruct (infer_current_hidden_state self observations) as [h|];
    [|discriminate].
  destruct (infer_current_hidden_state self' observations') as [h'|];
    [|discriminate].
  cbn [mbind result_bind] in Hf, Hf'. rewrite Hp in Hf.
  destruct (predict_next_state self' current_state) as [p|]; [|discriminate].
  cbn [mbind result_bind] in Hf, Hf'. rewrite Hd in Hf.
  destruct (decide_action self' p) as [act|]; [|discriminate].
  injection Hf as <-. injection Hf' as <-. cbn.
  split; [reflexivity|]. split; [reflexivity|].
  unfold infer_current_hidden_state, forward. reflexivity.
Qed.

Lemma live_forecast_action_ignores_model_witness :
  predicted_next_state (mkForecast 1 1 "SELL")
  = predicted_next_state (mkForecast 0 1 "SELL") /\
  action (mkForecast 1 1 "SELL") = action (mkForecast 0 1 "SELL") /\
  live_forecast
    (mkStrategy [[1 / 2; 1 / 2; 0]; [0; 1; 0]; [0; 1 / 2; 1 / 2]] example_model
       {[ 0%nat := 1 / 2; 1%nat := - (1 / 2); 2%nat := 0 ]}) 2 []
  = Err (Raised IndexError).
Proof.
  apply (live_forecast_action_ignores_model
           (mkStrategy [[1 / 2; 1 / 2; 0]; [0; 1; 0]; [0; 1 / 2; 1 / 2]]
              example_model
              {[ 0%nat := 1 / 2; 1%nat := - (1 / 2); 2%nat := 0 ]})
           (mkStrategy [[1 / 2; 1 / 2; 0]; [0; 1; 0]; [0; 1 / 2; 1 / 2]]
              (mkHMM 1 1 [[1]] [[1]] [1])
              {[ 0%nat := 1 / 2; 1%nat := - (1 / 2); 2%nat := 0 ]})
           2 [0; 1]%nat [0]%nat).
  - reflexivity.
  - reflexivity.
  - vm_compute. reflexivity.
  - vm_compute. reflexivity.
Defined.

(** infer_current_hidden_state returns the best column of the last row of
    alpha: for a well-shaped model with at least one hidden state and a
    non-empty observation sequence over its bins, the call raises nothing
    and returns a hidden state h such that, alpha being the array forward
    returns, alpha[-1, h] is at least every entry of the last row and
    strictly larger than every entry before it. *)
Theorem infer_current_hidden_state_argmax
    (self : MarkovTradingStrategy) (observations : list nat) :
  well_shaped (hmm_model self) ->
  (0 < num_hidden_states (hmm_model self))%nat ->
  observations <> [] ->
  Forall (fun o => (o < num_observation_bins (hmm_model self))%nat)
         observations ->
  let N := num_hidden_states (hmm_model self) in
  let final := (length observations - 1)%nat in
  exists alpha h,
    forward (hmm_model self) observations = Ok alpha /\
    infer_current_hidden_state self observations = Ok h /\
    (h < N)%nat /\
    (forall i, (i < N)%nat -> entry alpha final i <= entry alpha final h) /\
    (forall i, (i < h)%nat -> entry alpha final i < entry alpha final h).
Proof.
  intros Hself HN Hne Hobs N final.
  pose proof (forward_ok (hmm_model self) observations Hself Hobs Hne) as H.
  apply holds_never in H as (alpha & Hrun & Hshape & _).
  assert (HT : (0 < length observations)%nat)
    by (destruct observations; [congruence|simpl; lia]).
  destruct (shape_lookup _ _ alpha final Hshape ltac:(unfold final; lia))
    as (row & Hrow & Hlen).
  assert (Hlast : index_last alpha = Ok row).
  { unfold index_last. rewrite last_lookup.
    destruct Hshape as [-> _].
    replace (Init.Nat.pred (length observations)) with final
      by (unfold final; lia).
    rewrite Hrow. reflexivity. }
  assert (Hrow_ne : row <> [])
    by (intros ->; cbn [length] in Hlen; lia).
  destruct (np_argmax_spec row Hrow_ne) as (h & Hh & Hlt & Hmax & Hfirst).
  exists alpha, h. split; [exact Hrun|]. split.
  { unfold infer_current_hidden_state. rewrite Hrun.
    cbn [mbind result_bind]. rewrite Hlast. cbn [mbind result_bind].
    rewrite Hh. reflexivity. }
  rewrite Hlen in Hlt, Hmax. fold N in Hlt, Hmax.
  split; [exact Hlt|]. split.
  - intros i Hi. rewrite !(entry_lookup alpha final _ row Hrow).
    apply Hmax, Hi.
  - intros i Hi. rewrite !(entry_lookup alpha final _ row Hrow).
    apply Hfirst, Hi.
Qed.

Lemma infer_current_hidden_state_argmax_witness :
  exists alpha h,
    forward example_model [0; 1; 0]%nat = Ok alpha /\
    infer_current_hidden_state (mkStrategy [] example_model ∅) [0; 1; 0]%nat
    = Ok h /\
    (h < 2)%nat /\
    (forall i, (i < 2)%nat -> entry alpha 2 i <= entry alpha 2 h) /\
    (forall i, (i < h)%nat -> entry alpha 2 i < entry alpha 2 h).
Proof.
  apply (infer_current_hidden_state_argmax
           (mkStrategy [] example_model ∅) [0; 1; 0]%nat).
  - repeat split; repeat constructor.
  - simpl. lia.
  - discriminate.
  - repeat constructor.
Defined.

End StrategyProofs.

Section BlackScholesParity.
Import BlackScholes Partial.
Local Open Scope Qc_scope.

(** Put-call parity of the formula, with the floats read as rationals as far
    as every operation is defined.  Whatever np.log, np.sqrt, np.exp and **
    compute, if the normal distribution function satisfies
    cdf(-x) = 1 - cdf(x) then, for a global strike K that is not zero, a
    positive S / K, a non-negative T and a volatility term sigma * sqrt(T)
    that is not zero, both prices are defined, the call price minus the put
    price is S - K * exp(-r * T), and every option_type other than the
    string call is priced as a put. *)
Theorem black_scholes_put_call_parity
    (pow : Qc -> Qc -> Qc) (np_log np_sqrt np_exp : Qc -> Qc)
    (norm_cdf : Qc -> Qc -> Qc -> Qc) (lit_0_5 lit_2 : Qc)
    (K S X X' T r sigma : Qc) (option_type : string) :
  (forall x, norm_cdf (- x) 0 1 = 1 - norm_cdf x 0 1) ->
  option_type <> "call"%string ->
  K <> 0 -> 0 < S / K -> 0 <= T -> sigma * np_sqrt T <> 0 ->
  let bs := fun X option_type =>
    black_scholes (option Qc) (lift2 Qcplus) (lift2 Qcminus) (lift2 Qcmult)
      div (lift2 pow) (lift1 Qcopp) (on_positive np_log)
      (on_nonnegative np_sqrt) (lift1 np_exp) (lift3 norm_cdf)
      (Some lit_0_5) (Some lit_2) (Some 0) (Some 1)
      (Some (Some K)) (Some S) (Some X) (Some T) (Some r) (Some sigma)
      option_type in
  exists call put,
    bs X "call"%string = Value (Some call) /\
    bs X' option_type = Value (Some put) /\
    call - put = S - K * np_exp (- r * T).
Proof.
  intros Hsym Hty HK Hlog HT Hvol bs. unfold bs, black_scholes.
  destruct (String.eqb_spec option_type "call") as [->|_]; [congruence|].
  cbn [String.eqb Ascii.eqb Bool.eqb].
  cbn [lift1 lift2 lift3 div on_positive on_nonnegative
       fmap option_fmap option_map].
  rewrite !(decide_False (P := K = 0)) by assumption.
  cbn [lift1 lift2 lift3 div on_positive on_nonnegative
       fmap option_fmap option_map].
  rewrite !(decide_True (P := 0 < S / K)) by assumption.
  rewrite !(decide_True (P := 0 <= T)) by assumption.
  cbn [lift1 lift2 lift3 div on_positive on_nonnegative
       fmap option_fmap option_map].
  rewrite !(decide_False (P := sigma * np_sqrt T = 0)) by assumption.
  cbn [lift1 lift2 lift3 div on_positive on_nonnegative
       fmap option_fmap option_map].
  eexists _, _. split; [reflexivity|]. split; [reflexivity|].
  rewrite !Hsym. ring.
Qed.

Lemma black_scholes_put_call_parity_witness :
  exists call put,
    black_scholes (option Qc) (lift2 Qcplus) (lift2 Qcminus) (lift2 Qcmult)
      div (lift2 (fun x _ => x * x)) (lift1 Qcopp)
      (on_positive (fun x => x - 1)) (on_nonnegative (fun x => x))
      (lift1 (fun x => 1 + x)) (lift3 (fun x _ _ => (1 + x) / 2))
      (Some (Q2Qc (1 # 2))) (Some 2) (Some 0) (Some 1)
      (Some (Some 2)) (Some 1) (Some 0) (Some 1) (Some 0) (Some 1)
      "call"%string = Value (Some call) /\
    black_scholes (option Qc) (lift2 Qcplus) (lift2 Qcminus) (lift2 Qcmult)
      div (lift2 (fun x _ => x * x)) (lift1 Qcopp)
      (on_positive (fun x => x - 1)) (on_nonnegative (fun x => x))
      (lift1 (fun x => 1 + x)) (lift3 (fun x _ _ => (1 + x) / 2))
      (Some (Q2Qc (1 # 2))) (Some 2) (Some 0) (Some 1)
      (Some (Some 2)) (Some 1) (Some 0) (Some 1) (Some 0) (Some 1)
      "put"%string = Value (Some put) /\
    call - put = 1 - 2 * (1 + - 0 * 1).
Proof.
  apply (black_scholes_put_call_parity (fun x _ => x * x)
           (fun x => x - 1) (fun x => x) (fun x => 1 + x)
           (fun x _ _ => (1 + x) / 2)
           (Q2Qc (1 # 2)) 2 2 1 0 0 1 0 1 "put"%string).
  - intros x. cbv beta. field. discriminate.
  - discriminate.
  - discriminate.
  - vm_compute. reflexivity.
  - vm_compute. discriminate.
  - vm_compute. discriminate.
Defined.

End BlackScholesParity.

Section MonteCarloParity.
Import Numpy HMM MonteCarlo NumpyQc.
Local Open Scope Qc_scope.

Lemma np_maximum_parity x : np_maximum x 0 - np_maximum (- x) 0 = x.
Proof.
  unfold np_maximum. destruct (decide (x < 0)) as [Hx|Hx].
  - rewrite decide_False; [ring|].
    intros H. apply (Qclt_not_le _ _ H).
    apply Qclt_le_weak. apply Qclt_minus_iff.
    replace (- x + - 0) with (0 + - x) by ring.
    apply Qclt_minus_iff in Hx. exact Hx.
  - destruct (decide (- x < 0)) as [Hy|Hy]; [ring|].
    apply Qcnot_lt_le in Hx, Hy.
    assert (x <= 0).
    { apply Qcle_minus_iff. apply Qcle_minus_iff in Hy.
      replace (0 + - x) with (- x + - 0) by ring. exact Hy. }
    assert (x = 0) as -> by (apply Qcle_antisym; assumption). ring.
Qed.

Lemma np_sum_payoffs K (prices : list Qc) :
  np_sum (map (fun s => np_maximum (s - K) 0) prices)
  - np_sum (map (fun s => np_maximum (K - s) 0) prices)
  = np_sum prices - Qc_of_nat (length prices) * K.
Proof.
  induction prices as [|s prices IH].
  - cbn [map length]. rewrite np_sum_nil, Qc_of_nat_0. ring.
  - cbn [map length]. rewrite !np_sum_cons, Qc_of_nat_S.
    pose proof (np_maximum_parity (s - K)) as H.
    replace (- (s - K)) with (K - s) in H by ring.
    transitivity
      ((np_maximum (s - K) 0 - np_maximum (K - s) 0)
       + (np_sum (map (fun s => np_maximum (s - K) 0) prices)
          - np_sum (map (fun s => np_maximum (K - s) 0) prices)));
      [ring|].
    rewrite H, IH. ring.
Qed.

(** Put-call parity of the simulation, with the floats read as rationals:
    whatever np.sqrt, np.exp and ** compute and whatever numbers the seeded
    generator draws (at least one), the call estimate minus the put estimate
    is exp(-r * T) * (mean(S_T) - K), S_T being the simulated terminal
    prices; every option_type other than the string call is priced as a put,
    and the generator states the two calls start from play no part. *)
Theorem monte_carlo_option_put_call_parity
    (pow : Qc -> Qc -> Qc) (np_sqrt np_exp : Qc -> Qc) (lit_0_5 lit_2 : Qc)
    (rng : Type) (seed_state : Z -> rng)
    (draw_standard_normal : nat -> rng -> list Qc * rng)
    (S K T r sigma : Qc) (num_simulations : nat) (option_type : string)
    (s s' : rng) :
  option_type <> "call"%string ->
  fst (draw_standard_normal num_simulations (seed_state 42%Z)) <> [] ->
  let mc := monte_carlo_option Qc Qcplus Qcminus Qcmult pow Qcopp np_sqrt
              np_maximum np_mean np_exp lit_0_5 lit_2 0
              rng seed_state draw_standard_normal in
  let S_T :=
    map (fun z => S * np_exp ((r - lit_0_5 * pow sigma lit_2) * T
                              + sigma * np_sqrt T * z))
        (fst (draw_standard_normal num_simulations (seed_state 42%Z))) in
  fst (mc S K T r sigma num_simulations "call"%string s)
  - fst (mc S K T r sigma num_simulations option_type s')
  = np_exp (- r * T) * (np_mean S_T - K).
Proof.
  intros Hty Hne mc S_T. unfold mc, monte_carlo_option, st_bind, st_ret,
    np_random_seed, np_random_standard_normal.
  destruct (String.eqb_spec option_type "call") as [->|_]; [congruence|].
  cbn [String.eqb Ascii.eqb Bool.eqb].
  unfold S_T. clear S_T mc.
  destruct (draw_standard_normal num_simulations (seed_state 42%Z))
    as [draws g]. cbn [fst] in *.
  set (prices := map _ draws).
  assert (Hlen : Qc_of_nat (length prices) <> 0).
  { intros E.
    assert (Hpos : (0 < length prices)%nat)
      by (unfold prices; rewrite length_map; destruct draws;
          [congruence|cbn [length]; lia]).
    pose proof (Qc_of_nat_pos _ Hpos) as H. rewrite E in H.
    exact (Qclt_not_eq _ _ H eq_refl). }
  unfold np_mean. rewrite !length_map.
  replace (length draws) with (length prices)
    by (unfold prices; apply length_map).
  transitivity
    (np_exp (- r * T)
     * ((np_sum (map (fun s0 => np_maximum (s0 - K) 0) prices)
         - np_sum (map (fun s0 => np_maximum (K - s0) 0) prices))
        / Qc_of_nat (length prices))).
  { unfold Qcdiv. ring. }
  rewrite np_sum_payoffs. field. exact Hlen.
Qed.

Lemma monte_carlo_option_put_call_parity_witness :
  fst (monte_carlo_option Qc Qcplus Qcminus Qcmult (fun x _ => x * x) Qcopp
         (fun x => x) np_maximum np_mean (fun x => 1 + x) (1 / 2) 2 0
         nat (fun _ => 0%nat) (fun k g => (replicate k 1, (g + k)%nat))
         1 1 1 0 1 2 "call"%string 5%nat)
  - fst (monte_carlo_option Qc Qcplus Qcminus Qcmult (fun x _ => x * x) Qcopp
           (fun x => x) np_maximum np_mean (fun x => 1 + x) (1 / 2) 2 0
           nat (fun _ => 0%nat) (fun k g => (replicate k 1, (g + k)%nat))
           1 1 1 0 1 2 "put"%string 7%nat)
  = (1 + - 0 * 1)
    * (np_mean (map (fun z => 1 * (1 + ((0 - 1 / 2 * (1 * 1)) * 1 + 1 * 1 * z)))
                    (fst (replicate 2 1, (0 + 2)%nat)))
       - 1).
Proof.
  apply (monte_carlo_option_put_call_parity (fun x _ => x * x) (fun x => x)
           (fun x => 1 + x) (1 / 2) 2 nat (fun _ => 0%nat)
           (fun k g => (replicate k 1, (g + k)%nat))
           1 1 1 0 1 2 "put"%string 5%nat 7%nat).
  - discriminate.
  - discriminate.
Defined.

End MonteCarloParity.

Section OrangeCellsProofs.
Import Oranges OrangeCells.
Local Open Scope Z_scope.

Let queued (p : nat * nat) : entry := (p.1, p.2, 0).

Lemma gather_cells g r (cs : list nat) : forall queue freshCount,
  fold_left (gather_cell g r) cs (queue, freshCount)
  = (queue ++ map queued
       (filter (fun p => cell g p.1 p.2 = Some 2) (map (pair r) cs)),
     freshCount
     + Z.of_nat (length (filter (fun p => cell g p.1 p.2 = Some 1)
                           (map (pair r) cs)))).
Proof.
  induction cs as [|c cs IH]; intros queue freshCount.
  - cbn. rewrite app_nil_r. f_equal. lia.
  - cbn [fold_left map]. unfold gather_cell at 2.
    destruct (cell g r c) as [v|] eqn:Ev.
    + destruct (Z.eqb_spec v 2) as [->|H2].
      * rewrite IH. rewrite filter_cons_True by exact Ev.
        rewrite filter_cons_False by (cbn [fst snd]; rewrite Ev; discriminate).
        cbn [map]. rewrite <- app_assoc. reflexivity.
      * destruct (Z.eqb_spec v 1) as [->|H1].
        -- rewrite IH. rewrite filter_cons_False
             by (cbn [fst snd]; rewrite Ev; discriminate).
           rewrite filter_cons_True by exact Ev.
           cbn [length]. f_equal. lia.
        -- rewrite IH.
           rewrite !filter_cons_False
             by (cbn [fst snd]; rewrite Ev; congruence).
           reflexivity.
    + rewrite IH.
      rewrite !filter_cons_False by (cbn [fst snd]; rewrite Ev; discriminate).
      reflexivity.
Qed.

Lemma bind_pair_row (r : nat) (cs : list nat) :
  (c ← cs; [(r, c)]) = map (pair r) cs.
Proof.
  induction cs as [|c cs IH]; [reflexivity|].
  change ((c :: cs) ≫= ?f) with (f c ++ (cs ≫= f)). rewrite IH. reflexivity.
Qed.

Lemma gather_rows g cols (rs : list nat) : forall queue freshCount,
  fold_left (gather_row g cols) rs (queue, freshCount)
  = (queue ++ map queued
       (filter (fun p => cell g p.1 p.2 = Some 2)
          (r ← rs; c ← seq 0 cols; [(r, c)])),
     freshCount
     + Z.of_nat (length (filter (fun p => cell g p.1 p.2 = Some 1)
                           (r ← rs; c ← seq 0 cols; [(r, c)])))).
Proof.
  induction rs as [|r rs IH]; intros queue freshCount.
  - cbn. rewrite app_nil_r. f_equal. lia.
  - cbn [fold_left]. unfold gather_row at 2. rewrite gather_cells, IH.
    change ((r :: rs) ≫= ?f) with (f r ++ (rs ≫= f)). cbv beta.
    rewrite bind_pair_row, !filter_app, map_app, length_app, <- app_assoc.
    f_equal. lia.
Qed.

Lemma gather_scanned g :
  gather g (length g) (columns g)
  = (map queued (holding 2 g), Z.of_nat (length (holding 1 g))).
Proof. unfold gather. rewrite gather_rows. reflexivity. Qed.

(** What orangesRotting evaluates to, on every grid.  Only the cells of the
    columns below the first row's length are read.  On a grid with at least
    one row the result is 0, with no pass of the while loop, when none of
    these cells is 1; otherwise the while loop runs once per cell equal to 2
    and the call ends without a value.  So the function never returns a
    positive number of minutes. *)
Theorem orangesRotting_characterised :
  (forall g : grid, g <> [] ->
     orangesRotting_run (Some g)
     = if decide (holding 1 g = []) then (JNum 0, 0%nat)
       else (JUndefined, length (holding 2 g))) /\
  (forall grid : option grid,
     orangesRotting grid = JNum (-1) \/ orangesRotting grid = JNum 0 \/
     orangesRotting grid = JUndefined).
Proof.
  assert (Hrun : forall g : grid, g <> [] ->
            orangesRotting_run (Some g)
            = if decide (holding 1 g = []) then (JNum 0, 0%nat)
              else (JUndefined, length (holding 2 g))).
  { intros g Hne. unfold orangesRotting_run.
    destruct g as [|row0 g'] eqn:Eg; [congruence|].
    cbn [length Nat.eqb]. rewrite <- Eg.
    change (S (length g')) with (length (row0 :: g')). rewrite <- Eg.
    rewrite gather_scanned.
    destruct (holding 1 g) as [|p ps] eqn:E1.
    - rewrite decide_True by reflexivity. reflexivity.
    - rewrite decide_False by discriminate.
      cbn [length]. destruct (Z.eqb_spec (Z.of_nat (S (length ps))) 0); [lia|].
      rewrite (surjective_pairing (drain _ _)).
      rewrite drain_undefined, drain_shifts, length_map. reflexivity. }
  split; [exact Hrun|].
  intros [g|]; [|left; reflexivity].
  destruct g as [|row0 g']; [left; reflexivity|].
  unfold orangesRotting. rewrite Hrun by discriminate.
  case_decide; [right; left|right; right]; reflexivity.
Qed.

Lemma orangesRotting_characterised_witness :
  orangesRotting_run (Some [[2; 1; 1]; [1; 1; 0; 2]; [0; 1; 2]])
  = if decide (holding 1 [[2; 1; 1]; [1; 1; 0; 2]; [0; 1; 2]] = [])
    then (JNum 0, 0%nat)
    else (JUndefined, length (holding 2 [[2; 1; 1]; [1; 1; 0; 2]; [0; 1; 2]])).
Proof.
  apply (proj1 orangesRotting_characterised [[2; 1; 1]; [1; 1; 0; 2]; [0; 1; 2]]).
  discriminate.
Defined.

End OrangeCellsProofs.

Section MinTimeAlgebra.
Import MinTime.
Local Open Scope Z_scope.

Lemma cheb_sym p q : cheb p q = cheb q p.
Proof. unfold cheb. destruct p, q; simpl. lia. Qed.

Lemma path_time_app p : forall a b,
  path_time (a ++ p :: b) = path_time (a ++ [p]) + path_time (p :: b).
Proof.
  induction a as [|x [|y a] IH]; intros b.
  - simpl. lia.
  - change (path_time ([x] ++ p :: b)) with (cheb x p + path_time (p :: b)).
    simpl. lia.
  - change (path_time ((x :: y :: a) ++ p :: b))
      with (cheb x y + path_time ((y :: a) ++ p :: b)).
    change (path_time ((x :: y :: a) ++ [p]))
      with (cheb x y + path_time ((y :: a) ++ [p])).
    rewrite IH. lia.
Qed.

Lemma path_time_rev : forall ps, path_time (rev ps) = path_time ps.
Proof.
  induction ps as [|p [|q ps] IH]; [reflexivity|reflexivity|].
  change (rev (p :: q :: ps)) with (rev (q :: ps) ++ [p]).
  change (rev (q :: ps)) with (rev ps ++ [q]) in *.
  rewrite <- app_assoc. cbn [app].
  rewrite path_time_app, IH.
  change (path_time (p :: q :: ps)) with (cheb p q + path_time (q :: ps)).
  simpl. rewrite (cheb_sym q p). lia.
Qed.

Lemma path_time_map (f : point -> point) :
  (forall p q, cheb (f p) (f q) = cheb p q) ->
  forall ps, path_time (map f ps) = path_time ps.
Proof.
  intros Hf. induction ps as [|p [|q ps] IH]; [reflexivity|reflexivity|].
  change (path_time (map f (p :: q :: ps)))
    with (cheb (f p) (f q) + path_time (map f (q :: ps))).
  rewrite IH, Hf. reflexivity.
Qed.

(** Within the safe integers the time does not depend on the direction of
    travel or on where the origin and the axes are: for a list of points
    that are JavaScript numbers and whose sum over consecutive pairs is at
    most 2^53, minTimeToVisitAllPoints returns the same number for the
    reversed list, for the list translated by any vector that keeps the
    points among the numbers, and for the list with the two coordinates of
    every point exchanged. *)
Theorem minTimeToVisitAllPoints_symmetries (points : list point) :
  safe points ->
  minTimeToVisitAllPoints (rev points) = minTimeToVisitAllPoints points /\
  (forall dx dy,
     safe (map (fun p => (fst p + dx, snd p + dy)) points) ->
     minTimeToVisitAllPoints (map (fun p => (fst p + dx, snd p + dy)) points)
     = minTimeToVisitAllPoints points) /\
  minTimeToVisitAllPoints (map (fun p => (snd p, fst p)) points)
  = minTimeToVisitAllPoints points.
Proof.
  intros [_ Hsafe]. rewrite (minTime_path_time points Hsafe).
  split; [|split].
  - rewrite minTime_path_time by (rewrite path_time_rev; exact Hsafe).
    rewrite path_time_rev. reflexivity.
  - intros dx dy [_ Hsafe']. rewrite (minTime_path_time _ Hsafe').
    do 2 f_equal. apply path_time_map.
    intros [a b] [c d]. unfold cheb. simpl. lia.
  - assert (Hswap : path_time (map (fun p : point => (snd p, fst p)) points)
                    = path_time points).
    { apply path_time_map. intros [a b] [c d]. unfold cheb. simpl. lia. }
    rewrite minTime_path_time by (rewrite Hswap; exact Hsafe).
    rewrite Hswap. reflexivity.
Qed.

Lemma minTimeToVisitAllPoints_symmetries_witness :
  minTimeToVisitAllPoints (rev [(1, 1); (3, 4); (-1, 0)])
  = minTimeToVisitAllPoints [(1, 1); (3, 4); (-1, 0)] /\
  (forall dx dy,
     safe (map (fun p => (fst p + dx, snd p + dy)) [(1, 1); (3, 4); (-1, 0)]) ->
     minTimeToVisitAllPoints
       (map (fun p => (fst p + dx, snd p + dy)) [(1, 1); (3, 4); (-1, 0)])
     = minTimeToVisitAllPoints [(1, 1); (3, 4); (-1, 0)]) /\
  minTimeToVisitAllPoints (map (fun p => (snd p, fst p)) [(1, 1); (3, 4); (-1, 0)])
  = minTimeToVisitAllPoints [(1, 1); (3, 4); (-1, 0)].
Proof.
  apply (minTimeToVisitAllPoints_symmetries [(1, 1); (3, 4); (-1, 0)]).
  split; [repeat constructor|vm_compute; discriminate].
Defined.

Lemma path_time_detour (before after : list point) (p : point) :
  path_time (before ++ after) <= path_time (before ++ p :: after).
Proof.
  induction before as [|x before _] using rev_ind.
  - cbn [app]. destruct after as [|r after]; [simpl; lia|].
    change (path_time (p :: r :: after))
      with (cheb p r + path_time (r :: after)).
    pose proof (cheb_nonneg p r). lia.
  - rewrite <- !app_assoc. cbn [app].
    destruct after as [|r after].
    + rewrite (path_time_app x before [p]).
      change (path_time [x; p]) with (cheb x p + 0).
      pose proof (cheb_nonneg x p). lia.
    + rewrite (path_time_app x before (r :: after)).
      rewrite (path_time_app x before (p :: r :: after)).
      change (path_time (x :: r :: after))
        with (cheb x r + path_time (r :: after)).
      change (path_time (x :: p :: r :: after))
        with (cheb x p + (cheb p r + path_time (r :: after))).
      pose proof (cheb_triangle x p r). lia.
Qed.

(** Within the safe integers a route splits at any of its points, and a
    detour never saves time: for a list of points that are JavaScript
    numbers and whose sum over consecutive pairs is at most 2^53, the
    returned time is the time up to a point plus the time from that point
    on, and the list without that point never takes longer. *)
Theorem minTimeToVisitAllPoints_detour (before after : list point) (p : point) :
  safe (before ++ p :: after) ->
  exists whole first second shorter,
    minTimeToVisitAllPoints (before ++ p :: after) = Some (Num whole) /\
    minTimeToVisitAllPoints (before ++ [p]) = Some (Num first) /\
    minTimeToVisitAllPoints (p :: after) = Some (Num second) /\
    minTimeToVisitAllPoints (before ++ after) = Some (Num shorter) /\
    whole = first + second /\
    shorter <= whole.
Proof.
  intros [_ Hsafe].
  pose proof (path_time_app p before after) as Hsplit.
  pose proof (path_time_detour before after p) as Hshort.
  pose proof (path_time_nonneg (before ++ [p])) as H1.
  pose proof (path_time_nonneg (p :: after)) as H2.
  exists (path_time (before ++ p :: after)), (path_time (before ++ [p])),
    (path_time (p :: after)), (path_time (before ++ after)).
  rewrite !minTime_path_time by lia.
  split; [reflexivity|]. split; [reflexivity|]. split; [reflexivity|].
  split; [reflexivity|]. split; [exact Hsplit|exact Hshort].
Qed.

Lemma minTimeToVisitAllPoints_detour_witness :
  exists whole first second shorter,
    minTimeToVisitAllPoints ([(1, 1)] ++ (3, 4) :: [(-1, 0)]) = Some (Num whole) /\
    minTimeToVisitAllPoints ([(1, 1)] ++ [(3, 4)]) = Some (Num first) /\
    minTimeToVisitAllPoints ((3, 4) :: [(-1, 0)]) = Some (Num second) /\
    minTimeToVisitAllPoints ([(1, 1)] ++ [(-1, 0)]) = Some (Num shorter) /\
    whole = first + second /\
    shorter <= whole.
Proof.
  apply (minTimeToVisitAllPoints_detour [(1, 1)] [(-1, 0)] (3, 4)).
  split; [repeat constructor|vm_compute; discriminate].
Defined.

End MinTimeAlgebra.

Section SpiralDegenerate.
Import Spiral.
Local Open Scope Z_scope.

(** With the boundaries crossed and the counter not past max, a pass of the
    while loop writes nothing and leaves the boundaries crossed. *)
Lemma round_crossed inner max st :
  current st <= max -> right st < left st -> bottom st < top st ->
  round inner max st = Err OutOfFuel \/
  exists st',
    round inner max st = Ok st' /\
    current st' = current st /\ right st' < left st' /\ bottom st' < top st'.
Proof.
  intros Hcur Hcols Hrows. destruct inner as [|inner]; [left; reflexivity|].
  right. unfold round. cbn [for_loop].
  replace (left st <=? right st) with false by (symmetry; apply Z.leb_gt; lia).
  cbn [andb mbind result_bind]. unfold set_top. cbn [top bottom right left current mat].
  replace (top st + 1 <=? bottom st) with false
    by (symmetry; apply Z.leb_gt; lia).
  cbn [andb mbind result_bind]. unfold set_right.
  cbn [top bottom right left current mat].
  replace (right st - 1 >=? left st) with false
    by (symmetry; rewrite Z.geb_leb; apply Z.leb_gt; lia).
  cbn [andb mbind result_bind]. unfold set_bottom.
  cbn [top bottom right left current mat].
  replace (bottom st - 1 >=? top st + 1) with false
    by (symmetry; rewrite Z.geb_leb; apply Z.leb_gt; lia).
  cbn [andb mbind result_bind]. unfold set_left.
  eexists. split; [reflexivity|]. cbn [top bottom right left current mat]. lia.
Qed.

Lemma while_loop_crossed inner max fuel : forall st,
  current st <= max -> right st < left st -> bottom st < top st ->
  while_loop fuel inner max st = Err OutOfFuel.
Proof.
  induction fuel as [|fuel IH]; intros st Hcur Hcols Hrows; [reflexivity|].
  cbn [while_loop].
  replace (current st <=? max) with true by (symmetry; apply Z.leb_le; lia).
  destruct (round_crossed inner max st Hcur Hcols Hrows)
    as [->|(st' & -> & Hc & Hcols' & Hrows')]; [reflexivity|].
  cbn [mbind result_bind]. apply IH; [lia|exact Hcols'|exact Hrows'].
Qed.

(** Outside the positive integers: spiralMatrixc(0) returns the empty
    matrix, and for a negative n the call does not end, since the while loop
    keeps passing its test without writing a cell: whatever bound is put on
    the number of iterations, the bounded run stops at the bound. *)
Theorem spiralMatrixc_not_positive :
  spiralMatrixc 0 = Ok ∅ /\
  forall (n : Z) (fuel : nat), n < 0 -> spiralMatrixc_fuel fuel n = Err OutOfFuel.
Proof.
  split; [reflexivity|]. intros n fuel Hn. unfold spiralMatrixc_fuel.
  rewrite while_loop_crossed; [reflexivity| | |];
    cbn [top bottom right left current mat]; nia.
Qed.

Lemma spiralMatrixc_not_positive_witness :
  spiralMatrixc_fuel 50 (-3) = Err OutOfFuel.
Proof.
  apply (proj2 spiralMatrixc_not_positive (-3) 50%nat). lia.
Defined.

End SpiralDegenerate.

Section RiskMonotone.
Import Risk.
Local Open Scope Qc_scope.

Lemma Qcdiv_anti_mono t a b :
  0 <= t -> 0 < a -> a <= b -> t / b <= t / a.
Proof.
  intros Ht Ha Hab.
  assert (Hb : 0 < b) by (eapply Qclt_le_trans; eassumption).
  assert (Ha0 : a <> 0) by (intros E; rewrite E in Ha; discriminate Ha).
  assert (Hb0 : b <> 0) by (intros E; rewrite E in Hb; discriminate Hb).
  apply (Qcmult_lt_0_le_reg_r _ _ (a * b)); [apply Qcmult_pos_pos; assumption|].
  replace (t / b * (a * b)) with (a * t) by (field; exact Hb0).
  replace (t / a * (a * b)) with (b * t) by (field; exact Ha0).
  apply Qcmult_le_compat_r; assumption.
Qed.

Lemma py_min_mono a a' b : a <= a' -> py_min a b <= py_min a' b.
Proof.
  intros H. unfold py_min.
  destruct (decide (b < a)) as [Hb|Hb], (decide (b < a')) as [Hb'|Hb'].
  - apply Qcle_refl.
  - exfalso. apply Hb'. eapply Qclt_le_trans; eassumption.
  - apply Qcnot_lt_le, Hb.
  - exact H.
Qed.

(** More volatility never means a larger position, and the only input on
    which size_position divides by zero is -1e-8: for a non-negative
    vol_target and 0 <= v1 <= v2 the size returned for v2 is at most the
    size returned for v1, and size_position raises ZeroDivisionError exactly
    when realized_vol + 1e-8 is zero. *)
Theorem size_position_monotone (self : RiskManager) (v1 v2 : Qc) :
  0 <= vol_target self -> 0 <= v1 -> v1 <= v2 ->
  (exists size1 size2,
     size_position self v1 = Some size1 /\
     size_position self v2 = Some size2 /\
     size2 <= size1) /\
  (forall v, size_position self v = None <-> v = - eps).
Proof.
  intros Ht Hv1 Hv12. split.
  - assert (H1 : 0 < v1 + eps)
      by (apply Qcplus_nonneg_pos; [exact Hv1|exact eps_pos]).
    assert (H2 : 0 < v2 + eps).
    { apply Qcplus_nonneg_pos; [|exact eps_pos].
      eapply Qcle_trans; eassumption. }
    unfold size_position, py_div.
    rewrite !decide_False
      by (intros E; first [rewrite E in H1; discriminate H1
                          |rewrite E in H2; discriminate H2]).
    cbn [mbind option_bind]. eexists _, _.
    split; [reflexivity|]. split; [reflexivity|].
    apply py_min_mono, Qcdiv_anti_mono; [exact Ht|exact H1|].
    apply Qcplus_le_compat; [exact Hv12|apply Qcle_refl].
  - intros v. unfold size_position, py_div. case_decide as Hz.
    + split; [intros _|reflexivity].
      replace v with (v + eps - eps) by ring. rewrite Hz. ring.
    + split; [discriminate|]. intros ->. exfalso. apply Hz. ring.
Qed.

Lemma size_position_monotone_witness :
  (exists size1 size2,
     size_position default_manager 0 = Some size1 /\
     size_position default_manager 1 = Some size2 /\
     size2 <= size1) /\
  (forall v, size_position default_manager v = None <-> v = - eps).
Proof.
  apply (size_position_monotone default_manager 0 1);
    vm_compute; discriminate.
Defined.

End RiskMonotone.

Section OutOfRangeProofs.
Import Numpy Transition Simulate Counts.
Local Open Scope Qc_scope.

Lemma index2_out_of_range n (m : array2) c nx :
  shape n n m -> ~ ((c < n)%nat /\ (nx < n)%nat) ->
  index2 m c nx = Err IndexError.
Proof.
  intros Hm Hbad. unfold index2, index.
  destruct (m !! c) as [row|] eqn:Ec; [|reflexivity].
  cbn [mbind result_bind].
  assert (Hc : (c < n)%nat)
    by (destruct Hm as [<- _]; eapply lookup_lt_Some; exact Ec).
  rewrite (lookup_ge_None_2 row nx); [reflexivity|].
  rewrite (shape_row n n m c row Hm Ec). lia.
Qed.

Lemma count_loop_out_of_range n (ps : list (nat * nat)) : forall m,
  shape n n m ->
  Exists (fun p => ~ ((p.1 < n)%nat /\ (p.2 < n)%nat)) ps ->
  foldM count_pair ps m = Err IndexError.
Proof.
  induction ps as [|[c nx] ps IH]; intros m Hm Hex; [inversion Hex|].
  cbn [foldM].
  destruct (decide ((c < n)%nat /\ (nx < n)%nat)) as [[Hc Hnx]|Hbad].
  - destruct (shape_lookup n n m c Hm Hc) as (row & Hrow & Hlen).
    rewrite (count_pair_ok n m c nx row Hm Hc Hnx Hrow).
    cbn [mbind result_bind]. apply IH.
    + apply shape_insert; [exact Hm|rewrite length_insert; exact Hlen].
    + apply Exists_cons in Hex as [Hex|Hex]; [|exact Hex].
      cbn [fst snd] in Hex. tauto.
  - unfold count_pair. rewrite (index2_out_of_range n m c nx Hm Hbad).
    reflexivity.
Qed.

Lemma pairs_out_of_range n : forall states : list nat,
  (2 <= length states)%nat ->
  Exists (fun s => (n <= s)%nat) states ->
  Exists (fun p => ~ ((p.1 < n)%nat /\ (p.2 < n)%nat)) (pairs states).
Proof.
  induction states as [|a [|b rest] IH]; intros Hlen Hex;
    [cbn [length] in Hlen; lia|cbn [length] in Hlen; lia|].
  change (pairs (a :: b :: rest)) with ((a, b) :: pairs (b :: rest)).
  apply Exists_cons in Hex as [Ha|Hex];
    [apply Exists_cons_hd; cbn [fst snd]; lia|].
  destruct rest as [|c rest].
  - apply Exists_cons_hd. cbn [fst snd].
    apply Exists_cons in Hex as [Hb|Hex]; [lia|inversion Hex].
  - apply Exists_cons_tl, IH; [cbn [length]; lia|exact Hex].
Qed.

(** A state outside 0 .. num_states - 1 makes estimate_transition_matrix
    raise IndexError as soon as the sequence has a transition: for a
    sequence of at least two states, one of which is num_states or more, the
    counting loop indexes outside the matrix. *)
Theorem estimate_transition_matrix_out_of_range
    (states : list nat) (num_states : nat) :
  (2 <= length states)%nat ->
  Exists (fun s => (num_states <= s)%nat) states ->
  estimate_transition_matrix states num_states = Err IndexError.
Proof.
  intros Hlen Hex. unfold estimate_transition_matrix.
  rewrite (count_loop_out_of_range num_states _ _ (shape_full2 _ _ _)
             (pairs_out_of_range num_states states Hlen Hex)).
  reflexivity.
Qed.

Lemma estimate_transition_matrix_out_of_range_witness :
  estimate_transition_matrix [0; 1; 2; 0]%nat 2 = Err IndexError.
Proof.
  apply (estimate_transition_matrix_out_of_range [0; 1; 2; 0]%nat 2).
  - simpl. lia.
  - apply Exists_cons_tl, Exists_cons_tl, Exists_cons_hd. lia.
Defined.

(** The edges of simulate_markov_chain: with n_steps = 0 it returns the
    empty list and leaves the generator alone, whatever the start state and
    the matrix; with at least one step and a start state that is not a row
    of the matrix it raises IndexError before drawing anything. *)
Theorem simulate_markov_chain_edge_cases
    (rng : Type) (np_random_choice : nat -> array1 -> rng -> result (nat * rng))
    (transition_matrix : array2) (start_state : nat) (g : rng) :
  simulate_markov_chain rng np_random_choice transition_matrix start_state 0 g
  = Ok ([], g) /\
  forall n_steps,
    (0 < n_steps)%nat -> (length transition_matrix <= start_state)%nat ->
    simulate_markov_chain rng np_random_choice transition_matrix
      start_state n_steps g = Err IndexError.
Proof.
  split; [reflexivity|]. intros n_steps Hn Hstart.
  destruct n_steps as [|n_steps]; [lia|].
  unfold simulate_markov_chain. cbn [seq foldM simulate_step]. unfold index.
  rewrite (lookup_ge_None_2 _ _ Hstart). reflexivity.
Qed.

Lemma simulate_markov_chain_edge_cases_witness :
  simulate_markov_chain nat choice_at_zero [[0; 1]; [1 / 2; 1 / 2]] 2 3 0%nat
  = Err IndexError.
Proof.
  apply (proj2 (simulate_markov_chain_edge_cases nat choice_at_zero
                  [[0; 1]; [1 / 2; 1 / 2]] 2 0%nat) 3%nat).
  - lia.
  - simpl. lia.
Defined.

End OutOfRangeProofs.

Section ObservationRange.
Import Numpy HMM Raises.
Local Open Scope Qc_scope.

Variable self : HiddenMarkovModel.
Variable observations : list nat.
Hypothesis Hself : well_shaped self.
Hypothesis HN : (0 < num_hidden_states self)%nat.

Let N := num_hidden_states self.
Let M := num_observation_bins self.
Let T := length observations.

Lemma holds_index {X} (P : X -> Prop) (a : list X) i :
  (forall x, a !! i = Some x -> P x) -> holds index_error P (index a i).
Proof.
  intros H. unfold index. destruct (a !! i) as [x|];
    [apply H; reflexivity|exact eq_refl].
Qed.

Lemma column_out_of_range (m : array2) j :
  shape N M m -> (M <= j)%nat -> column m j = Err IndexError.
Proof.
  intros Hm Hj. destruct (shape_lookup N M m 0 Hm HN) as (row & Hrow & Hlen).
  destruct m as [|row' m]; [discriminate|]. injection Hrow as ->.
  unfold column. cbn [mapM_r]. unfold index.
  rewrite (lookup_ge_None_2 row j) by lia. reflexivity.
Qed.

Lemma forward_cell_shape alpha t j :
  shape T N alpha -> (j < N)%nat ->
  holds index_error (shape T N) (forward_cell self observations t alpha j).
Proof.
  intros Ha Hj. destruct Hself as (HA & HB & Hpi). fold N M in HA, HB, Hpi.
  unfold forward_cell.
  apply (holds_bind index_error (fun prev => length prev = N));
    [apply holds_index; intros prev Hprev;
     exact (shape_row T N alpha _ prev Ha Hprev)|].
  intros prev Hprev. rewrite (shape_column N N _ j HA Hj).
  cbn [mbind result_bind].
  rewrite vmul_ok by (rewrite length_map; destruct HA; lia).
  cbn [mbind result_bind].
  apply (holds_bind index_error (fun _ => True));
    [apply holds_index; auto|]. intros o _.
  apply (holds_bind index_error (fun _ => True)).
  { unfold index2.
    apply (holds_bind index_error (fun _ => True));
      [apply holds_index; auto|]. intros row _. apply holds_index; auto. }
  intros b _. unfold setitem2.
  apply (holds_bind index_error (fun row => alpha !! t = Some row)).
  { apply holds_index. auto. }
  intros row Hrow. unfold setitem.
  destruct (decide (j < length row)%nat); cbn [mbind result_bind];
    [|exact eq_refl].
  destruct (decide (t < length alpha)%nat); [|exact eq_refl]. cbn [holds].
  apply shape_insert; [exact Ha|]. rewrite length_insert.
  exact (shape_row T N alpha t row Ha Hrow).
Qed.

Lemma forward_row_shape alpha t :
  shape T N alpha ->
  holds index_error (shape T N) (forward_row self observations alpha t).
Proof.
  intros Ha. unfold forward_row. fold N.
  apply (holds_foldM_seq index_error (fun _ => shape T N) _ N 0%nat alpha Ha).
  intros j a Hj Hshape. apply forward_cell_shape; [exact Hshape|lia].
Qed.

Lemma forward_row_out_of_range alpha t o :
  shape T N alpha -> observations !! t = Some o -> (M <= o)%nat ->
  forward_row self observations alpha t = Err IndexError.
Proof.
  intros Ha Ho Hbad. destruct Hself as (HA & HB & Hpi). fold N M in HA, HB, Hpi.
  assert (Hseq : seq 0 N = 0%nat :: seq 1 (N - 1)).
  { generalize HN. unfold N. destruct (num_hidden_states self); intros H0;
      [lia|]. cbn. rewrite Nat.sub_0_r. reflexivity. }
  unfold forward_row. fold N. rewrite Hseq.
  cbn [foldM]. unfold forward_cell at 2.
  pose proof (holds_index (fun prev => length prev = N) alpha (t - 1)
                (fun prev Hprev => shape_row T N alpha _ prev Ha Hprev)) as Hp.
  destruct (index alpha (t - 1)) as [prev|e];
    [|cbn in Hp; unfold index_error in Hp; subst e; reflexivity].
  cbn in Hp. cbn [mbind result_bind].
  rewrite (shape_column N N _ 0%nat HA HN).
  cbn [mbind result_bind].
  rewrite vmul_ok by (rewrite length_map; destruct HA; lia).
  cbn [mbind result_bind]. rewrite (index_ok _ _ _ Ho).
  cbn [mbind result_bind].
  destruct (shape_lookup N M _ 0 HB HN) as (row & Hrow & Hlen).
  unfold index2. rewrite (index_ok _ _ _ Hrow). cbn [mbind result_bind].
  unfold index. rewrite (lookup_ge_None_2 row o) by lia. reflexivity.
Qed.

Lemma forward_rows_out_of_range (ts : list nat) : forall alpha,
  shape T N alpha ->
  Exists (fun t => exists o, observations !! t = Some o /\ (M <= o)%nat) ts ->
  foldM (forward_row self observations) ts alpha = Err IndexError.
Proof.
  induction ts as [|t ts IH]; intros alpha Ha Hex; [inversion Hex|].
  cbn [foldM].
  assert (Hdec : (exists o, observations !! t = Some o /\ (M <= o)%nat) \/
                 ~ (exists o, observations !! t = Some o /\ (M <= o)%nat)).
  { destruct (observations !! t) as [o|];
      [destruct (decide (M <= o)%nat)|];
      [left; eauto
      |right; intros (o' & [= <-] & ?); lia
      |right; intros (o' & [=] & _)]. }
  destruct Hdec as [(o & Ho & Hbad)|Hgood].
  - rewrite (forward_row_out_of_range alpha t o Ha Ho Hbad). reflexivity.
  - pose proof (forward_row_shape alpha t Ha) as Hrow.
    destruct (forward_row self observations alpha t) as [alpha'|e].
    + cbn [mbind result_bind]. apply IH; [exact Hrow|].
      apply Exists_cons in Hex as [Hex|Hex]; [contradiction|exact Hex].
    + cbn in Hrow. unfold index_error in Hrow. subst e. reflexivity.
Qed.

Lemma forward_out_of_range_run :
  Exists (fun o => (M <= o)%nat) observations ->
  forward self observations = Err IndexError.
Proof.
  intros Hex. apply Exists_exists in Hex as (o & Hin & Hbad).
  apply list_elem_of_lookup in Hin as [k Hk].
  assert (HT : (k < T)%nat) by (eapply lookup_lt_Some; exact Hk).
  destruct (lookup_lt_is_Some_2 observations 0 ltac:(fold T; lia)) as [o0 Ho0].
  destruct Hself as (HA & HB & Hpi). fold N M in HA, HB, Hpi.
  unfold forward. fold T N. rewrite (index_ok _ _ _ Ho0).
  cbn [mbind result_bind].
  destruct (decide (M <= o0)%nat) as [Hbad0|Hgood0].
  { rewrite (column_out_of_range _ o0 HB Hbad0). reflexivity. }
  rewrite (shape_column N M _ o0 HB ltac:(lia)). cbn [mbind result_bind].
  rewrite vmul_ok by (rewrite length_map; destruct HB; lia).
  cbn [mbind result_bind].
  pose proof (shape_full2 T N 0) as Hz.
  destruct (shape_lookup T N _ 0 Hz ltac:(lia)) as (row & Hrow & Hlen).
  rewrite (setrow_ok _ _ row) by
    (auto; rewrite length_zip_with, length_map; destruct HB; lia).
  cbn [mbind result_bind].
  apply forward_rows_out_of_range.
  - apply shape_insert; [exact Hz|].
    rewrite length_zip_with, length_map. destruct HB. lia.
  - apply Exists_exists. exists k. split; [|exists o; auto].
    apply elem_of_seq. destruct k as [|k]; [|lia].
    rewrite Ho0 in Hk. injection Hk as ->. lia.
Qed.

End ObservationRange.

Section ObservationRangeTheorem.
Import Numpy HMM.
Local Open Scope Qc_scope.

(** An observation outside the bins is an index error: for a well-shaped
    model with at least one hidden state, forward raises IndexError on every
    observation sequence that contains a value of num_observation_bins or
    more, wherever it occurs, and so does baum_welch_train with at least one
    iteration. *)
Theorem forward_out_of_range
    (self : HiddenMarkovModel) (observations : list nat) :
  well_shaped self ->
  (0 < num_hidden_states self)%nat ->
  Exists (fun o => (num_observation_bins self <= o)%nat) observations ->
  forward self observations = Err IndexError /\
  forall n_iter, (0 < n_iter)%nat ->
    baum_welch_train self observations n_iter = Err IndexError.
Proof.
  intros Hself HN Hex.
  pose proof (forward_out_of_range_run self observations Hself HN Hex) as H.
  split; [exact H|]. intros [|n] Hn; [lia|].
  apply baum_welch_train_first. unfold baum_welch_step. rewrite H. reflexivity.
Qed.

Lemma forward_out_of_range_witness :
  forward example_model [0; 1; 2; 0]%nat = Err IndexError /\
  forall n_iter, (0 < n_iter)%nat ->
    baum_welch_train example_model [0; 1; 2; 0]%nat n_iter = Err IndexError.
Proof.
  apply (forward_out_of_range example_model [0; 1; 2; 0]%nat).
  - repeat split; repeat constructor.
  - simpl. lia.
  - apply Exists_cons_tl, Exists_cons_tl, Exists_cons_hd. simpl. lia.
Defined.

End ObservationRangeTheorem.

Section ProbabilityProofs.
Import Numpy HMM Probability.
Local Open Scope Qc_scope.

Lemma Qcmult_nonneg x y : 0 <= x -> 0 <= y -> 0 <= x * y.
Proof.
  intros Hx Hy. replace 0 with (0 * y) by ring.
  apply Qcmult_le_compat_r; assumption.
Qed.

Lemma Qcmult_le_1 x b : 0 <= x -> b <= 1 -> x * b <= x.
Proof.
  intros Hx Hb. replace (x * b) with (b * x) by ring.
  replace x with (1 * x) at 2 by ring.
  apply Qcmult_le_compat_r; assumption.
Qed.

Lemma np_sum_nonneg (a : array1) : Forall (fun x => 0 <= x) a -> 0 <= np_sum a.
Proof.
  induction 1 as [|x a Hx _ IH]; [rewrite np_sum_nil; apply Qcle_refl|].
  rewrite np_sum_cons. replace 0 with (0 + 0) by ring.
  apply Qcplus_le_compat; assumption.
Qed.

Lemma at1_nonneg (a : array1) i : Forall (fun x => 0 <= x) a -> 0 <= at1 a i.
Proof.
  intros H. unfold at1. destruct (a !! i) as [x|] eqn:E; [|apply Qcle_refl].
  exact (proj1 (Forall_lookup _ a) H i x E).
Qed.

Lemma at1_le_np_sum (a : array1) :
  Forall (fun x => 0 <= x) a -> forall i, at1 a i <= np_sum a.
Proof.
  induction 1 as [|x a Hx Ha IH]; intros i.
  - rewrite np_sum_nil. apply Qcle_refl.
  - rewrite np_sum_cons. destruct i as [|i].
    + change (at1 (x :: a) 0) with x. replace x with (x + 0) at 1 by ring.
      apply Qcplus_le_compat; [apply Qcle_refl|apply np_sum_nonneg, Ha].
    + change (at1 (x :: a) (S i)) with (at1 a i).
      replace (at1 a i) with (0 + at1 a i) by ring.
      apply Qcplus_le_compat; [exact Hx|apply IH].
Qed.

Lemma entry_nonneg (m : array2) i j :
  Forall (Forall (fun x => 0 <= x)) m -> 0 <= entry m i j.
Proof.
  intros H. unfold entry. destruct (m !! i) as [row|] eqn:E; [|apply Qcle_refl].
  apply at1_nonneg. exact (proj1 (Forall_lookup _ m) H i row E).
Qed.

Lemma entry_le_1 (m : array2) i j :
  Forall (Forall (fun x => 0 <= x)) m ->
  Forall (fun row => np_sum row = 1) m ->
  entry m i j <= 1.
Proof.
  intros Hpos Hsum. unfold entry.
  destruct (m !! i) as [row|] eqn:E; [|discriminate].
  rewrite <- (proj1 (Forall_lookup _ m) Hsum i row E).
  apply at1_le_np_sum. exact (proj1 (Forall_lookup _ m) Hpos i row E).
Qed.

Lemma sum_n_nonneg n f : (forall i, (i < n)%nat -> 0 <= f i) -> 0 <= sum_n n f.
Proof.
  induction n as [|n IH]; intros H; [rewrite sum_n_0; apply Qcle_refl|].
  rewrite sum_n_S. replace 0 with (0 + 0) by ring.
  apply Qcplus_le_compat; [apply IH; intros i Hi; apply H; lia|apply H; lia].
Qed.

Lemma sum_n_le n f g :
  (forall i, (i < n)%nat -> f i <= g i) -> sum_n n f <= sum_n n g.
Proof.
  induction n as [|n IH]; intros H; [rewrite !sum_n_0; apply Qcle_refl|].
  rewrite !sum_n_S.
  apply Qcplus_le_compat; [apply IH; intros i Hi; apply H; lia|apply H; lia].
Qed.

Section Model.

Variable self : HiddenMarkovModel.
Variable obs : nat -> nat.
Hypothesis Hself : well_shaped self.
Hypothesis Hst : stochastic self.
Hypothesis Hpos : nonnegative self.

Let N := num_hidden_states self.

Lemma forward_var_nonneg t : forall j, 0 <= forward_var self obs t j.
Proof.
  destruct Hpos as (HA & HB & Hpi).
  induction t as [|t IH]; intros j; cbn [forward_var].
  - apply Qcmult_nonneg; [apply at1_nonneg, Hpi|apply entry_nonneg, HB].
  - apply Qcmult_nonneg; [|apply entry_nonneg, HB].
    apply sum_n_nonneg. intros i _.
    apply Qcmult_nonneg; [apply IH|apply entry_nonneg, HA].
Qed.

Lemma transition_row_sum i : (i < N)%nat -> sum_n N (A self i) = 1.
Proof.
  intros Hi. destruct Hself as (HA & _ & _). destruct Hst as (HsA & _ & _).
  destruct (shape_lookup N N _ i HA Hi) as (row & Hrow & Hlen).
  rewrite <- (proj1 (Forall_lookup _ _) HsA i row Hrow).
  rewrite np_sum_at1, Hlen. apply sum_n_ext. intros j _.
  unfold A. apply (entry_lookup _ _ _ _ Hrow).
Qed.

Lemma forward_var_sum_0 : sum_n N (forward_var self obs 0) <= 1.
Proof.
  destruct Hself as (_ & _ & Hlen). destruct Hst as (_ & HsB & Hspi).
  destruct Hpos as (_ & HB & Hpi).
  rewrite <- Hspi, np_sum_at1, Hlen. fold N. apply sum_n_le. intros j _.
  cbn [forward_var]. apply Qcmult_le_1; [apply at1_nonneg, Hpi|].
  apply entry_le_1; assumption.
Qed.

Lemma forward_var_sum_step t :
  sum_n N (forward_var self obs (S t)) <= sum_n N (forward_var self obs t).
Proof.
  destruct Hst as (_ & HsB & _). destruct Hpos as (HA & HB & _).
  apply (Qcle_trans _
           (sum_n N (fun j => sum_n N (fun i => forward_var self obs t i
                                                * A self i j)))).
  - apply sum_n_le. intros j _. cbn [forward_var]. fold N.
    apply Qcmult_le_1; [|apply entry_le_1; assumption].
    apply sum_n_nonneg. intros i _.
    apply Qcmult_nonneg; [apply forward_var_nonneg|apply entry_nonneg, HA].
  - rewrite sum_n_swap.
    rewrite (sum_n_ext N _ (forward_var self obs t)); [apply Qcle_refl|].
    intros i Hi. rewrite sum_n_mul_l, (transition_row_sum i Hi). ring.
Qed.

End Model.

(** The forward variables of a probability model are probabilities: for a
    well-shaped model whose entries are non-negative and whose rows sum to 1,
    and a non-empty observation sequence over its bins, every entry of the
    array returned by forward is non-negative, every row of it sums to at
    most 1, and the row sums do not increase with t (a longer prefix of the
    observations is never more likely than a shorter one). *)
Theorem forward_probabilities
    (self : HiddenMarkovModel) (observations : list nat) :
  well_shaped self -> stochastic self -> nonnegative self ->
  observations <> [] ->
  Forall (fun o => (o < num_observation_bins self)%nat) observations ->
  let N := num_hidden_states self in
  let T := length observations in
  exists alpha,
    forward self observations = Ok alpha /\
    (forall t j, (t < T)%nat -> (j < N)%nat -> 0 <= entry alpha t j) /\
    (forall t, (t < T)%nat -> sum_n N (entry alpha t) <= 1) /\
    (forall t, (S t < T)%nat ->
       sum_n N (entry alpha (S t)) <= sum_n N (entry alpha t)).
Proof.
  intros Hself Hst Hpos Hne Hobs N T.
  pose proof (forward_ok self observations Hself Hobs Hne) as H.
  apply holds_never in H as (alpha & Hrun & Hshape & Hval).
  set (o := fun t => nth t observations 0%nat) in Hval.
  assert (Hrow : forall t, (t < T)%nat ->
            sum_n N (entry alpha t) = sum_n N (forward_var self o t)).
  { intros t Ht. apply sum_n_ext. intros j Hj. apply Hval; assumption. }
  assert (Hstep : forall t, sum_n N (forward_var self o t) <= 1).
  { induction t as [|t IH].
    - apply forward_var_sum_0; assumption.
    - eapply Qcle_trans; [apply forward_var_sum_step; assumption|exact IH]. }
  exists alpha. split; [exact Hrun|]. split; [|split].
  - intros t j Ht Hj. rewrite (Hval t j Ht Hj).
    apply forward_var_nonneg, Hpos.
  - intros t Ht. rewrite (Hrow t Ht). apply Hstep.
  - intros t Ht. rewrite (Hrow (S t) Ht), (Hrow t ltac:(lia)).
    apply forward_var_sum_step; assumption.
Qed.

Lemma forward_probabilities_witness :
  exists alpha,
    forward example_model [0; 1; 0]%nat = Ok alpha /\
    (forall t j, (t < 3)%nat -> (j < 2)%nat -> 0 <= entry alpha t j) /\
    (forall t, (t < 3)%nat -> sum_n 2 (entry alpha t) <= 1) /\
    (forall t, (S t < 3)%nat ->
       sum_n 2 (entry alpha (S t)) <= sum_n 2 (entry alpha t)).
Proof.
  apply (forward_probabilities example_model [0; 1; 0]%nat).
  - repeat split; repeat constructor.
  - unfold stochastic, example_model.
    cbn [transition_probs emission_probs initial_probs].
    split; [|split];
      [repeat (constructor; [apply Qc_is_canon; reflexivity|]); constructor ..
      |apply Qc_is_canon; reflexivity].
  - repeat split; repeat constructor; discriminate.
  - discriminate.
  - repeat constructor.
Defined.

End ProbabilityProofs.

Section Binary64Runs.
Import Numpy PrimFloat.
Local Open Scope float_scope.
#[local] Set Warnings "-inexact-float".

(** C1 (the claim as stated fails).  HiddenMarkovModel(3, 4) trained for one
    iteration on 535 observations of bin 0, on binary64 numbers: every
    divisor of the pass (the 534 denominators, the three row sums of the
    transition counts and the three row sums of the emission counts) is
    positive, no division by zero occurs, and the returned initial_probs sum
    to more than 1.19 (to 1.2): the backward variables of the first time
    steps are subnormal, so the numerators of xi[0] are rounded to one or two
    units of the smallest binary64 number. *)
Lemma baum_welch_train_binary64_underflow :
  exists self trained divisors,
    HMM64.init 3 4 = Ok self /\
    HMM64.baum_welch_step_divisors self (replicate 535 0%nat)
    = Ok (trained, divisors) /\
    HMM64.baum_welch_train self (replicate 535 0%nat) 1 = Ok trained /\
    length divisors = 540%nat /\
    forallb (fun d => 0 <? d) divisors = true /\
    (1.19 <? Numpy64.np_sum (HMM64.initial_probs trained)) = true.
Proof.
  eexists _, _, _. split; [reflexivity|].
  split; [vm_compute; reflexivity|].
  split; [vm_compute; reflexivity|].
  split; [vm_compute; reflexivity|].
  split; vm_compute; reflexivity.
Qed.

(** C10 (the claim as stated fails).  With vol_target = 1e-300 and
    max_position = 1.0, both positive, and the non-negative
    realized_vol = 1e300, the binary64 quotient underflows and size_position
    returns 0.0, which is not strictly positive. *)
Lemma size_position_underflows :
  (0 <? 1e-300) = true /\ (0 <? 1) = true /\ (0 <=? 1e300) = true /\
  Risk64.size_position (Risk64.mkRiskManager 1 1e-300 (-0.05)) 1e300 = Some 0 /\
  (0 <? 0) = false.
Proof. repeat split; vm_compute; reflexivity. Qed.

(** The rounding of the integer model of JavaScript numbers agrees with the
    kernel's binary64 arithmetic, and the binary64 run of
    minTimeToVisitAllPoints on (0,0), (2^53,0), (2^53,1) returns 2^53 as
    the integer model does. *)
Example js_add_binary64 :
  Number64.of_number (MinTime.js_add (MinTime.Num 9007199254740992) (MinTime.Num 1))
  = Number64.of_Z 9007199254740992 + Number64.of_Z 1 /\
  Number64.of_number (MinTime.js_add (MinTime.Num 9007199254740992) (MinTime.Num 3))
  = Number64.of_Z 9007199254740992 + Number64.of_Z 3 /\
  Number64.of_number (MinTime.js_add (MinTime.Num 18014398509481984) (MinTime.Num 2))
  = Number64.of_Z 18014398509481984 + Number64.of_Z 2 /\
  Number64.of_number (MinTime.js_add (MinTime.Num 18014398509481984) (MinTime.Num 6))
  = Number64.of_Z 18014398509481984 + Number64.of_Z 6 /\
  Number64.of_number (MinTime.js_sub (MinTime.Num (-9007199254740992)) (MinTime.Num 3))
  = Number64.of_Z (-9007199254740992) - Number64.of_Z 3.
Proof. repeat split; vm_compute; reflexivity. Qed.

Example minTime_binary64 :
  Number64.minTimeToVisitAllPoints
    [(0, 0); (Number64.of_Z 9007199254740992, 0);
     (Number64.of_Z 9007199254740992, 1)]
  = option_map Number64.of_number
      (MinTime.minTimeToVisitAllPoints
         [(0, 0); (9007199254740992, 0); (9007199254740992, 1)]%Z).
Proof. vm_compute. reflexivity. Qed.

End Binary64Runs.
